(** * Colobot: the Windows platform-services adapter

    A shallow embedding of [src/common/system/system_windows.cpp]
    ([CSystemUtilsWindows]) and the properties its specification states.

    Conventions of the embedding:
    - [long long] and [int] values are integers of [Z]; arithmetic on them
      wraps in two's complement ([wrap64], [wrap32]);
    - [double] and [float] are IEEE 754 binary64 and binary32 values, as the
      Standard Library's [spec_float] with round-to-nearest-even; every
      [double] operation rounds to binary64 (SSE2 arithmetic, as on x64);
    - a conversion from floating point to [long long] whose value does not
      fit has no defined result in C++: it is [None];
    - [std::string] is [string]; [std::wstring] is a list of 16-bit units;
    - calls into the operating system ([MessageBoxW], [_wgetenv], [system],
      [QueryPerformanceFrequency]) are arguments of the functions that make
      them, and so is Boost's [make_preferred]; the logger is a list of
      entries threaded through. *)

From Stdlib Require Import ZArith Lia List Bool String Ascii.
From Stdlib Require Import Floats.SpecFloat.
From Stdlib Require Reals Lra.
Import ListNotations.
Local Open Scope Z_scope.

(* ================================================================== *)
(** * Machine integers *)

Definition INT64_MIN : Z := - 2 ^ 63.
Definition INT64_MAX : Z := 2 ^ 63 - 1.
Definition INT_MAX : Z := 2 ^ 31 - 1.

(** Two's-complement reduction to [long long]. *)
Definition wrap64 (z : Z) : Z := (z + 2 ^ 63) mod 2 ^ 64 - 2 ^ 63.

(** Two's-complement reduction to [int] ([static_cast<int>] of a size). *)
Definition wrap32 (z : Z) : Z := (z + 2 ^ 31) mod 2 ^ 32 - 2 ^ 31.

Definition in_int64 (z : Z) : Prop := INT64_MIN <= z <= INT64_MAX.

(* ================================================================== *)
(** * Floating point: binary64 ([double]) and binary32 ([float]) *)

Module Float.

Definition prec64 : Z := 53.
Definition emax64 : Z := 1024.
Definition prec32 : Z := 24.
Definition emax32 : Z := 128.

(** [static_cast<double>(z)] for a [long long] [z], also the implicit
    conversion of an integer operand of a [double] product. *)
Definition double_of_ll (z : Z) : spec_float :=
  binary_normalize prec64 emax64 z 0 false.

(** [static_cast<double>(i)] for a [float] [i]. *)
Definition double_of_float (x : spec_float) : spec_float :=
  match x with
  | S754_finite s m e => binary_round prec64 emax64 s m e
  | _ => x
  end.

(** The narrowing of a [double] stored in a [float] variable. *)
Definition float_of_double (x : spec_float) : spec_float :=
  match x with
  | S754_finite s m e => binary_round prec32 emax32 s m e
  | _ => x
  end.

Definition dmul : spec_float -> spec_float -> spec_float :=
  SFmul prec64 emax64.
Definition ddiv : spec_float -> spec_float -> spec_float :=
  SFdiv prec64 emax64.

(** The integer part of a finite value, rounded toward zero. *)
Definition trunc (x : spec_float) : option Z :=
  match x with
  | S754_zero _ => Some 0
  | S754_finite s m e =>
      Some (cond_Zopp s
              (if 0 <=? e then Z.pos m * 2 ^ e else Z.pos m / 2 ^ (- e)))
  | _ => None
  end.

(** [static_cast<long long>(x)]: the truncated value when it fits. *)
Definition ll_of_float (x : spec_float) : option Z :=
  match trunc x with
  | Some z =>
      if (INT64_MIN <=? z) && (z <=? INT64_MAX) then Some z else None
  | None => None
  end.

(** Values that are neither infinite nor NaN. *)
Definition is_finite (x : spec_float) : bool :=
  match x with
  | S754_zero _ | S754_finite _ _ _ => true
  | _ => false
  end.

(** The integer [z] written in precision [prec]: the value that
    conversions and products are compared with when they are exact. *)
Definition canon (prec z : Z) : spec_float :=
  if z =? 0 then S754_zero false
  else S754_finite (z <? 0)
         (Z.to_pos (Z.abs z * 2 ^ (prec - Zdigits2 z))) (Zdigits2 z - prec).

(** [x] is a normal number of sign [s]: a full mantissa of [prec] bits
    and an exponent between [lo] and [hi]. *)
Definition normal (prec : Z) (x : spec_float) (s : bool) (lo hi : Z) : Prop :=
  exists m e,
    x = S754_finite s m e /\ Z.pos (digits2_pos m) = prec /\ lo <= e <= hi.

(** The literals of the source. *)
Definition lit_0 : spec_float := S754_zero false.
Definition lit_1 : spec_float :=
  Eval cbv in binary_round prec32 emax32 false 1 0.
Definition lit_1e9 : spec_float := Eval cbv in double_of_ll 1000000000.
Definition lit_inf : spec_float := S754_infinity false.

End Float.

(* ================================================================== *)
(** * Time stamps *)

(** [struct SystemTimeStamp { long long counterValue; }] *)
Record SystemTimeStamp : Set := { counterValue : Z }.

(** The adapter object: its only field is the counter frequency. *)
Record CSystemUtilsWindows : Set := { m_counterFrequency : Z }.

(** A reading of the performance counter: never negative. *)
Definition valid_tick (t : SystemTimeStamp) : Prop :=
  0 <= counterValue t <= INT64_MAX.

(** [Init]: [freq] is what [QueryPerformanceFrequency] stored.  The
    assertion, compiled in, aborts the program when it is zero: no
    adapter results. *)
Definition Init (freq : Z) : option CSystemUtilsWindows :=
  let m_counterFrequency := freq in
  if m_counterFrequency =? 0 then None
  else Some {| m_counterFrequency := m_counterFrequency |}.

(** [GetCurrentTimeStamp]: [value] is what [QueryPerformanceCounter] read. *)
Definition GetCurrentTimeStamp (value : Z) : SystemTimeStamp :=
  {| counterValue := value |}.

(** [InterpolateTimeStamp]: the resulting [*dst]. *)
Definition InterpolateTimeStamp (a b : SystemTimeStamp) (i : spec_float)
  : option SystemTimeStamp :=
  let diff := wrap64 (counterValue b - counterValue a) in
  match Float.ll_of_float
          (Float.dmul (Float.double_of_ll diff) (Float.double_of_float i)) with
  | Some x => Some {| counterValue := wrap64 (counterValue a + x) |}
  | None => None
  end.

(** The right-hand side of the initialisation of [floatValue] in
    [TimeStampExactDiff]: a product of two [double]s, so a [double]. *)
Definition doubleValue (self : CSystemUtilsWindows)
  (before after : SystemTimeStamp) : spec_float :=
  Float.dmul
    (Float.double_of_ll (wrap64 (counterValue after - counterValue before)))
    (Float.ddiv Float.lit_1e9
       (Float.double_of_ll (m_counterFrequency self))).

(** The value of the local variable [floatValue] of [TimeStampExactDiff]:
    [doubleValue] narrowed to the [float] that the variable is. *)
Definition floatValue (self : CSystemUtilsWindows)
  (before after : SystemTimeStamp) : spec_float :=
  Float.float_of_double
    (Float.dmul
       (Float.double_of_ll (wrap64 (counterValue after - counterValue before)))
       (Float.ddiv Float.lit_1e9
          (Float.double_of_ll (m_counterFrequency self)))).

Definition TimeStampExactDiff (self : CSystemUtilsWindows)
  (before after : SystemTimeStamp) : option Z :=
  Float.ll_of_float (floatValue self before after).

(** The specification's formula, in exact arithmetic:
    [(after - before) * 1e9 / frequency], truncated. *)
Definition TimeStampExactDiff_spec (freq : Z) (before after : SystemTimeStamp)
  : Z :=
  Z.quot ((counterValue after - counterValue before) * 10 ^ 9) freq.

(* ================================================================== *)
(** * Text encodings

    [UTF8_Decode] and [UTF8_Encode] hand the whole conversion to
    [MultiByteToWideChar] and [WideCharToMultiByte] with code page
    [CP_UTF8] and no flags.  The two are modelled as Windows documents
    them: a count of zero fails with result 0, a negative count reads up
    to and including the terminating null, an ill-formed sequence or an
    unpaired surrogate becomes U+FFFD, and an output size of zero asks
    for the required size without writing. *)

Module Text.

Definition byte_of_ascii (c : ascii) : Z := Z.of_N (N_of_ascii c).
Definition ascii_of_byte (b : Z) : ascii := ascii_of_N (Z.to_N b).

Definition bytes_of_string (s : string) : list Z :=
  map byte_of_ascii (list_ascii_of_string s).
Definition string_of_bytes (l : list Z) : string :=
  string_of_list_ascii (map ascii_of_byte l).

Definition REPLACEMENT : Z := 0xFFFD.

Definition between (lo x hi : Z) : bool := (lo <=? x) && (x <=? hi).
Definition is_cont (b : Z) : bool := between 0x80 b 0xBF.

(** The range of the second byte after lead byte [b1] (Unicode,
    table 3-7): it excludes overlong forms, surrogates and values
    above U+10FFFF. *)
Definition second_ok (b1 b2 : Z) : bool :=
  if b1 =? 0xE0 then between 0xA0 b2 0xBF
  else if b1 =? 0xED then between 0x80 b2 0x9F
  else if b1 =? 0xF0 then between 0x90 b2 0xBF
  else if b1 =? 0xF4 then between 0x80 b2 0x8F
  else is_cont b2.

(** UTF-8 to scalar values, U+FFFD for each byte that starts no
    well-formed sequence. *)
Fixpoint utf8_scalars (bs : list Z) : list Z :=
  match bs with
  | [] => []
  | b1 :: t1 =>
    if b1 <? 0x80 then b1 :: utf8_scalars t1
    else if between 0xC2 b1 0xDF then
      match t1 with
      | b2 :: t2 =>
        if is_cont b2
        then ((b1 - 0xC0) * 64 + (b2 - 0x80)) :: utf8_scalars t2
        else REPLACEMENT :: utf8_scalars t1
      | _ => REPLACEMENT :: utf8_scalars t1
      end
    else if between 0xE0 b1 0xEF then
      match t1 with
      | b2 :: b3 :: t3 =>
        if second_ok b1 b2 && is_cont b3
        then ((b1 - 0xE0) * 4096 + (b2 - 0x80) * 64 + (b3 - 0x80))
               :: utf8_scalars t3
        else REPLACEMENT :: utf8_scalars t1
      | _ => REPLACEMENT :: utf8_scalars t1
      end
    else if between 0xF0 b1 0xF4 then
      match t1 with
      | b2 :: b3 :: b4 :: t4 =>
        if second_ok b1 b2 && is_cont b3 && is_cont b4
        then ((b1 - 0xF0) * 262144 + (b2 - 0x80) * 4096
              + (b3 - 0x80) * 64 + (b4 - 0x80)) :: utf8_scalars t4
        else REPLACEMENT :: utf8_scalars t1
      | _ => REPLACEMENT :: utf8_scalars t1
      end
    else REPLACEMENT :: utf8_scalars t1
  end.

(** Well-formed UTF-8 (Unicode, table 3-7). *)
Fixpoint well_formed_utf8 (bs : list Z) : bool :=
  match bs with
  | [] => true
  | b1 :: t1 =>
    if between 0 b1 0x7F then well_formed_utf8 t1
    else if between 0xC2 b1 0xDF then
      match t1 with
      | b2 :: t2 => is_cont b2 && well_formed_utf8 t2
      | _ => false
      end
    else if between 0xE0 b1 0xEF then
      match t1 with
      | b2 :: b3 :: t3 =>
        second_ok b1 b2 && is_cont b3 && well_formed_utf8 t3
      | _ => false
      end
    else if between 0xF0 b1 0xF4 then
      match t1 with
      | b2 :: b3 :: b4 :: t4 =>
        second_ok b1 b2 && is_cont b3 && is_cont b4 && well_formed_utf8 t4
      | _ => false
      end
    else false
  end.

(** A scalar value as UTF-16 units. *)
Definition utf16_of_scalar (c : Z) : list Z :=
  if c <? 0x10000 then [c]
  else [0xD800 + (c - 0x10000) / 1024; 0xDC00 + (c - 0x10000) mod 1024].

(** UTF-16 to scalar values, U+FFFD for each unpaired surrogate. *)
Fixpoint utf16_scalars (ws : list Z) : list Z :=
  match ws with
  | [] => []
  | w1 :: t1 =>
    if between 0xD800 w1 0xDBFF then
      match t1 with
      | w2 :: t2 =>
        if between 0xDC00 w2 0xDFFF
        then (0x10000 + (w1 - 0xD800) * 1024 + (w2 - 0xDC00))
               :: utf16_scalars t2
        else REPLACEMENT :: utf16_scalars t1
      | [] => [REPLACEMENT]
      end
    else if between 0xDC00 w1 0xDFFF then REPLACEMENT :: utf16_scalars t1
    else w1 :: utf16_scalars t1
  end.

(** A scalar value as UTF-8 bytes. *)
Definition utf8_of_scalar (c : Z) : list Z :=
  if c <? 0x80 then [c]
  else if c <? 0x800 then [0xC0 + c / 64; 0x80 + c mod 64]
  else if c <? 0x10000 then
    [0xE0 + c / 4096; 0x80 + (c / 64) mod 64; 0x80 + c mod 64]
  else
    [0xF0 + c / 262144; 0x80 + (c / 4096) mod 64;
     0x80 + (c / 64) mod 64; 0x80 + c mod 64].

(** The units an input count selects from a buffer that ends with a
    terminating null: [None] when the count is zero. *)
Fixpoint until_null (l : list Z) : list Z :=
  match l with
  | [] => [0]
  | x :: t => if x =? 0 then [0] else x :: until_null t
  end.

Definition counted (buf : list Z) (count : Z) : option (list Z) :=
  if count =? 0 then None
  else if count <? 0 then Some (until_null buf)
  else Some (firstn (Z.to_nat count) (buf ++ [0])).

(** What a conversion returns and writes, for converted text [out] and
    an output buffer of [size] units. *)
Definition deliver (out : list Z) (size : Z) : Z * list Z :=
  if size =? 0 then (Z.of_nat (List.length out), [])
  else if Z.of_nat (List.length out) <=? size
       then (Z.of_nat (List.length out), out)
  else (0, []).

(** [MultiByteToWideChar(CP_UTF8, 0, lpMultiByteStr, cbMultiByte,
    lpWideCharStr, cchWideChar)]: the result and the units written. *)
Definition MultiByteToWideChar (lpMultiByteStr : list Z)
  (cbMultiByte cchWideChar : Z) : Z * list Z :=
  match counted lpMultiByteStr cbMultiByte with
  | None => (0, [])
  | Some src => deliver (flat_map utf16_of_scalar (utf8_scalars src))
                  cchWideChar
  end.

(** [WideCharToMultiByte(CP_UTF8, 0, lpWideCharStr, cchWideChar,
    lpMultiByteStr, cbMultiByte, nullptr, nullptr)]. *)
Definition WideCharToMultiByte (lpWideCharStr : list Z)
  (cchWideChar cbMultiByte : Z) : Z * list Z :=
  match counted lpWideCharStr cchWideChar with
  | None => (0, [])
  | Some src => deliver (flat_map utf8_of_scalar (utf16_scalars src))
                  cbMultiByte
  end.

(** A buffer of [size] zeros with [written] stored from its start. *)
Definition filled (size : Z) (written : list Z) : list Z :=
  written ++ skipn (List.length written) (repeat 0 (Z.to_nat size)).

(** Unicode scalar values: code points that are not surrogates. *)
Definition scalar (c : Z) : Prop :=
  0 <= c <= 0x10FFFF /\ ~ (0xD800 <= c <= 0xDFFF).

(** [leading bs c t]: the well-formed text [bs] starts with the
    sequence of scalar value [c], followed by [t]. *)
Inductive leading : list Z -> Z -> list Z -> Prop :=
| lead1 b1 t :
    0 <= b1 <= 0x7F -> leading (b1 :: t) b1 t
| lead2 b1 b2 t :
    0xC2 <= b1 <= 0xDF -> is_cont b2 = true ->
    leading (b1 :: b2 :: t) ((b1 - 0xC0) * 64 + (b2 - 0x80)) t
| lead3 b1 b2 b3 t :
    0xE0 <= b1 <= 0xEF -> second_ok b1 b2 = true -> is_cont b3 = true ->
    leading (b1 :: b2 :: b3 :: t)
      ((b1 - 0xE0) * 4096 + (b2 - 0x80) * 64 + (b3 - 0x80)) t
| lead4 b1 b2 b3 b4 t :
    0xF0 <= b1 <= 0xF4 -> second_ok b1 b2 = true -> is_cont b3 = true ->
    is_cont b4 = true ->
    leading (b1 :: b2 :: b3 :: b4 :: t)
      ((b1 - 0xF0) * 262144 + (b2 - 0x80) * 4096 + (b3 - 0x80) * 64
       + (b4 - 0x80)) t.

(** Turns the range tests among the hypotheses into inequalities. *)
Ltac bounds :=
  unfold is_cont, second_ok in *;
  repeat match goal with
    | H : is_cont _ = _ |- _ => unfold is_cont in H
    | H : between _ _ _ = _ |- _ => unfold between in H
    | H : _ && _ = true |- _ => apply andb_prop in H; destruct H
    | H : _ && _ = false |- _ => apply andb_false_iff in H; destruct H
    | H : (_ <=? _) = true |- _ => apply Z.leb_le in H
    | H : (_ <=? _) = false |- _ => apply Z.leb_gt in H
    | H : (_ <? _) = true |- _ => apply Z.ltb_lt in H
    | H : (_ <? _) = false |- _ => apply Z.ltb_ge in H
    | H : (_ =? _) = true |- _ => apply Z.eqb_eq in H
    | H : (_ =? _) = false |- _ => apply Z.eqb_neq in H
    | H : context [if ?c then _ else _] |- _ => destruct c eqn:?
    end.

End Text.

(** [std::wstring]: 16-bit units. *)
Definition wstring : Set := list Z.

(** Converts a wide Unicode string to an UTF8 string *)
Definition UTF8_Encode (wstr : wstring) : string :=
  let n := wrap32 (Z.of_nat (List.length wstr)) in
  let size_needed := fst (Text.WideCharToMultiByte wstr n 0) in
  let strTo := snd (Text.WideCharToMultiByte wstr n size_needed) in
  Text.string_of_bytes (Text.filled size_needed strTo).

(** Converts an UTF8 string to a wide Unicode String *)
Definition UTF8_Decode (str : string) : wstring :=
  let n := wrap32 (Z.of_nat (String.length str)) in
  let size_needed :=
    fst (Text.MultiByteToWideChar (Text.bytes_of_string str) n 0) in
  let wstrTo :=
    snd (Text.MultiByteToWideChar (Text.bytes_of_string str) n size_needed) in
  Text.filled size_needed wstrTo.

(* ================================================================== *)
(** * Modal dialogs *)

(** [enum SystemDialogType] *)
Inductive SystemDialogType : Set :=
| SDT_INFO | SDT_WARNING | SDT_ERROR | SDT_YES_NO | SDT_OK_CANCEL.

(** [enum SystemDialogResult] *)
Inductive SystemDialogResult : Set :=
| SDR_OK | SDR_CANCEL | SDR_YES | SDR_NO.

(** The constants of [<windows.h>] that the source names, and the
    buttons of a message box of each style, as Windows documents them. *)
Module WinUser.

Definition MB_OK : Z := 0x0.
Definition MB_OKCANCEL : Z := 0x1.
Definition MB_ABORTRETRYIGNORE : Z := 0x2.
Definition MB_YESNOCANCEL : Z := 0x3.
Definition MB_YESNO : Z := 0x4.
Definition MB_RETRYCANCEL : Z := 0x5.
Definition MB_CANCELTRYCONTINUE : Z := 0x6.
Definition MB_TYPEMASK : Z := 0xF.

Definition MB_ICONERROR : Z := 0x10.
Definition MB_ICONQUESTION : Z := 0x20.
Definition MB_ICONWARNING : Z := 0x30.
Definition MB_ICONINFORMATION : Z := 0x40.

Definition IDOK : Z := 1.
Definition IDCANCEL : Z := 2.
Definition IDABORT : Z := 3.
Definition IDRETRY : Z := 4.
Definition IDIGNORE : Z := 5.
Definition IDYES : Z := 6.
Definition IDNO : Z := 7.
Definition IDTRYAGAIN : Z := 10.
Definition IDCONTINUE : Z := 11.

(** The codes the buttons of a box of style [uType] return.  A box
    that could not be shown returns 0, which is none of them. *)
Definition buttons (uType : Z) : list Z :=
  let t := Z.land uType MB_TYPEMASK in
  if t =? MB_OK then [IDOK]
  else if t =? MB_OKCANCEL then [IDOK; IDCANCEL]
  else if t =? MB_ABORTRETRYIGNORE then [IDABORT; IDRETRY; IDIGNORE]
  else if t =? MB_YESNOCANCEL then [IDYES; IDNO; IDCANCEL]
  else if t =? MB_YESNO then [IDYES; IDNO]
  else if t =? MB_RETRYCANCEL then [IDRETRY; IDCANCEL]
  else if t =? MB_CANCELTRYCONTINUE then [IDCANCEL; IDTRYAGAIN; IDCONTINUE]
  else [].

End WinUser.

(** The first [switch] of [SystemDialog]: the style passed to the box. *)
Definition windowsType (type : SystemDialogType) : Z :=
  match type with
  | SDT_INFO => Z.lor WinUser.MB_ICONINFORMATION WinUser.MB_OK
  | SDT_WARNING => Z.lor WinUser.MB_ICONWARNING WinUser.MB_OK
  | SDT_ERROR => Z.lor WinUser.MB_ICONERROR WinUser.MB_OK
  | SDT_YES_NO => Z.lor WinUser.MB_ICONQUESTION WinUser.MB_YESNO
  | SDT_OK_CANCEL => Z.lor WinUser.MB_ICONWARNING WinUser.MB_OKCANCEL
  end.

(** The second [switch] of [SystemDialog], on the code the box returned. *)
Definition dialogResult (code : Z) : SystemDialogResult :=
  if code =? WinUser.IDOK then SDR_OK
  else if code =? WinUser.IDCANCEL then SDR_CANCEL
  else if code =? WinUser.IDYES then SDR_YES
  else if code =? WinUser.IDNO then SDR_NO
  else SDR_OK.

(** [SystemDialog]; [MessageBoxW text caption uType] is the code the
    message box returns (its window argument is [nullptr]); the box
    reads both texts as C strings. *)
Definition SystemDialog (MessageBoxW : wstring -> wstring -> Z -> Z)
  (type : SystemDialogType) (title message : string) : SystemDialogResult :=
  let windowsMessage := UTF8_Decode message in
  let windowsTitle := UTF8_Decode title in
  dialogResult (MessageBoxW windowsMessage windowsTitle (windowsType type)).

(** The results the button set of each dialog type stands for
    (specification, data model: each type implies a button set). *)
Definition button_results (type : SystemDialogType)
  : list SystemDialogResult :=
  match type with
  | SDT_INFO | SDT_WARNING | SDT_ERROR => [SDR_OK]
  | SDT_YES_NO => [SDR_YES; SDR_NO]
  | SDT_OK_CANCEL => [SDR_OK; SDR_CANCEL]
  end.

(* ================================================================== *)
(** * The logger *)

Inductive LogLevel : Set := LOG_TRACE | LOG_WARN | LOG_ERROR.

Inductive LogArg : Set :=
| ArgString (s : string)
| ArgInt (i : Z).

(** One call of [Trace], [Warn] or [Error]: format and arguments. *)
Record LogEntry : Set :=
  { level : LogLevel; format : string; args : list LogArg }.

Definition Log : Set := list LogEntry.

(** Computations that append to the log. *)
Definition Logged (A : Type) : Type := Log -> A * Log.

Definition ret {A : Type} (x : A) : Logged A := fun l => (x, l).

Definition bind {A B : Type} (c : Logged A) (k : A -> Logged B) : Logged B :=
  fun l => let (x, l') := c l in k x l'.

Definition write (lv : LogLevel) (fmt : string) (a : list LogArg)
  : Logged unit :=
  fun l => (tt, l ++ [{| level := lv; format := fmt; args := a |}]).

Declare Scope logged_scope.
Delimit Scope logged_scope with logged.
Notation "x <- c ;; k" := (bind c (fun x => k))
  (at level 61, c at next level, right associativity) : logged_scope.
Notation "c ;; k" := (bind c (fun _ => k))
  (at level 61, right associativity) : logged_scope.

Definition Trace := write LOG_TRACE.
Definition Warn := write LOG_WARN.
Definition Error := write LOG_ERROR.

(* ================================================================== *)
(** * Environment, save directory, shell *)

Local Open Scope string_scope.

Definition newline : string := String (ascii_of_N 10) "".
Definition quote : string := String (ascii_of_N 34) "".
Definition backslash : string := String (ascii_of_N 92) "".

(** [std::wstring wname(name.begin(), name.end())]: each [char],
    signed, converted to a 16-bit unit. *)
Definition widen (name : string) : wstring :=
  map (fun b => if b <? 128 then b else b + 0xFF00)%Z
      (Text.bytes_of_string name).

(** [wname.c_str()] as the callee reads it: the units before the first
    null. *)
Fixpoint c_str (w : wstring) : wstring :=
  match w with
  | [] => []
  | x :: t => if (x =? 0)%Z then [] else x :: c_str t
  end.

(** [GetEnvVar]; [_wgetenv] is the process environment, [None] for a
    null pointer. *)
Definition GetEnvVar (_wgetenv : wstring -> option wstring) (name : string)
  : Logged string :=
  let wname := widen name in
  match _wgetenv (c_str wname) with
  | None => ret ""
  | Some envVar =>
      let var := UTF8_Encode envVar in
      (Trace ("Detected environment variable %s = %s" ++ newline)
             [ArgString name; ArgString var] ;;
       ret var)%logged
  end.

(** [GetSaveDir]; [PORTABLE_SAVES] and [DEV_BUILD] are the build's
    macros and [CSystemUtils_GetSaveDir] is the answer of the base
    class, the platform-neutral default. *)
Definition GetSaveDir (PORTABLE_SAVES DEV_BUILD : bool)
  (CSystemUtils_GetSaveDir : string)
  (_wgetenv : wstring -> option wstring) : Logged string :=
  if PORTABLE_SAVES || DEV_BUILD then ret CSystemUtils_GetSaveDir
  else
    (envUSERPROFILE <- GetEnvVar _wgetenv "USERPROFILE" ;;
     savegameDir <-
       (if String.eqb envUSERPROFILE ""
        then (Warn "Unable to find directory for saves - using default directory" [] ;;
              ret CSystemUtils_GetSaveDir)
        else ret (envUSERPROFILE ++ backslash ++ "colobot")) ;;
     Trace ("Saved game files are going to %s" ++ newline)
           [ArgString savegameDir] ;;
     ret savegameDir)%logged.

(** [OpenPath]; [make_preferred p] is what Boost's
    [boost::filesystem::path(p).make_preferred().string()] returns, and
    [system] is the C library's call, answering with the exit code of
    the command. *)
Definition OpenPath (make_preferred : string -> string)
  (system : string -> Z) (path : string) : Logged bool :=
  let result :=
    system ("start explorer " ++ quote ++ make_preferred path ++ quote) in
  if negb (result =? 0)%Z then
    (Error ("Failed to open path: %s, error code: %i" ++ newline)
           [ArgString path; ArgInt result] ;;
     ret false)%logged
  else ret true.

Definition OpenWebsite (system : string -> Z) (url : string) : Logged bool :=
  let result :=
    system ("rundll32 url.dll,FileProtocolHandler " ++ quote ++ url ++ quote) in
  if negb (result =? 0)%Z then
    (Error ("Failed to open website: %s, error code: %i" ++ newline)
           [ArgString url; ArgInt result] ;;
     ret false)%logged
  else ret true.

(** The entries the adapter writes to the log. *)
Definition detected (name var : string) : LogEntry :=
  {| level := LOG_TRACE;
     format := "Detected environment variable %s = %s" ++ newline;
     args := [ArgString name; ArgString var] |}.

Definition no_directory : LogEntry :=
  {| level := LOG_WARN;
     format := "Unable to find directory for saves - using default directory";
     args := [] |}.

Definition going_to (dir : string) : LogEntry :=
  {| level := LOG_TRACE;
     format := "Saved game files are going to %s" ++ newline;
     args := [ArgString dir] |}.

Definition open_failed (what target : string) (code : Z) : LogEntry :=
  {| level := LOG_ERROR;
     format := "Failed to open " ++ what ++ ": %s, error code: %i" ++ newline;
     args := [ArgString target; ArgInt code] |}.

(** A text of [n] letters [a], and a short text with a three-byte and a
    four-byte character (U+20AC and U+1F600). *)
Fixpoint letters (n : nat) : string :=
  match n with
  | O => EmptyString
  | S k => String "a" (letters k)
  end.

Definition sample_text : string :=
  "h" ++ Text.string_of_bytes [0xE2; 0x82; 0xAC; 0xF0; 0x9F; 0x98; 0x80] ++ "llo".

Local Close Scope string_scope.

(* ================================================================== *)
(** * Sleeping *)

Definition INT_MIN : Z := - 2 ^ 31.

(** The due time that [Usleep] hands to its timer:
    [ft.QuadPart = -(10 * usec)], computed in [int] and then widened.
    Windows reads a negative due time as relative, in units of 100 ns. *)
Definition Usleep_QuadPart (usec : Z) : Z :=
  wrap32 (- wrap32 (10 * usec)).

(* ================================================================== *)
(** * Notions used by the further properties *)

(** Well-formed UTF-16: 16-bit units in which every surrogate is half of
    a high-low pair. *)
Fixpoint well_formed_utf16 (ws : list Z) : bool :=
  match ws with
  | [] => true
  | w1 :: t1 =>
    if Text.between 0xD800 w1 0xDBFF then
      match t1 with
      | w2 :: t2 => Text.between 0xDC00 w2 0xDFFF && well_formed_utf16 t2
      | [] => false
      end
    else if Text.between 0xDC00 w1 0xDFFF then false
    else Text.between 0 w1 0xFFFF && well_formed_utf16 t1
  end.

(** The values of a [char] read as a byte and of a 16-bit [wchar_t]. *)
Definition is_byte (b : Z) : Prop := 0 <= b <= 0xFF.
Definition is_unit (w : Z) : Prop := 0 <= w <= 0xFFFF.

(** Text of 7-bit characters only. *)
Definition ascii_text (s : string) : bool :=
  forallb (fun b => b <? 128) (Text.bytes_of_string s).

(** [c] returns [x] and appends [entries], whatever the log holds. *)
Definition appends {A : Type} (c : Logged A) (x : A) (entries : list LogEntry)
  : Prop :=
  forall log : Log, c log = (x, log ++ entries).

(** The name [USERPROFILE] in UTF-16, and an environment that holds
    [value] under [name] and nothing else. *)
Definition USERPROFILE : wstring :=
  [85; 83; 69; 82; 80; 82; 79; 70; 73; 76; 69].

Definition environment (name value : wstring) (key : wstring)
  : option wstring :=
  if list_eq_dec Z.eq_dec key name then Some value else None.

(** The [float] 2^-k: 1, 0.5, 0.25, ... *)
Definition float_pow2 (k : Z) : spec_float :=
  S754_finite false 8388608 (- 23 - k).

(** Real values of floating-point numbers. *)
Module Real.
Import Reals.

(** Powers of two with integer exponents. *)
Definition bpow (e : Z) : R := powerRZ 2 e.

(** [within prec x s lo hi v L U]: [x] is a normal number of sign [s]
    with exponent between [lo] and [hi], and magnitude between [v * L]
    and [v * U]. *)
Definition within (prec : Z) (x : spec_float) (s : bool) (lo hi : Z)
  (v L U : R) : Prop :=
  exists m e,
    x = S754_finite s m e /\ Z.pos (digits2_pos m) = prec /\ lo <= e <= hi
    /\ (v * L <= IZR (Z.pos m) * bpow e <= v * U)%R.

End Real.

Module FloatFacts.
Import Float.

(** ** Digits and shifts *)

Lemma iter_pos_nat {A : Type} (f : A -> A) (p : positive) (x : A) :
  iter_pos f p x = Nat.iter (Pos.to_nat p) f x.
Proof.
  revert x; induction p as [p IH | p IH | ]; intro x; cbn [iter_pos].
  - rewrite !IH, Pos2Nat.inj_xI.
    replace (S (2 * Pos.to_nat p))%nat
      with (Pos.to_nat p + (Pos.to_nat p + 1))%nat by lia.
    rewrite !Nat.iter_add. reflexivity.
  - rewrite !IH, Pos2Nat.inj_xO.
    replace (2 * Pos.to_nat p)%nat
      with (Pos.to_nat p + Pos.to_nat p)%nat by lia.
    rewrite Nat.iter_add. reflexivity.
  - reflexivity.
Qed.

Lemma digits2_pos_bounds (m : positive) :
  2 ^ (Z.pos (digits2_pos m) - 1) <= Z.pos m < 2 ^ Z.pos (digits2_pos m).
Proof.
  induction m as [m IH | m IH | ]; simpl digits2_pos.
  - rewrite Pos2Z.inj_succ.
    replace (Z.succ (Z.pos (digits2_pos m)) - 1)
      with (Z.succ (Z.pos (digits2_pos m) - 1)) by lia.
    rewrite !Z.pow_succ_r by lia. lia.
  - rewrite Pos2Z.inj_succ.
    replace (Z.succ (Z.pos (digits2_pos m)) - 1)
      with (Z.succ (Z.pos (digits2_pos m) - 1)) by lia.
    rewrite !Z.pow_succ_r by lia. lia.
  - simpl. lia.
Qed.

Lemma digits2_pos_unique (m : positive) (d : Z) :
  2 ^ (d - 1) <= Z.pos m < 2 ^ d -> Z.pos (digits2_pos m) = d.
Proof.
  intros H. pose proof (digits2_pos_bounds m) as B.
  assert (Hd : 0 < d).
  { destruct (Z.lt_trichotomy d 0) as [N | [-> | P]]; [ | | exact P ].
    - rewrite (Z.pow_neg_r 2 d) in H by lia. lia.
    - simpl in H. lia. }
  destruct (Z.lt_trichotomy (Z.pos (digits2_pos m)) d) as [L | [E | G]];
    [ | exact E | ].
  - assert (2 ^ Z.pos (digits2_pos m) <= 2 ^ (d - 1))
      by (apply Z.pow_le_mono_r; lia).
    lia.
  - assert (2 ^ d <= 2 ^ (Z.pos (digits2_pos m) - 1))
      by (apply Z.pow_le_mono_r; lia).
    lia.
Qed.

Lemma iter_xO_spec (m : positive) (n : nat) :
  Z.pos (Nat.iter n xO m) = Z.pos m * 2 ^ Z.of_nat n.
Proof.
  induction n as [ | n IH].
  - simpl. lia.
  - rewrite Nat2Z.inj_succ, Z.pow_succ_r by lia.
    change (Nat.iter (S n) xO m) with (xO (Nat.iter n xO m)).
    rewrite Pos2Z.inj_xO, IH. lia.
Qed.

Lemma pos_iter_xO_spec (m d : positive) :
  Z.pos (Pos.iter xO m d) = Z.pos m * 2 ^ Z.pos d.
Proof.
  induction d as [ | d IH] using Pos.peano_ind.
  - simpl. lia.
  - rewrite Pos.iter_succ, Pos2Z.inj_xO, IH, Pos2Z.inj_succ, Z.pow_succ_r
      by lia.
    lia.
Qed.

Lemma digits2_pos_shift (m M : positive) (k : Z) :
  0 <= k -> Z.pos M = Z.pos m * 2 ^ k ->
  Z.pos (digits2_pos M) = Z.pos (digits2_pos m) + k.
Proof.
  intros Hk HM. apply digits2_pos_unique.
  pose proof (digits2_pos_bounds m) as [Lo Hi].
  replace (Z.pos (digits2_pos m) + k - 1)
    with ((Z.pos (digits2_pos m) - 1) + k) by lia.
  rewrite !Z.pow_add_r by lia. rewrite HM.
  assert (0 < 2 ^ k) by (apply Z.pow_pos_nonneg; lia). nia.
Qed.

(** Shifting an exact record right by the zeros of its mantissa. *)
Lemma iter_shr_1_exact (n : nat) (m : positive) :
  Nat.iter n shr_1
    {| shr_m := Z.pos (Nat.iter n xO m); shr_r := false; shr_s := false |}
  = {| shr_m := Z.pos m; shr_r := false; shr_s := false |}.
Proof.
  induction n as [ | n IH]; [ reflexivity | ].
  rewrite Nat.iter_succ_r. exact IH.
Qed.

Lemma shr_exact (m M : positive) (e k : Z) :
  0 <= k -> Z.pos M = Z.pos m * 2 ^ k ->
  shr {| shr_m := Z.pos M; shr_r := false; shr_s := false |} e k
  = ({| shr_m := Z.pos m; shr_r := false; shr_s := false |}, e + k).
Proof.
  intros Hk HM. destruct k as [ | p | p]; [ | | lia ].
  - simpl in *. f_equal; [ | lia ]. f_equal. lia.
  - unfold shr. rewrite iter_pos_nat. f_equal.
    assert (M = Nat.iter (Pos.to_nat p) xO m) as ->.
    { apply Pos2Z.inj. rewrite iter_xO_spec, positive_nat_Z. exact HM. }
    apply iter_shr_1_exact.
Qed.

Lemma shr_1_m (r : shr_record) :
  0 <= shr_m r -> shr_m (shr_1 r) = shr_m r / 2.
Proof.
  destruct r as [m r s]. cbn [shr_m]. intros Hm.
  destruct m as [ | p | p]; [ reflexivity | | lia ].
  destruct p as [p | p | ]; cbn [shr_1 shr_m].
  - rewrite Pos2Z.inj_xI. apply Z.div_unique with 1; lia.
  - rewrite Pos2Z.inj_xO. apply Z.div_unique with 0; lia.
  - reflexivity.
Qed.

Lemma iter_shr_1_m (n : nat) (r : shr_record) :
  0 <= shr_m r -> shr_m (Nat.iter n shr_1 r) = shr_m r / 2 ^ Z.of_nat n.
Proof.
  intros Hm. induction n as [ | n IH].
  - simpl. rewrite Z.div_1_r. reflexivity.
  - rewrite Nat.iter_succ, shr_1_m.
    + rewrite IH, Nat2Z.inj_succ, Z.pow_succ_r, Z.div_div by lia.
      f_equal. lia.
    + rewrite IH. apply Z.div_pos; [ lia | apply Z.pow_pos_nonneg; lia ].
Qed.

Lemma shr_m_shr (r : shr_record) (e n : Z) :
  0 <= shr_m r -> 0 <= n ->
  shr_m (fst (shr r e n)) = shr_m r / 2 ^ n /\ snd (shr r e n) = e + n.
Proof.
  intros Hm Hn. destruct n as [ | p | p]; [ | | lia ].
  - simpl. rewrite Z.div_1_r. lia.
  - unfold shr. cbn [fst snd]. rewrite iter_pos_nat, iter_shr_1_m by assumption.
    rewrite positive_nat_Z. auto.
Qed.

Section Round.
Variables prec emax : Z.

Lemma binary_round_aux_exact (s : bool) (m M : positive) (e k : Z) :
  bounded prec emax m e = true -> 0 <= k -> Z.pos M = Z.pos m * 2 ^ k ->
  binary_round_aux prec emax s (Z.pos M) (e - k) loc_Exact
  = S754_finite s m e.
Proof.
  intros B Hk HM. unfold bounded, canonical_mantissa in B.
  apply andb_prop in B as [C E]. apply Z.eqb_eq in C.
  unfold binary_round_aux, shr_fexp.
  cbn [Zdigits2 shr_record_of_loc].
  rewrite (digits2_pos_shift m M k Hk HM).
  replace (Z.pos (digits2_pos m) + k + (e - k))
    with (Z.pos (digits2_pos m) + e) by lia.
  rewrite C. replace (e - (e - k)) with k by lia.
  rewrite (shr_exact m M (e - k) k Hk HM).
  cbn [shr_m loc_of_shr_record round_nearest_even Zdigits2 shr_record_of_loc].
  replace (e - k + k) with e by lia. rewrite C, Z.sub_diag. cbn [shr shr_m].
  rewrite E. reflexivity.
Qed.

Lemma shr_m_record_of_loc (m : Z) (l : location) :
  shr_m (shr_record_of_loc m l) = m.
Proof. destruct l as [ | [ | | ]]; reflexivity. Qed.

Lemma shr_fexp_spec (m e : Z) (l : location) :
  0 <= m -> 0 <= fexp prec emax (Zdigits2 m + e) - e ->
  shr_m (fst (shr_fexp prec emax m e l))
  = m / 2 ^ (fexp prec emax (Zdigits2 m + e) - e)
  /\ snd (shr_fexp prec emax m e l) = fexp prec emax (Zdigits2 m + e).
Proof.
  intros Hm Hn. unfold shr_fexp.
  destruct (shr_m_shr (shr_record_of_loc m l) e
              (fexp prec emax (Zdigits2 m + e) - e)) as [A B];
    rewrite ?shr_m_record_of_loc; try assumption.
  rewrite shr_m_record_of_loc in A. split; [ exact A | lia ].
Qed.

Lemma round_nearest_even_bounds (m : Z) (l : location) :
  m <= round_nearest_even m l <= m + 1.
Proof.
  destruct l as [ | [ | | ]]; cbn [round_nearest_even];
    try destruct (Z.even m); lia.
Qed.

(** Away from underflow and overflow, rounding gives a normal number
    whose exponent is the one of the truncated mantissa, or one more
    when rounding up carries. *)
Lemma binary_round_aux_normal (s : bool) (M : positive) (e : Z)
  (l : location) :
  0 < prec ->
  prec <= Z.pos (digits2_pos M) ->
  emin prec emax <= e + (Z.pos (digits2_pos M) - prec) ->
  e + (Z.pos (digits2_pos M) - prec) + 1 <= emax - prec ->
  normal prec (binary_round_aux prec emax s (Z.pos M) e l) s
    (e + (Z.pos (digits2_pos M) - prec))
    (e + (Z.pos (digits2_pos M) - prec) + 1).
Proof.
  intros Hp Hd He Hmax.
  pose proof (digits2_pos_bounds M) as [Lo Hi].
  set (d := Z.pos (digits2_pos M)) in *.
  assert (F1 : fexp prec emax (Zdigits2 (Z.pos M) + e) = e + (d - prec)).
  { unfold fexp. cbn [Zdigits2]. fold d. lia. }
  unfold binary_round_aux.
  destruct (shr_fexp_spec (Z.pos M) e l) as [A B];
    [ lia | rewrite F1; lia | ].
  destruct (shr_fexp prec emax (Z.pos M) e l) as [mrs' e'].
  cbn [fst snd] in A, B. rewrite F1 in A, B.
  replace (e + (d - prec) - e) with (d - prec) in A by lia.
  assert (Pn : 0 < 2 ^ (d - prec)) by (apply Z.pow_pos_nonneg; lia).
  assert (M1 : 2 ^ (prec - 1) <= shr_m mrs' < 2 ^ prec).
  { rewrite A. split.
    - apply Z.div_le_lower_bound; [ exact Pn | ].
      rewrite <- Z.pow_add_r by lia.
      replace (d - prec + (prec - 1)) with (d - 1) by lia. exact Lo.
    - apply Z.div_lt_upper_bound; [ exact Pn | ].
      rewrite <- Z.pow_add_r by lia.
      replace (d - prec + prec) with d by lia. exact Hi. }
  pose proof (round_nearest_even_bounds (shr_m mrs')
                (loc_of_shr_record mrs')) as R.
  set (m2 := round_nearest_even (shr_m mrs') (loc_of_shr_record mrs')) in *.
  assert (P1 : 0 < 2 ^ (prec - 1)) by (apply Z.pow_pos_nonneg; lia).
  assert (P2 : 2 ^ prec = 2 * 2 ^ (prec - 1)).
  { rewrite <- Z.pow_succ_r by lia. f_equal. lia. }
  destruct m2 as [ | p2 | p2] eqn:E2; [ lia | | lia ].
  destruct (Z.ltb_spec (Z.pos p2) (2 ^ prec)) as [Lt | Ge].
  - (* the rounded mantissa still has [prec] digits *)
    assert (D2 : Z.pos (digits2_pos p2) = prec)
      by (apply digits2_pos_unique; lia).
    unfold shr_fexp. cbn [Zdigits2 shr_record_of_loc]. rewrite D2.
    replace (fexp prec emax (prec + e') - e') with 0
      by (unfold fexp; lia).
    cbn [shr shr_m].
    replace (e' <=? emax - prec) with true
      by (symmetry; apply Z.leb_le; lia).
    exists p2, e'. repeat split; [ exact D2 | lia | lia ].
  - (* rounding carried into a new digit *)
    assert (Ep : Z.pos p2 = 2 ^ prec) by lia.
    assert (D2 : Z.pos (digits2_pos p2) = prec + 1).
    { apply digits2_pos_unique. replace (prec + 1 - 1) with prec by lia.
      rewrite Z.pow_add_r by lia. lia. }
    destruct (shr_fexp_spec (Z.pos p2) e' loc_Exact) as [A' B'];
      [ lia | cbn [Zdigits2]; rewrite D2; unfold fexp; lia | ].
    destruct (shr_fexp prec emax (Z.pos p2) e' loc_Exact) as [mrs'' e''].
    cbn [fst snd Zdigits2] in A', B'. rewrite D2 in A', B'.
    replace (fexp prec emax (prec + 1 + e')) with (e' + 1) in A', B'
      by (unfold fexp; lia).
    replace (e' + 1 - e') with 1 in A' by lia.
    rewrite Ep, P2 in A'. change (2 ^ 1) with 2 in A'.
    rewrite Z.mul_comm, Z.div_mul in A' by lia.
    destruct (shr_m mrs'') as [ | q | q] eqn:Eq; [ lia | | lia ].
    replace (e'' <=? emax - prec) with true
      by (symmetry; apply Z.leb_le; lia).
    exists q, e''. repeat split; [ | lia | lia ].
    apply digits2_pos_unique. rewrite A'. lia.
Qed.

Lemma binary_round_exact (s : bool) (M m : positive) (e e0 : Z) :
  bounded prec emax m e0 = true ->
  (e0 <= e /\ Z.pos m = Z.pos M * 2 ^ (e - e0))
  \/ (e <= e0 /\ Z.pos M = Z.pos m * 2 ^ (e0 - e)) ->
  binary_round prec emax s M e = S754_finite s m e0.
Proof.
  intros B H.
  assert (C : fexp prec emax (Z.pos (digits2_pos m) + e0) = e0).
  { unfold bounded, canonical_mantissa in B.
    apply andb_prop in B as [C _]. apply Z.eqb_eq in C. exact C. }
  unfold binary_round, shl_align.
  destruct H as [[Le HM] | [Le HM]].
  - rewrite (digits2_pos_shift M m (e - e0)) in C by (assumption || lia).
    replace (Z.pos (digits2_pos M) + (e - e0) + e0)
      with (Z.pos (digits2_pos M) + e) in C by lia.
    rewrite C. destruct (e0 - e) as [ | d | d] eqn:Ed; [ | lia | ].
    + replace (e - e0) with 0 in HM by lia. rewrite Z.mul_1_r in HM.
      injection HM as ->. replace e with (e0 - 0) by lia.
      apply binary_round_aux_exact; [ exact B | lia | lia ].
    + assert (Pos.iter xO M d = m) as ->.
      { apply Pos2Z.inj. rewrite pos_iter_xO_spec, HM.
        f_equal. f_equal. lia. }
      replace e0 with (e0 - 0) at 1 by lia.
      apply binary_round_aux_exact; [ exact B | lia | lia ].
  - assert (C' : fexp prec emax (Z.pos (digits2_pos M) + e) = e0).
    { rewrite (digits2_pos_shift m M (e0 - e)) by (assumption || lia).
      rewrite <- C at 2. f_equal. lia. }
    rewrite C'.
    replace (match e0 - e with
             | Z.neg d => (Pos.iter xO M d, e0)
             | _ => (M, e)
             end)
      with (M, e)
      by (destruct (e0 - e) eqn:?; [ reflexivity | reflexivity | lia ]).
    replace e with (e0 - (e0 - e)) at 1 by lia.
    apply binary_round_aux_exact; [ exact B | lia | exact HM ].
Qed.

Lemma binary_round_normal (s : bool) (M : positive) (e : Z) :
  0 < prec ->
  emin prec emax <= Z.pos (digits2_pos M) + e - prec ->
  Z.pos (digits2_pos M) + e + 1 <= emax ->
  normal prec (binary_round prec emax s M e) s
    (Z.pos (digits2_pos M) + e - prec)
    (Z.pos (digits2_pos M) + e - prec + 1).
Proof.
  intros Hp Lo Hi. unfold binary_round, shl_align.
  set (d := Z.pos (digits2_pos M)) in *.
  replace (fexp prec emax (d + e)) with (d + e - prec) by (unfold fexp; lia).
  destruct (d + e - prec - e) as [ | k | k] eqn:Ek.
  - replace (d + e - prec) with (e + (d - prec)) by lia.
    apply binary_round_aux_normal; fold d; lia.
  - replace (d + e - prec) with (e + (d - prec)) by lia.
    apply binary_round_aux_normal; fold d; lia.
  - assert (D : Z.pos (digits2_pos (Pos.iter xO M k)) = d + Z.pos k).
    { apply digits2_pos_shift; [ lia | apply pos_iter_xO_spec ]. }
    replace (d + e - prec + 1)
      with (d + e - prec + (d + Z.pos k - prec) + 1) by lia.
    replace (d + e - prec) with (d + e - prec + (d + Z.pos k - prec)) at 2
      by lia.
    rewrite <- D. apply binary_round_aux_normal; rewrite ?D; lia.
Qed.

Lemma binary_round_finite (s : bool) (M : positive) (e : Z) :
  0 < prec ->
  emin prec emax <= Z.pos (digits2_pos M) + e - prec ->
  Z.pos (digits2_pos M) + e + 1 <= emax ->
  exists m' e', binary_round prec emax s M e = S754_finite s m' e'.
Proof.
  intros Hp Lo Hi.
  destruct (binary_round_normal s M e Hp Lo Hi) as (m' & e' & E & _).
  eauto.
Qed.
End Round.

Lemma Zdigits2_bounds (z : Z) :
  z <> 0 -> 2 ^ (Zdigits2 z - 1) <= Z.abs z < 2 ^ Zdigits2 z.
Proof.
  destruct z as [ | p | p]; [ congruence | | ]; intros _;
    apply digits2_pos_bounds.
Qed.

Lemma Zdigits2_pos (z : Z) : z <> 0 -> 0 < Zdigits2 z.
Proof. destruct z; [ congruence | | ]; intros _; reflexivity. Qed.

Lemma Zdigits2_le (z p : Z) :
  z <> 0 -> 0 <= p -> Z.abs z < 2 ^ p -> Zdigits2 z <= p.
Proof.
  intros Hz Hp Hlt. pose proof (Zdigits2_bounds z Hz) as [Lo _].
  destruct (Z.le_gt_cases (Zdigits2 z) p) as [ | G]; [ assumption | ].
  assert (2 ^ p <= 2 ^ (Zdigits2 z - 1)) by (apply Z.pow_le_mono_r; lia). lia.
Qed.

Lemma Zdigits2_mul (a b : Z) :
  a <> 0 -> b <> 0 -> Zdigits2 a + Zdigits2 b - 1 <= Zdigits2 (a * b).
Proof.
  intros Ha Hb.
  pose proof (Zdigits2_bounds a Ha) as [La _].
  pose proof (Zdigits2_bounds b Hb) as [Lb _].
  pose proof (Zdigits2_pos a Ha). pose proof (Zdigits2_pos b Hb).
  assert (Hab : a * b <> 0) by nia.
  pose proof (Zdigits2_bounds (a * b) Hab) as [_ Hi].
  pose proof (Zdigits2_pos (a * b) Hab).
  destruct (Z.le_gt_cases (Zdigits2 a + Zdigits2 b - 1) (Zdigits2 (a * b)))
    as [ | G]; [ assumption | exfalso ].
  assert (2 ^ Zdigits2 (a * b) <= 2 ^ ((Zdigits2 a - 1) + (Zdigits2 b - 1)))
    by (apply Z.pow_le_mono_r; lia).
  rewrite Z.pow_add_r in H2 by lia. rewrite Z.abs_mul in Hi.
  assert (0 < 2 ^ (Zdigits2 a - 1)) by (apply Z.pow_pos_nonneg; lia).
  assert (0 < 2 ^ (Zdigits2 b - 1)) by (apply Z.pow_pos_nonneg; lia).
  nia.
Qed.

Lemma new_location_0 (n : Z) : new_location n 0 = loc_Exact.
Proof.
  unfold new_location, new_location_even, new_location_odd.
  destruct (Z.even n); reflexivity.
Qed.

(** ** Integers that a format holds exactly *)

Section Canon.
Variables prec emax : Z.
Hypothesis prec_pos : 0 < prec.
Hypothesis prec_emax : prec + 2 <= emax.

Lemma canon_finite (z : Z) :
  z <> 0 ->
  canon prec z
  = S754_finite (z <? 0) (Z.to_pos (Z.abs z * 2 ^ (prec - Zdigits2 z)))
      (Zdigits2 z - prec).
Proof using Type.
  intros Hz. unfold canon.
  destruct (Z.eqb_spec z 0); [ contradiction | reflexivity ].
Qed.

Lemma canon_mantissa (z : Z) :
  z <> 0 -> Z.abs z < 2 ^ prec ->
  Z.pos (Z.to_pos (Z.abs z * 2 ^ (prec - Zdigits2 z)))
  = Z.abs z * 2 ^ (prec - Zdigits2 z).
Proof using prec_pos.
  intros Hz Hlt. rewrite Z2Pos.id; [ reflexivity | ].
  pose proof (Zdigits2_le z prec Hz (Z.lt_le_incl _ _ prec_pos) Hlt).
  apply Z.mul_pos_pos; [ lia | apply Z.pow_pos_nonneg; lia ].
Qed.

Lemma canon_digits (z : Z) :
  z <> 0 -> Z.abs z < 2 ^ prec ->
  Z.pos (digits2_pos (Z.to_pos (Z.abs z * 2 ^ (prec - Zdigits2 z)))) = prec.
Proof using prec_pos.
  intros Hz Hlt.
  pose proof (Zdigits2_le z prec Hz (Z.lt_le_incl _ _ prec_pos) Hlt) as Le.
  pose proof (Zdigits2_bounds z Hz) as [Lo Hi].
  pose proof (Zdigits2_pos z Hz) as Pd.
  apply digits2_pos_unique. rewrite canon_mantissa by assumption.
  set (d := Zdigits2 z) in *.
  assert (0 < 2 ^ (prec - d)) by (apply Z.pow_pos_nonneg; lia).
  assert (E1 : 2 ^ (prec - 1) = 2 ^ (d - 1) * 2 ^ (prec - d))
    by (rewrite <- Z.pow_add_r by lia; f_equal; lia).
  assert (E2 : 2 ^ prec = 2 ^ d * 2 ^ (prec - d))
    by (rewrite <- Z.pow_add_r by lia; f_equal; lia).
  rewrite E1, E2. nia.
Qed.

Lemma canon_bounded (z : Z) :
  z <> 0 -> Z.abs z < 2 ^ prec ->
  bounded prec emax (Z.to_pos (Z.abs z * 2 ^ (prec - Zdigits2 z)))
    (Zdigits2 z - prec) = true.
Proof using prec_pos prec_emax.
  intros Hz Hlt.
  pose proof (Zdigits2_le z prec Hz (Z.lt_le_incl _ _ prec_pos) Hlt).
  pose proof (Zdigits2_pos z Hz).
  unfold bounded, canonical_mantissa. rewrite canon_digits by assumption.
  apply andb_true_intro; split.
  - apply Z.eqb_eq. unfold fexp, emin. lia.
  - apply Z.leb_le. lia.
Qed.

(** Truncation gives the integer back. *)
Lemma trunc_canon (z : Z) :
  Z.abs z < 2 ^ prec -> Float.trunc (canon prec z) = Some z.
Proof using prec_pos.
  intros Hlt. destruct (Z.eq_dec z 0) as [-> | Hz]; [ reflexivity | ].
  pose proof (Zdigits2_le z prec Hz (Z.lt_le_incl _ _ prec_pos) Hlt).
  rewrite canon_finite by assumption. cbn [Float.trunc]. f_equal.
  rewrite canon_mantissa by assumption.
  set (d := Zdigits2 z) in *.
  replace (if 0 <=? d - prec
           then Z.abs z * 2 ^ (prec - d) * 2 ^ (d - prec)
           else Z.abs z * 2 ^ (prec - d) / 2 ^ (- (d - prec)))
    with (Z.abs z).
  - unfold cond_Zopp. destruct (Z.ltb_spec z 0); lia.
  - destruct (Z.leb_spec 0 (d - prec)).
    + replace (prec - d) with 0 by lia. replace (d - prec) with 0 by lia.
      simpl. lia.
    + replace (- (d - prec)) with (prec - d) by lia.
      rewrite Z.div_mul; [ reflexivity | ].
      apply Z.pow_nonzero; lia.
Qed.

(** An integer of at most [prec] bits converts exactly. *)
Lemma binary_normalize_canon (z : Z) :
  Z.abs z < 2 ^ prec ->
  binary_normalize prec emax z 0 false = canon prec z.
Proof using prec_pos prec_emax.
  intros Hlt. destruct (Z.eq_dec z 0) as [-> | Hz]; [ reflexivity | ].
  rewrite (canon_finite z Hz).
  pose proof (canon_bounded z Hz Hlt) as B.
  pose proof (canon_mantissa z Hz Hlt) as HM.
  pose proof (Zdigits2_le z prec Hz (Z.lt_le_incl _ _ prec_pos) Hlt).
  destruct z as [ | p | p]; [ congruence | | ]; cbn [binary_normalize];
    apply binary_round_exact; try exact B; left;
    (split; [ lia | ]); rewrite HM; f_equal; f_equal; lia.
Qed.

(** The product of two integers is exact when it has at most [prec]
    bits. *)
Lemma SFmul_canon (a b : Z) :
  a <> 0 -> b <> 0 -> Z.abs (a * b) < 2 ^ prec ->
  SFmul prec emax (canon prec a) (canon prec b) = canon prec (a * b).
Proof using prec_pos prec_emax.
  intros Ha Hb Hab.
  assert (Hnz : a * b <> 0) by nia.
  assert (Pp : 0 < 2 ^ prec) by (apply Z.pow_pos_nonneg; lia).
  assert (Sa : Z.abs a < 2 ^ prec) by (rewrite Z.abs_mul in Hab; nia).
  assert (Sb : Z.abs b < 2 ^ prec) by (rewrite Z.abs_mul in Hab; nia).
  rewrite (canon_finite a Ha), (canon_finite b Hb), (canon_finite (a * b) Hnz).
  cbn [SFmul].
  pose proof (canon_mantissa a Ha Sa) as Ma.
  pose proof (canon_mantissa b Hb Sb) as Mb.
  pose proof (canon_mantissa (a * b) Hnz Hab) as Mab.
  pose proof (canon_bounded (a * b) Hnz Hab) as B.
  pose proof (Zdigits2_mul a b Ha Hb) as D.
  pose proof (Zdigits2_le a prec Ha (Z.lt_le_incl _ _ prec_pos) Sa).
  pose proof (Zdigits2_le b prec Hb (Z.lt_le_incl _ _ prec_pos) Sb).
  pose proof (Zdigits2_le (a * b) prec Hnz (Z.lt_le_incl _ _ prec_pos) Hab).
  set (da := Zdigits2 a) in *. set (db := Zdigits2 b) in *.
  set (dab := Zdigits2 (a * b)) in *.
  replace (xorb (a <? 0) (b <? 0)) with (a * b <? 0)
    by (destruct (Z.ltb_spec a 0), (Z.ltb_spec b 0), (Z.ltb_spec (a * b) 0);
        try reflexivity; nia).
  replace (da - prec + (db - prec))
    with (dab - prec - (dab - da - db + prec)) by lia.
  apply binary_round_aux_exact; [ exact B | lia | ].
  rewrite Pos2Z.inj_mul, Ma, Mb, Mab, Z.abs_mul.
  assert (E : 2 ^ (prec - da) * 2 ^ (prec - db)
              = 2 ^ (prec - dab) * 2 ^ (dab - da - db + prec))
    by (rewrite <- !Z.pow_add_r by lia; f_equal; lia).
  nia.
Qed.

(** The quotient of two integers is exact when the division is. *)
Lemma SFdiv_canon (a b c : Z) :
  a = b * c -> a <> 0 -> Z.abs a < 2 ^ prec ->
  SFdiv prec emax (canon prec a) (canon prec b) = canon prec c.
Proof using prec_pos prec_emax.
  intros Habc Ha Sa.
  assert (Hb : b <> 0) by nia. assert (Hc : c <> 0) by nia.
  assert (Sb : Z.abs b < 2 ^ prec) by (rewrite Habc, Z.abs_mul in Sa; nia).
  assert (Sc : Z.abs c < 2 ^ prec) by (rewrite Habc, Z.abs_mul in Sa; nia).
  rewrite (canon_finite a Ha), (canon_finite b Hb), (canon_finite c Hc).
  pose proof (canon_mantissa a Ha Sa) as Ma.
  pose proof (canon_mantissa b Hb Sb) as Mb.
  pose proof (canon_mantissa c Hc Sc) as Mc.
  pose proof (canon_digits a Ha Sa) as Da.
  pose proof (canon_digits b Hb Sb) as Db.
  pose proof (canon_bounded c Hc Sc) as B.
  pose proof (Zdigits2_le a prec Ha (Z.lt_le_incl _ _ prec_pos) Sa).
  pose proof (Zdigits2_le b prec Hb (Z.lt_le_incl _ _ prec_pos) Sb).
  pose proof (Zdigits2_le c prec Hc (Z.lt_le_incl _ _ prec_pos) Sc).
  pose proof (Zdigits2_pos a Ha). pose proof (Zdigits2_pos b Hb).
  pose proof (Zdigits2_pos c Hc).
  assert (Dabc : Zdigits2 a <= Zdigits2 b + Zdigits2 c).
  { pose proof (Zdigits2_bounds a Ha) as [La _].
    pose proof (Zdigits2_bounds b Hb) as [_ Ub].
    pose proof (Zdigits2_bounds c Hc) as [_ Uc].
    destruct (Z.le_gt_cases (Zdigits2 a) (Zdigits2 b + Zdigits2 c))
      as [ | G]; [ assumption | exfalso ].
    assert (P : 2 ^ (Zdigits2 b + Zdigits2 c) <= 2 ^ (Zdigits2 a - 1))
      by (apply Z.pow_le_mono_r; lia).
    rewrite Z.pow_add_r in P by lia.
    assert (Eabs : Z.abs a = Z.abs b * Z.abs c)
      by (rewrite Habc; apply Z.abs_mul).
    nia. }
  set (da := Zdigits2 a) in *. set (db := Zdigits2 b) in *.
  set (dc := Zdigits2 c) in *.
  set (ma := Z.to_pos (Z.abs a * 2 ^ (prec - da))) in *.
  set (mb := Z.to_pos (Z.abs b * 2 ^ (prec - db))) in *.
  set (mc := Z.to_pos (Z.abs c * 2 ^ (prec - dc))) in *.
  cbn [SFdiv]. unfold SFdiv_core_binary. cbn [Zdigits2]. rewrite Da, Db.
  replace (Z.min (fexp prec emax (prec + (da - prec) - (prec + (db - prec))))
             (da - prec - (db - prec)))
    with (da - db - prec) by (unfold fexp, emin; lia).
  replace (da - prec - (db - prec) - (da - db - prec)) with prec by lia.
  assert (Q : Z.pos ma * 2 ^ prec
              = Z.pos mb * (Z.pos mc * 2 ^ (dc - da + db))).
  { rewrite Ma, Mb, Mc.
    assert (Eabs : Z.abs a = Z.abs b * Z.abs c)
      by (rewrite Habc; apply Z.abs_mul).
    rewrite Eabs.
    assert (E : 2 ^ (prec - da) * 2 ^ prec
                = 2 ^ (prec - db) * (2 ^ (prec - dc) * 2 ^ (dc - da + db)))
      by (rewrite <- !Z.pow_add_r by lia; f_equal; lia).
    nia. }
  assert (Pk : 0 < 2 ^ (dc - da + db)) by (apply Z.pow_pos_nonneg; lia).
  replace (match prec with
           | 0 => Z.pos ma
           | Z.pos _ => Z.shiftl (Z.pos ma) prec
           | Z.neg _ => 0
           end) with (Z.pos ma * 2 ^ prec)
    by (rewrite <- Z.shiftl_mul_pow2 by lia;
        destruct prec; [ lia | reflexivity | lia ]).
  pose proof (Z.div_eucl_eq (Z.pos ma * 2 ^ prec) (Z.pos mb) ltac:(lia)) as DE.
  pose proof (Z.mod_pos_bound (Z.pos ma * 2 ^ prec) (Z.pos mb) ltac:(lia)) as MB.
  unfold Z.modulo in MB.
  destruct (Z.div_eucl (Z.pos ma * 2 ^ prec) (Z.pos mb)) as [q r].
  destruct (Z.div_mod_unique (Z.pos mb) q (Z.pos mc * 2 ^ (dc - da + db)) r 0)
    as [-> ->]; [ left; exact MB | left; lia | lia | ].
  rewrite new_location_0.
  replace (xorb (a <? 0) (b <? 0)) with (c <? 0)
    by (destruct (Z.ltb_spec a 0), (Z.ltb_spec b 0), (Z.ltb_spec c 0);
        try reflexivity; nia).
  replace (da - db - prec) with (dc - prec - (dc - da + db)) by lia.
  destruct (Z.pos mc * 2 ^ (dc - da + db)) as [ | M | M] eqn:EM;
    [ lia | | lia ].
  apply binary_round_aux_exact; [ exact B | lia | lia ].
Qed.

(** A non-zero integer of fewer than [width] bits never rounds to
    zero, to an infinity or to NaN. *)
Lemma binary_normalize_finite (z width : Z) :
  z <> 0 -> 0 <= width -> Z.abs z < 2 ^ width -> width + 1 <= emax ->
  exists m e,
    binary_normalize prec emax z 0 false = S754_finite (z <? 0) m e.
Proof using prec_pos prec_emax.
  intros Hz Hw Hlt Hmax.
  pose proof (Zdigits2_le z width Hz Hw Hlt) as D.
  pose proof (Zdigits2_pos z Hz) as P.
  destruct z as [ | p | p]; [ congruence | | ]; cbn [binary_normalize];
    cbn [Zdigits2] in D, P;
    apply binary_round_finite; unfold emin; lia.
Qed.
End Canon.

(** Narrowing a small integer from one precision to a shorter one. *)
Lemma binary_round_narrow (p1 p2 emax2 z : Z) :
  0 < p2 -> p2 <= p1 -> p2 + 2 <= emax2 ->
  z <> 0 -> Z.abs z < 2 ^ p2 ->
  binary_round p2 emax2 (z <? 0)
    (Z.to_pos (Z.abs z * 2 ^ (p1 - Zdigits2 z))) (Zdigits2 z - p1)
  = canon p2 z.
Proof.
  intros Hp2 Hp Hpe Hz Hlt.
  assert (Hlt1 : Z.abs z < 2 ^ p1).
  { apply Z.lt_le_trans with (1 := Hlt). apply Z.pow_le_mono_r; lia. }
  rewrite (canon_finite p2 z Hz).
  pose proof (canon_mantissa p1 ltac:(lia) z Hz Hlt1) as M1.
  pose proof (canon_mantissa p2 Hp2 z Hz Hlt) as M2.
  pose proof (canon_bounded p2 emax2 Hp2 Hpe z Hz Hlt) as B.
  pose proof (Zdigits2_le z p2 Hz (Z.lt_le_incl _ _ Hp2) Hlt).
  apply binary_round_exact; [ exact B | right ]. split; [ lia | ].
  rewrite M1, M2, <- Z.mul_assoc, <- Z.pow_add_r by lia.
  f_equal. f_equal. lia.
Qed.

(** ** Normal numbers *)

Section Normal.
Variables prec emax : Z.
Hypothesis prec_pos : 0 < prec.

Lemma digits2_pos_mul (a b : positive) :
Z.pos (digits2_pos a) + Z.pos (digits2_pos b) - 1
<= Z.pos (digits2_pos (a * b))
<= Z.pos (digits2_pos a) + Z.pos (digits2_pos b).
Proof using Type.
pose proof (Zdigits2_mul (Z.pos a) (Z.pos b) ltac:(lia) ltac:(lia)) as L.
cbn [Zdigits2 Z.mul] in L. split; [ exact L | ].
pose proof (digits2_pos_bounds a) as [_ Ha].
pose proof (digits2_pos_bounds b) as [_ Hb].
apply (Zdigits2_le (Z.pos (a * b))); [ lia | lia | ].
cbn [Z.abs]. rewrite Pos2Z.inj_mul, Z.pow_add_r by lia. nia.
Qed.

(** The product of two normal numbers, away from underflow and
  overflow. *)
Lemma SFmul_normal (x y : spec_float) (sx sy : bool) (lx hx ly hy : Z) :
normal prec x sx lx hx -> normal prec y sy ly hy ->
emin prec emax <= lx + ly + prec - 1 ->
hx + hy + prec + 1 <= emax - prec ->
normal prec (SFmul prec emax x y) (xorb sx sy)
  (lx + ly + prec - 1) (hx + hy + prec + 1).
Proof using prec_pos.
intros (mx & ex & -> & Dx & Ex) (my & ey & -> & Dy & Ey) Lo Hi.
cbn [SFmul].
pose proof (digits2_pos_mul mx my) as D. rewrite Dx, Dy in D.
destruct (binary_round_aux_normal prec emax (xorb sx sy) (mx * my)
            (ex + ey) loc_Exact) as (m & e & E & Dm & Em); try lia.
exists m, e. repeat split; [ exact E | exact Dm | lia | lia ].
Qed.

(** The quotient of two normal numbers, away from underflow and
  overflow. *)
Lemma SFdiv_normal (x y : spec_float) (sx sy : bool) (lx hx ly hy : Z) :
normal prec x sx lx hx -> normal prec y sy ly hy ->
emin prec emax <= lx - hy - prec ->
hx - ly - prec + 2 <= emax - prec ->
normal prec (SFdiv prec emax x y) (xorb sx sy)
  (lx - hy - prec) (hx - ly - prec + 2).
Proof using prec_pos.
intros (mx & ex & -> & Dx & Ex) (my & ey & -> & Dy & Ey) Lo Hi.
cbn [SFdiv]. unfold SFdiv_core_binary. cbn [Zdigits2]. rewrite Dx, Dy.
replace (Z.min (fexp prec emax (prec + ex - (prec + ey))) (ex - ey))
  with (ex - ey - prec) by (unfold fexp; lia).
replace (ex - ey - (ex - ey - prec)) with prec by lia.
replace (match prec with
         | 0 => Z.pos mx
         | Z.pos _ => Z.shiftl (Z.pos mx) prec
         | Z.neg _ => 0
         end) with (Z.pos mx * 2 ^ prec)
  by (rewrite <- Z.shiftl_mul_pow2 by lia;
      destruct prec; [ lia | reflexivity | lia ]).
pose proof (digits2_pos_bounds mx) as [Lx Ux]. rewrite Dx in Lx, Ux.
pose proof (digits2_pos_bounds my) as [Ly Uy]. rewrite Dy in Ly, Uy.
assert (P1 : 0 < 2 ^ (prec - 1)) by (apply Z.pow_pos_nonneg; lia).
assert (P2 : 2 ^ prec = 2 * 2 ^ (prec - 1)).
{ rewrite <- Z.pow_succ_r by lia. f_equal. lia. }
pose proof (Z.div_eucl_eq (Z.pos mx * 2 ^ prec) (Z.pos my) ltac:(lia)) as DE.
pose proof (Z.mod_pos_bound (Z.pos mx * 2 ^ prec) (Z.pos my) ltac:(lia)) as MB.
unfold Z.modulo in MB.
destruct (Z.div_eucl (Z.pos mx * 2 ^ prec) (Z.pos my)) as [q r].
assert (Q : 2 ^ (prec - 1) <= q < 2 * 2 ^ prec) by nia.
destruct q as [ | q | q]; [ lia | | lia ].
assert (Dq : prec <= Z.pos (digits2_pos q) <= prec + 1).
{ pose proof (digits2_pos_bounds q) as [Lq Uq]. split.
  - destruct (Z.le_gt_cases prec (Z.pos (digits2_pos q))) as [ | G];
      [ assumption | exfalso ].
    assert (2 ^ Z.pos (digits2_pos q) <= 2 ^ (prec - 1))
      by (apply Z.pow_le_mono_r; lia).
    lia.
  - apply (Zdigits2_le (Z.pos q)); [ lia | lia | ].
    rewrite Z.pow_add_r by lia. cbn [Z.abs]. change (2 ^ 1) with 2. lia. }
destruct (binary_round_aux_normal prec emax (xorb sx sy) q
            (ex - ey - prec) (new_location (Z.pos my) r))
  as (m & e & E & Dm & Em); try lia.
exists m, e. repeat split; [ exact E | exact Dm | lia | lia ].
Qed.
End Normal.

(** The integer part of a normal number below 2^63 fits a [long long]. *)
Lemma ll_of_float_normal (prec : Z) (x : spec_float) (s : bool) (lo hi : Z) :
  0 < prec -> normal prec x s lo hi -> prec + hi <= 63 ->
  exists t, ll_of_float x = Some t /\ Z.abs t < 2 ^ 63.
Proof.
  intros Hp (m & e & -> & Dm & Ee) Hhi.
  pose proof (digits2_pos_bounds m) as [_ Um]. rewrite Dm in Um.
  unfold ll_of_float. cbn [trunc].
  set (v := if 0 <=? e then Z.pos m * 2 ^ e else Z.pos m / 2 ^ (- e)).
  assert (V : 0 <= v < 2 ^ 63).
  { subst v. destruct (Z.leb_spec 0 e) as [Pe | Ne].
    - assert (0 < 2 ^ e) by (apply Z.pow_pos_nonneg; lia).
      assert (2 ^ prec * 2 ^ e <= 2 ^ 63).
      { rewrite <- Z.pow_add_r by lia. apply Z.pow_le_mono_r; lia. }
      nia.
    - assert (0 < 2 ^ (- e)) by (apply Z.pow_pos_nonneg; lia).
      split; [ apply Z.div_pos; lia | ].
      apply Z.div_lt_upper_bound; [ lia | ].
      apply Z.lt_le_trans with (2 ^ prec); [ lia | ].
      rewrite <- Z.pow_add_r by lia. apply Z.pow_le_mono_r; lia. }
  exists (cond_Zopp s v).
  assert (A : Z.abs (cond_Zopp s v) < 2 ^ 63)
    by (destruct s; cbn [cond_Zopp]; lia).
  split; [ | exact A ].
  replace ((INT64_MIN <=? cond_Zopp s v) && (cond_Zopp s v <=? INT64_MAX))
    with true; [ reflexivity | ].
  symmetry. unfold INT64_MIN, INT64_MAX.
  apply andb_true_intro; split; apply Z.leb_le; lia.
Qed.

End FloatFacts.
(* ================================================================== *)
(** * Time stamps: proofs *)

Import Float FloatFacts.

(** ** The two formats of the source *)

Lemma format64 : 0 < prec64 /\ prec64 + 2 <= emax64.
Proof. unfold prec64, emax64. lia. Qed.

Lemma format32 : 0 < prec32 /\ prec32 + 2 <= emax32.
Proof. unfold prec32, emax32. lia. Qed.

Lemma wrap64_id (z : Z) : in_int64 z -> wrap64 z = z.
Proof.
  unfold in_int64, INT64_MIN, INT64_MAX, wrap64. intros H.
  rewrite Z.mod_small; lia.
Qed.

Lemma wrap64_range (z : Z) : in_int64 (wrap64 z).
Proof.
  unfold in_int64, INT64_MIN, INT64_MAX, wrap64.
  pose proof (Z.mod_pos_bound (z + 2 ^ 63) (2 ^ 64) ltac:(lia)). lia.
Qed.

Lemma double_of_ll_finite (z : Z) :
  z <> 0 -> in_int64 z ->
  exists m e, double_of_ll z = S754_finite (z <? 0) m e.
Proof.
  intros Hz Hr. destruct format64 as [Hp He].
  apply (binary_normalize_finite prec64 emax64 Hp He z 64);
    [ exact Hz | lia | | unfold emax64; lia ].
  unfold in_int64, INT64_MIN, INT64_MAX in Hr. lia.
Qed.

Lemma double_of_ll_exact (z : Z) :
  Z.abs z < 2 ^ 53 -> double_of_ll z = canon prec64 z.
Proof.
  intros Hz. destruct format64 as [Hp He].
  apply (binary_normalize_canon prec64 emax64 Hp He). exact Hz.
Qed.

Lemma double_of_float_finite (i : spec_float) :
  valid_binary prec32 emax32 i = true -> is_finite i = true ->
  is_finite (double_of_float i) = true.
Proof.
  intros V F.
  destruct i as [s | s | | s m e]; try discriminate; [ reflexivity | ].
  cbn [valid_binary] in V. unfold bounded, canonical_mantissa in V.
  apply andb_prop in V as [C E]. apply Z.eqb_eq in C. apply Z.leb_le in E.
  unfold fexp, emin, prec32, emax32 in C, E.
  destruct (binary_round_finite prec64 emax64 s m e) as (m' & e' & R);
    unfold emin, prec64, emax64; try lia.
  cbn [double_of_float]. unfold prec64, emax64 in *. rewrite R. reflexivity.
Qed.

Lemma ll_of_float_canon (prec z : Z) :
  0 < prec -> Z.abs z < 2 ^ prec -> in_int64 z ->
  ll_of_float (canon prec z) = Some z.
Proof.
  intros Hp Hz Hr. unfold ll_of_float.
  rewrite (trunc_canon prec Hp z Hz).
  unfold in_int64 in Hr.
  replace ((INT64_MIN <=? z) && (z <=? INT64_MAX)) with true;
    [ reflexivity | ].
  symmetry. apply andb_true_intro; split; apply Z.leb_le; lia.
Qed.

Lemma ll_of_float_zero (s : bool) : ll_of_float (S754_zero s) = Some 0.
Proof. reflexivity. Qed.

Lemma dmul_zero_l (s : bool) (y : spec_float) :
  is_finite y = true -> exists s', dmul (S754_zero s) y = S754_zero s'.
Proof.
  destruct y; try discriminate; intros _; cbn; eauto.
Qed.

Lemma dmul_zero_r (x : spec_float) (s : bool) :
  is_finite x = true -> exists s', dmul x (S754_zero s) = S754_zero s'.
Proof.
  destruct x; try discriminate; intros _; cbn; eauto.
Qed.

Lemma double_of_ll_is_finite (z : Z) :
  in_int64 z -> is_finite (double_of_ll z) = true.
Proof.
  intros Hz. destruct (Z.eq_dec z 0) as [-> | Hnz]; [ reflexivity | ].
  destruct (double_of_ll_finite z Hnz Hz) as (m & e & ->). reflexivity.
Qed.

(** ** Sizes of the intermediate values *)

Lemma double_of_ll_normal (z : Z) :
  z <> 0 -> in_int64 z ->
  normal prec64 (double_of_ll z) (z <? 0) (Zdigits2 z - 53) (Zdigits2 z - 52).
Proof.
  intros Hz Hr.
  assert (D : Zdigits2 z <= 64).
  { apply Zdigits2_le; [ exact Hz | lia | ].
    unfold in_int64, INT64_MIN, INT64_MAX in Hr. lia. }
  pose proof (Zdigits2_pos z Hz) as P.
  unfold double_of_ll.
  destruct z as [ | p | p]; [ congruence | | ];
    cbn [binary_normalize Z.ltb Z.compare];
    cbn [Zdigits2] in D, P |- *;
    replace (Z.pos (digits2_pos p) - 52)
      with (Z.pos (digits2_pos p) + 0 - prec64 + 1) by (unfold prec64; lia);
    replace (Z.pos (digits2_pos p) - 53)
      with (Z.pos (digits2_pos p) + 0 - prec64) by (unfold prec64; lia);
    apply binary_round_normal; unfold emin, prec64, emax64; lia.
Qed.

Lemma lit_1e9_normal : normal prec64 lit_1e9 false (-23) (-23).
Proof.
  exists 8388608000000000%positive, (-23). repeat split; lia.
Qed.

Lemma float_of_double_normal (x : spec_float) (s : bool) (lo hi : Z) :
  normal prec64 x s lo hi -> -178 <= lo -> hi <= 74 ->
  normal prec32 (float_of_double x) s (lo + 29) (hi + 30).
Proof.
  intros (m & e & -> & Dm & Ee) Lo Hi. cbn [float_of_double].
  destruct (binary_round_normal prec32 emax32 s m e) as (m' & e' & E & D & B);
    rewrite ?Dm; unfold emin, prec32, prec64, emax32 in *; try lia.
  exists m', e'. repeat split; [ exact E | exact D | lia | lia ].
Qed.

(** The local [floatValue] is a normal [float] whose exponent follows
    the sizes of the tick difference and of the frequency. *)
Lemma floatValue_normal (self : CSystemUtilsWindows)
  (before after : SystemTimeStamp) :
  let d := counterValue after - counterValue before in
  let q := m_counterFrequency self in
  in_int64 d -> d <> 0 -> in_int64 q -> q <> 0 ->
  normal prec32 (floatValue self before after) (xorb (d <? 0) (q <? 0))
    (Zdigits2 d - Zdigits2 q + 4) (Zdigits2 d - Zdigits2 q + 11).
Proof.
  intros d q Hd Hd0 Hq Hq0. unfold floatValue. fold d q.
  rewrite (wrap64_id d Hd).
  pose proof (double_of_ll_normal d Hd0 Hd) as X.
  pose proof (double_of_ll_normal q Hq0 Hq) as Y.
  assert (Dd : 0 < Zdigits2 d <= 64).
  { split; [ apply Zdigits2_pos; exact Hd0 | ].
    apply Zdigits2_le; [ exact Hd0 | lia | ].
    unfold in_int64, INT64_MIN, INT64_MAX in Hd. lia. }
  assert (Dq : 0 < Zdigits2 q <= 64).
  { split; [ apply Zdigits2_pos; exact Hq0 | ].
    apply Zdigits2_le; [ exact Hq0 | lia | ].
    unfold in_int64, INT64_MIN, INT64_MAX in Hq. lia. }
  destruct format64 as [Hp He].
  pose proof (SFdiv_normal prec64 emax64 Hp _ _ _ _ _ _ _ _ lit_1e9_normal Y)
    as K.
  unfold emin, prec64, emax64 in K. cbn [xorb] in K.
  specialize (K ltac:(lia) ltac:(lia)).
  pose proof (SFmul_normal prec64 emax64 Hp _ _ _ _ _ _ _ _ X K) as P.
  unfold emin, prec64, emax64 in P.
  specialize (P ltac:(lia) ltac:(lia)).
  pose proof (float_of_double_normal _ _ _ _ P ltac:(lia) ltac:(lia)) as F.
  destruct F as (m & e & E & D & B).
  exists m, e. repeat split; [ exact E | exact D | lia | lia ].
Qed.

(** Stamps less than 2^28 seconds apart have a difference in
    nanoseconds that a [long long] holds. *)
Lemma TimeStampExactDiff_defined (self : CSystemUtilsWindows)
  (before after : SystemTimeStamp) :
  let d := counterValue after - counterValue before in
  let q := m_counterFrequency self in
  in_int64 d -> in_int64 q -> q <> 0 -> Z.abs d < 2 ^ 28 * Z.abs q ->
  exists t, TimeStampExactDiff self before after = Some t /\ Z.abs t < 2 ^ 63.
Proof.
  intros d q Hd Hq Hq0 Hlt. unfold TimeStampExactDiff.
  destruct (Z.eq_dec d 0) as [E0 | Hd0].
  - (* equal stamps *)
    unfold floatValue. fold d q. rewrite E0. change (wrap64 0) with 0.
    change (double_of_ll 0) with (S754_zero false).
    destruct format64 as [Hp He].
    pose proof (SFdiv_normal prec64 emax64 Hp _ _ _ _ _ _ _ _ lit_1e9_normal
                  (double_of_ll_normal q Hq0 Hq)) as K.
    assert (Dq : 0 < Zdigits2 q <= 64).
    { split; [ apply Zdigits2_pos; exact Hq0 | ].
      apply Zdigits2_le; [ exact Hq0 | lia | ].
      unfold in_int64, INT64_MIN, INT64_MAX in Hq. lia. }
    unfold ddiv. unfold emin, prec64, emax64 in *.
    destruct (K ltac:(lia) ltac:(lia)) as (m & e & -> & _).
    exists 0. split; [ reflexivity | lia ].
  - destruct format32 as [Hp' _].
    apply (ll_of_float_normal prec32 _ _ _ _ Hp'
             (floatValue_normal self before after Hd Hd0 Hq Hq0)).
    fold d q.
    assert (Zdigits2 d <= 28 + Zdigits2 q).
    { pose proof (Zdigits2_bounds q Hq0) as [_ U].
      pose proof (Zdigits2_pos q Hq0).
      apply Zdigits2_le; [ exact Hd0 | lia | ].
      rewrite Z.pow_add_r by lia. lia. }
    unfold prec32. lia.
Qed.

(** ** Rounding commutes with negation *)

Section Opp.
Variables prec emax : Z.

Lemma binary_round_aux_opp (s : bool) (m e : Z) (l : location) :
  binary_round_aux prec emax (negb s) m e l
  = SFopp (binary_round_aux prec emax s m e l).
Proof.
  unfold binary_round_aux.
  destruct (shr_fexp prec emax m e l) as [mrs' e'].
  destruct (shr_fexp prec emax _ e' loc_Exact) as [mrs'' e''].
  destruct (shr_m mrs''); [ reflexivity | | reflexivity ].
  destruct (e'' <=? emax - prec); reflexivity.
Qed.

Lemma binary_round_opp (s : bool) (m : positive) (e : Z) :
  binary_round prec emax (negb s) m e
  = SFopp (binary_round prec emax s m e).
Proof.
  unfold binary_round.
  destruct (shl_align m e _) as [mz ez]. apply binary_round_aux_opp.
Qed.

Lemma binary_normalize_opp (z : Z) :
  z <> 0 ->
  binary_normalize prec emax (- z) 0 false
  = SFopp (binary_normalize prec emax z 0 false).
Proof.
  destruct z as [ | p | p]; [ congruence | | ]; intros _;
    cbn [Z.opp binary_normalize].
  - apply (binary_round_opp false).
  - rewrite <- (binary_round_opp true). reflexivity.
Qed.

Lemma SFmul_opp_l (x y : spec_float) :
  SFmul prec emax (SFopp x) y = SFopp (SFmul prec emax x y).
Proof.
  destruct x as [sx | sx | | sx mx ex], y as [sy | sy | | sy my ey];
    cbn [SFopp SFmul]; rewrite <- ?negb_xorb_l; try reflexivity.
  apply binary_round_aux_opp.
Qed.
End Opp.

Lemma float_of_double_opp (x : spec_float) :
  float_of_double (SFopp x) = SFopp (float_of_double x).
Proof.
  destruct x; cbn [SFopp float_of_double]; try reflexivity.
  apply binary_round_opp.
Qed.

Lemma trunc_opp (x : spec_float) (z : Z) :
  trunc x = Some z -> trunc (SFopp x) = Some (- z).
Proof.
  destruct x as [s | s | | s m e]; cbn [SFopp trunc]; try discriminate.
  - intros [= <-]. reflexivity.
  - generalize (if 0 <=? e then Z.pos m * 2 ^ e else Z.pos m / 2 ^ (- e)).
    intros v [= <-]. f_equal. destruct s; cbn [negb cond_Zopp]; lia.
Qed.

Lemma ll_of_float_opp (x : spec_float) (z : Z) :
  ll_of_float x = Some z -> z <> INT64_MIN ->
  ll_of_float (SFopp x) = Some (- z).
Proof.
  unfold ll_of_float. destruct (trunc x) as [t | ] eqn:T; [ | discriminate ].
  destruct (Z.leb_spec INT64_MIN t), (Z.leb_spec t INT64_MAX);
    cbn [andb]; try discriminate.
  intros [= <-] Hmin. rewrite (trunc_opp x t T).
  unfold INT64_MIN, INT64_MAX in *.
  replace ((- 2 ^ 63 <=? - t) && (- t <=? 2 ^ 63 - 1)) with true;
    [ reflexivity | ].
  symmetry. apply andb_true_intro; split; apply Z.leb_le; lia.
Qed.

(** The local [floatValue] changes sign when the stamps are swapped. *)
Lemma floatValue_swap (self : CSystemUtilsWindows) (a b : SystemTimeStamp) :
  valid_tick a -> valid_tick b -> counterValue a <> counterValue b ->
  floatValue self b a = SFopp (floatValue self a b).
Proof.
  unfold valid_tick, INT64_MAX. intros Ha Hb Hne. unfold floatValue.
  rewrite !wrap64_id by (unfold in_int64, INT64_MIN, INT64_MAX; lia).
  replace (counterValue a - counterValue b)
    with (- (counterValue b - counterValue a)) by lia.
  unfold double_of_ll at 1. rewrite binary_normalize_opp by lia.
  fold (double_of_ll (counterValue b - counterValue a)).
  unfold dmul. rewrite SFmul_opp_l. apply float_of_double_opp.
Qed.

Lemma Init_Some (q : Z) (self : CSystemUtilsWindows) :
  Init q = Some self -> q <> 0 /\ m_counterFrequency self = q.
Proof.
  unfold Init. destruct (Z.eqb_spec q 0) as [-> | Hq]; [ discriminate | ].
  intros [= <-]. auto.
Qed.

(** C5.  [Init] returns an adapter only for a non-zero frequency: it
    aborts exactly when the system reports zero, and after a normal
    return the stored frequency is the reported one, is not zero, and
    converts to a finite non-zero [double], the divisor of every later
    [TimeStampExactDiff]. *)
Theorem Init_frequency_nonzero (q : Z) (Hq : in_int64 q) :
  match Init q with
  | None => q = 0
  | Some self =>
      q <> 0 /\ m_counterFrequency self = q
      /\ exists m e,
           double_of_ll (m_counterFrequency self) = S754_finite (q <? 0) m e
  end.
Proof.
  destruct (Init q) as [self | ] eqn:E.
  - apply Init_Some in E as [Hnz ->].
    repeat split; try assumption. apply double_of_ll_finite; assumption.
  - unfold Init in E. destruct (Z.eqb_spec q 0); [ assumption | discriminate ].
Qed.

Lemma Init_frequency_nonzero_witness :
  in_int64 10000000
  /\ match Init 10000000 with
     | None => 10000000 = 0
     | Some self =>
         10000000 <> 0 /\ m_counterFrequency self = 10000000
         /\ exists m e,
              double_of_ll (m_counterFrequency self)
              = S754_finite (10000000 <? 0) m e
     end.
Proof.
  assert (H : in_int64 10000000)
    by (unfold in_int64, INT64_MIN, INT64_MAX; lia).
  split; [ exact H | exact (Init_frequency_nonzero 10000000 H) ].
Defined.

(** C1.  The code does not return the quotient that the claim states:
    at 10 MHz, 671089 ticks are 67108900 ns, and [TimeStampExactDiff]
    returns 67108896.  The product of the two [double]s is the exact
    67108900, and converts to it; it loses its low bits in the [float]
    variable in which the code stores it before the cast. *)
Theorem TimeStampExactDiff_narrowed :
  Init 10000000 = Some {| m_counterFrequency := 10000000 |}
  /\ TimeStampExactDiff {| m_counterFrequency := 10000000 |}
       {| counterValue := 0 |} {| counterValue := 671089 |} = Some 67108896
  /\ TimeStampExactDiff_spec 10000000
       {| counterValue := 0 |} {| counterValue := 671089 |} = 67108900
  /\ ll_of_float
       (doubleValue {| m_counterFrequency := 10000000 |}
          {| counterValue := 0 |} {| counterValue := 671089 |})
     = Some 67108900.
Proof. vm_compute. auto. Qed.

(** The same at a frequency that does not divide 10^9: at 3 GHz,
    29999999 ticks are 9999999.67 ns; the [double] product truncates to
    9999999, and the [float] nearest to it is 10000000. *)
Lemma TimeStampExactDiff_rounds_up :
  TimeStampExactDiff {| m_counterFrequency := 3000000000 |}
    {| counterValue := 0 |} {| counterValue := 29999999 |} = Some 10000000
  /\ TimeStampExactDiff_spec 3000000000
       {| counterValue := 0 |} {| counterValue := 29999999 |} = 9999999
  /\ ll_of_float
       (doubleValue {| m_counterFrequency := 3000000000 |}
          {| counterValue := 0 |} {| counterValue := 29999999 |})
     = Some 9999999.
Proof. vm_compute. auto. Qed.

(** The narrowing does no harm below 2^24: given the non-zero
    frequency [q] stored by [Init], [TimeStampExactDiff before after] is
    exactly [(after - before) * 1e9 / q] whenever [q] divides 10^9 and
    that quotient is below 2^24 in magnitude. *)
Lemma TimeStampExactDiff_exact (q : Z) (self : CSystemUtilsWindows)
  (before after : SystemTimeStamp) :
  Init q = Some self ->
  (q | 10 ^ 9) ->
  Z.abs ((counterValue after - counterValue before) * (10 ^ 9 / q)) < 2 ^ 24 ->
  TimeStampExactDiff self before after
  = Some (TimeStampExactDiff_spec q before after).
Proof.
  intros HI [c Hc] Hsmall. apply Init_Some in HI as [Hq Hf].
  unfold TimeStampExactDiff, floatValue, TimeStampExactDiff_spec.
  rewrite Hf. set (d := counterValue after - counterValue before) in *.
  assert (Ec : 10 ^ 9 / q = c) by (rewrite Hc; apply Z.div_mul; exact Hq).
  rewrite Ec in Hsmall.
  assert (Hcnz : c <> 0) by (intros ->; simpl in Hc; lia).
  assert (Hqabs : Z.abs q <= 10 ^ 9).
  { assert (H : Z.abs (10 ^ 9) = Z.abs c * Z.abs q)
      by (rewrite Hc; apply Z.abs_mul).
    change (Z.abs (10 ^ 9)) with (10 ^ 9) in H. nia. }
  assert (Hd : Z.abs d < 2 ^ 24) by (rewrite Z.abs_mul in Hsmall; nia).
  assert (Hspec : Z.quot (d * 10 ^ 9) q = d * c).
  { rewrite Hc, Z.mul_assoc. apply Z.quot_mul. exact Hq. }
  rewrite Hspec.
  rewrite wrap64_id by (unfold in_int64, INT64_MIN, INT64_MAX; lia).
  destruct format64 as [Hp He]. destruct format32 as [Hp' He'].
  (* the quotient 1e9 / frequency is exact *)
  assert (K : ddiv lit_1e9 (double_of_ll q) = canon prec64 c).
  { rewrite double_of_ll_exact by lia.
    change lit_1e9 with (canon prec64 (10 ^ 9)). unfold ddiv.
    apply (SFdiv_canon prec64 emax64 Hp He (10 ^ 9) q c);
      [ lia | lia | unfold prec64; simpl; lia ]. }
  rewrite K, double_of_ll_exact by lia.
  destruct (Z.eq_dec d 0) as [-> | Hd0].
  - rewrite (canon_finite prec64 c Hcnz). reflexivity.
  - unfold dmul.
    rewrite (SFmul_canon prec64 emax64 Hp He d c Hd0 Hcnz)
      by (unfold prec64; lia).
    rewrite (canon_finite prec64 (d * c)) by nia. cbn [float_of_double].
    rewrite (binary_round_narrow prec64 prec32 emax32 (d * c));
      [ | exact Hp' | unfold prec32, prec64; lia | exact He' | nia
        | exact Hsmall ].
    apply ll_of_float_canon;
      [ exact Hp' | exact Hsmall
      | unfold in_int64, INT64_MIN, INT64_MAX; lia ].
Qed.

Lemma TimeStampExactDiff_exact_witness :
  TimeStampExactDiff {| m_counterFrequency := 10000000 |}
    {| counterValue := 100 |} {| counterValue := 350 |}
  = Some (TimeStampExactDiff_spec 10000000
            {| counterValue := 100 |} {| counterValue := 350 |}).
Proof.
  apply (TimeStampExactDiff_exact 10000000).
  - reflexivity.
  - exists 100. reflexivity.
  - vm_compute. reflexivity.
Defined.

Lemma InterpolateTimeStamp_0 (a b : SystemTimeStamp) :
  in_int64 (counterValue a) ->
  InterpolateTimeStamp a b lit_0 = Some a.
Proof.
  intros Ha. unfold InterpolateTimeStamp.
  destruct (dmul_zero_r
              (double_of_ll (wrap64 (counterValue b - counterValue a))) false)
    as [s' E].
  { apply double_of_ll_is_finite, wrap64_range. }
  change (double_of_float lit_0) with (S754_zero false). rewrite E.
  rewrite ll_of_float_zero, Z.add_0_r, wrap64_id by assumption.
  destruct a; reflexivity.
Qed.

Lemma InterpolateTimeStamp_1 (a b : SystemTimeStamp) :
  in_int64 (counterValue a) -> in_int64 (counterValue b) ->
  Z.abs (counterValue b - counterValue a) <= 2 ^ 53 ->
  InterpolateTimeStamp a b lit_1 = Some b.
Proof.
  intros Ha Hb Hd. unfold InterpolateTimeStamp.
  set (d := counterValue b - counterValue a) in *.
  assert (Hr : in_int64 d) by (unfold in_int64, INT64_MIN, INT64_MAX; lia).
  rewrite (wrap64_id d Hr).
  assert (R : ll_of_float (dmul (double_of_ll d) (double_of_float lit_1))
              = Some d).
  { destruct (Z.eq_dec (Z.abs d) (2 ^ 53)) as [E | NE].
    - destruct (Z.abs_spec d) as [[_ A] | [_ A]]; rewrite A in E.
      + rewrite E. vm_compute. reflexivity.
      + replace d with (- 2 ^ 53) by lia. vm_compute. reflexivity.
    - assert (Hlt : Z.abs d < 2 ^ 53) by lia.
      rewrite (double_of_ll_exact d Hlt).
      destruct (Z.eq_dec d 0) as [-> | Hnz]; [ reflexivity | ].
      change (double_of_float lit_1) with (canon prec64 1).
      destruct format64 as [Hp He]. unfold dmul.
      rewrite (SFmul_canon prec64 emax64 Hp He d 1 Hnz)
        by (unfold prec64; lia).
      rewrite Z.mul_1_r. apply ll_of_float_canon; assumption || exact Hp. }
  rewrite R. subst d.
  replace (counterValue a + (counterValue b - counterValue a))
    with (counterValue b) by lia.
  rewrite wrap64_id by assumption. destruct b; reflexivity.
Qed.

(** C2, amended.  For all tick values [a] and [b],
    [InterpolateTimeStamp a b 0] is [a]; and [InterpolateTimeStamp a b 1]
    is [b] whenever the difference [b - a] is at most 2^53 in magnitude,
    the range in which its conversion to [double] is exact. *)
Theorem InterpolateTimeStamp_endpoints (a b : SystemTimeStamp) :
  in_int64 (counterValue a) -> in_int64 (counterValue b) ->
  InterpolateTimeStamp a b lit_0 = Some a
  /\ (Z.abs (counterValue b - counterValue a) <= 2 ^ 53 ->
      InterpolateTimeStamp a b lit_1 = Some b).
Proof.
  intros Ha Hb. split.
  - apply InterpolateTimeStamp_0; assumption.
  - apply InterpolateTimeStamp_1; assumption.
Qed.

Lemma InterpolateTimeStamp_endpoints_witness :
  InterpolateTimeStamp {| counterValue := 100 |} {| counterValue := 350 |}
    lit_0 = Some {| counterValue := 100 |}
  /\ InterpolateTimeStamp {| counterValue := 100 |} {| counterValue := 350 |}
       lit_1 = Some {| counterValue := 350 |}.
Proof.
  assert (Ha : in_int64 (counterValue {| counterValue := 100 |}))
    by (unfold in_int64, INT64_MIN, INT64_MAX; simpl; lia).
  assert (Hb : in_int64 (counterValue {| counterValue := 350 |}))
    by (unfold in_int64, INT64_MIN, INT64_MAX; simpl; lia).
  destruct (InterpolateTimeStamp_endpoints _ _ Ha Hb) as [H0 H1].
  split; [ exact H0 | apply H1; simpl; lia ].
Defined.

(** C2 as stated fails at fraction 1 when the difference needs more
    than 53 bits: 2^53 + 1 becomes 2^53 on its way through [double]. *)
Lemma InterpolateTimeStamp_endpoints_counterexample :
  InterpolateTimeStamp {| counterValue := 0 |}
    {| counterValue := 9007199254740993 |} lit_1
  = Some {| counterValue := 9007199254740992 |}.
Proof. vm_compute. reflexivity. Qed.

(** C8, amended.  Given the non-zero frequency stored by [Init] and
    valid ticks [a] and [b]: whenever [TimeStampExactDiff a b] is a value [x] whose
    negation a [long long] holds, [TimeStampExactDiff b a] is exactly
    [- x], every rounding step being symmetric in the sign; and both
    calls do return such values whenever the stamps are less than 2^28
    seconds apart. *)
Theorem TimeStampExactDiff_antisymmetric (q : Z)
  (self : CSystemUtilsWindows) (a b : SystemTimeStamp) :
  Init q = Some self -> in_int64 q -> valid_tick a -> valid_tick b ->
  (forall x : Z,
     TimeStampExactDiff self a b = Some x -> x <> INT64_MIN ->
     TimeStampExactDiff self b a = Some (- x))
  /\ (Z.abs (counterValue b - counterValue a) < 2 ^ 28 * Z.abs q ->
      exists x : Z,
        TimeStampExactDiff self a b = Some x
        /\ TimeStampExactDiff self b a = Some (- x)).
Proof.
  intros HI Hq Ha Hb. apply Init_Some in HI as [Hq0 Hf].
  assert (Swap : forall x : Z,
             TimeStampExactDiff self a b = Some x -> x <> INT64_MIN ->
             TimeStampExactDiff self b a = Some (- x)).
  { intros x Hx Hmin. unfold TimeStampExactDiff in *.
    destruct (Z.eq_dec (counterValue a) (counterValue b)) as [E | NE].
    - (* equal stamps: both differences are the same zero *)
      unfold floatValue in *. rewrite E in *. rewrite Z.sub_diag in *.
      change (double_of_ll (wrap64 0)) with (S754_zero false) in *.
      destruct (ddiv lit_1e9 (double_of_ll (m_counterFrequency self)))
        as [s | s | | s m e]; cbn in Hx |- *; try discriminate;
        injection Hx as <-; reflexivity.
    - rewrite (floatValue_swap self a b Ha Hb NE).
      apply ll_of_float_opp; assumption. }
  split; [ exact Swap | ].
  intros Hlt.
  destruct (TimeStampExactDiff_defined self a b) as (x & Hx & Hax).
  - unfold valid_tick, in_int64, INT64_MIN, INT64_MAX in *. lia.
  - rewrite Hf. exact Hq.
  - rewrite Hf. exact Hq0.
  - rewrite Hf. exact Hlt.
  - exists x. split; [ exact Hx | ].
    apply Swap; [ exact Hx | unfold INT64_MIN; lia ].
Qed.

Lemma TimeStampExactDiff_antisymmetric_witness :
  exists x : Z,
    TimeStampExactDiff {| m_counterFrequency := 10000000 |}
      {| counterValue := 100 |} {| counterValue := 350 |} = Some x
    /\ TimeStampExactDiff {| m_counterFrequency := 10000000 |}
         {| counterValue := 350 |} {| counterValue := 100 |} = Some (- x).
Proof.
  apply (TimeStampExactDiff_antisymmetric 10000000).
  - reflexivity.
  - unfold in_int64, INT64_MIN, INT64_MAX. lia.
  - unfold valid_tick, INT64_MAX. simpl. lia.
  - unfold valid_tick, INT64_MAX. simpl. lia.
  - simpl. lia.
Defined.

(** C8 as stated fails where the difference in nanoseconds reaches
    2^63: at 10 MHz, from tick 0 to tick 92233720368547759 the value is
    2^63, whose conversion to [long long] has no defined result, while
    the swapped call returns -2^63: a value, and one without a
    negation.  The [double] product is 2^63 already: the [float]
    variable plays no part in this. *)
Lemma TimeStampExactDiff_antisymmetric_counterexample :
  Init 10000000 = Some {| m_counterFrequency := 10000000 |}
  /\ valid_tick {| counterValue := 0 |}
  /\ valid_tick {| counterValue := 92233720368547759 |}
  /\ TimeStampExactDiff {| m_counterFrequency := 10000000 |}
       {| counterValue := 0 |} {| counterValue := 92233720368547759 |}
     = None
  /\ TimeStampExactDiff {| m_counterFrequency := 10000000 |}
       {| counterValue := 92233720368547759 |} {| counterValue := 0 |}
     = Some INT64_MIN
  /\ ll_of_float
       (doubleValue {| m_counterFrequency := 10000000 |}
          {| counterValue := 0 |} {| counterValue := 92233720368547759 |})
     = None.
Proof.
  unfold valid_tick, INT64_MAX, INT64_MIN. cbn [counterValue].
  repeat split; try lia; vm_compute; reflexivity.
Qed.

(** C10, amended.  For every time stamp [a] and every finite fraction
    [i] (a binary32 value that is neither an infinity nor NaN, inside or
    outside [0,1]), [InterpolateTimeStamp a a i] is [a]. *)
Theorem InterpolateTimeStamp_same (a : SystemTimeStamp) (i : spec_float) :
  in_int64 (counterValue a) ->
  valid_binary prec32 emax32 i = true -> is_finite i = true ->
  InterpolateTimeStamp a a i = Some a.
Proof.
  intros Ha V F. unfold InterpolateTimeStamp.
  rewrite Z.sub_diag. change (wrap64 0) with 0.
  change (double_of_ll 0) with (S754_zero false).
  destruct (dmul_zero_l false (double_of_float i)) as [s' ->];
    [ apply double_of_float_finite; assumption | ].
  rewrite ll_of_float_zero, Z.add_0_r, wrap64_id by assumption.
  destruct a; reflexivity.
Qed.

Lemma InterpolateTimeStamp_same_witness :
  InterpolateTimeStamp {| counterValue := 7 |} {| counterValue := 7 |}
    (S754_finite false 12582912 (-22))
  = Some {| counterValue := 7 |}.
Proof.
  apply InterpolateTimeStamp_same.
  - unfold in_int64, INT64_MIN, INT64_MAX. simpl. lia.
  - reflexivity.
  - reflexivity.
Defined.

(** C10 as stated fails for an infinite fraction: the product of the
    zero difference and the infinity is NaN, and its conversion to
    [long long] has no defined result. *)
Lemma InterpolateTimeStamp_same_counterexample :
  InterpolateTimeStamp {| counterValue := 7 |} {| counterValue := 7 |} lit_inf
  = None.
Proof. reflexivity. Qed.

(* ================================================================== *)
(** * Text encodings: proofs *)

Module TextFacts.
Import Text.

(** ** Transcoding *)

Lemma between_spec (lo x hi : Z) : between lo x hi = true <-> lo <= x <= hi.
Proof.
  unfold between. rewrite andb_true_iff, !Z.leb_le. reflexivity.
Qed.

Lemma between_false (lo x hi : Z) :
  between lo x hi = false <-> x < lo \/ hi < x.
Proof.
  unfold between. rewrite andb_false_iff, !Z.leb_gt. reflexivity.
Qed.

Lemma utf16_roundtrip_scalar (c : Z) (rest : list Z) :
  scalar c ->
  utf16_scalars (utf16_of_scalar c ++ rest) = c :: utf16_scalars rest.
Proof.
  intros [R NS]. unfold utf16_of_scalar.
  destruct (c <? 65536) eqn:E; bounds.
  - cbn [app utf16_scalars].
    destruct (between 55296 c 56319) eqn:B1; [ bounds; lia | ].
    destruct (between 56320 c 57343) eqn:B2; [ bounds; lia | reflexivity ].
  - cbn [app utf16_scalars].
    replace (between 55296 (55296 + (c - 65536) / 1024) 56319) with true
      by (symmetry; apply between_spec; Z.div_mod_to_equations; lia).
    replace (between 56320 (56320 + (c - 65536) mod 1024) 57343) with true
      by (symmetry; apply between_spec; Z.div_mod_to_equations; lia).
    f_equal. Z.div_mod_to_equations. lia.
Qed.

Lemma utf16_roundtrip (cs : list Z) :
  Forall scalar cs -> utf16_scalars (flat_map utf16_of_scalar cs) = cs.
Proof.
  induction 1 as [ | c cs Hc _ IH]; [ reflexivity | ].
  cbn [flat_map]. rewrite utf16_roundtrip_scalar, IH by assumption.
  reflexivity.
Qed.

Lemma well_formed_leading (b : Z) (bs : list Z) :
  well_formed_utf8 (b :: bs) = true ->
  exists c t, leading (b :: bs) c t /\ well_formed_utf8 t = true
              /\ (List.length t < List.length (b :: bs))%nat.
Proof.
  cbn [well_formed_utf8]. intros W.
  destruct (between 0 b 127) eqn:B1.
  { bounds. exists b, bs.
    repeat split; [ constructor; lia | assumption | simpl; lia ]. }
  destruct (between 194 b 223) eqn:B2.
  { destruct bs as [ | b2 t2]; [ discriminate | ].
    apply andb_prop in W as [C W]. apply between_spec in B2.
    eexists _, t2.
    repeat split; [ constructor; eassumption | assumption | simpl; lia ]. }
  destruct (between 224 b 239) eqn:B3.
  { destruct bs as [ | b2 [ | b3 t3]]; try discriminate.
    apply andb_prop in W as [C W]. apply andb_prop in C as [C2 C3].
    apply between_spec in B3.
    eexists _, t3.
    repeat split; [ constructor; eassumption | assumption | simpl; lia ]. }
  destruct (between 240 b 244) eqn:B4; [ | discriminate ].
  destruct bs as [ | b2 [ | b3 [ | b4 t4]]]; try discriminate.
  apply andb_prop in W as [C W]. apply andb_prop in C as [C C4].
  apply andb_prop in C as [C2 C3]. apply between_spec in B4.
  eexists _, t4.
  repeat split; [ constructor; eassumption | assumption | simpl; lia ].
Qed.

Lemma leading_decode (bs t : list Z) (c : Z) :
  leading bs c t ->
  utf8_scalars bs = c :: utf8_scalars t
  /\ scalar c /\ utf8_of_scalar c ++ t = bs
  /\ (List.length (utf16_of_scalar c) + List.length t <= List.length bs)%nat.
Proof.
  intros L. destruct L as [b1 t R | b1 b2 t R C2 | b1 b2 b3 t R S C3
                          | b1 b2 b3 b4 t R S C3 C4].
  - cbn [utf8_scalars].
    replace (b1 <? 128) with true by (symmetry; apply Z.ltb_lt; lia).
    unfold scalar, utf8_of_scalar, utf16_of_scalar.
    replace (b1 <? 128) with true by (symmetry; apply Z.ltb_lt; lia).
    replace (b1 <? 65536) with true by (symmetry; apply Z.ltb_lt; lia).
    repeat split; simpl; lia.
  - cbn [utf8_scalars].
    replace (b1 <? 128) with false by (symmetry; apply Z.ltb_ge; lia).
    replace (between 194 b1 223) with true
      by (symmetry; apply between_spec; lia).
    rewrite C2. bounds.
    set (c := (b1 - 192) * 64 + (b2 - 128)).
    assert (Hc : 0x80 <= c <= 0x7FF) by (subst c; lia).
    unfold scalar, utf8_of_scalar, utf16_of_scalar.
    replace (c <? 128) with false by (symmetry; apply Z.ltb_ge; lia).
    replace (c <? 2048) with true by (symmetry; apply Z.ltb_lt; lia).
    replace (c <? 65536) with true by (symmetry; apply Z.ltb_lt; lia).
    repeat split; try (simpl; lia).
    cbn [app]. f_equal; [ | f_equal ]; subst c; Z.div_mod_to_equations; lia.
  - cbn [utf8_scalars].
    replace (b1 <? 128) with false by (symmetry; apply Z.ltb_ge; lia).
    replace (between 194 b1 223) with false
      by (symmetry; apply between_false; lia).
    replace (between 224 b1 239) with true
      by (symmetry; apply between_spec; lia).
    rewrite S, C3. cbn [andb].
    set (c := (b1 - 224) * 4096 + (b2 - 128) * 64 + (b3 - 128)).
    assert (Hc : 0x800 <= c <= 0xFFFF /\ ~ (0xD800 <= c <= 0xDFFF))
      by (subst c; bounds; lia).
    unfold scalar, utf8_of_scalar, utf16_of_scalar.
    replace (c <? 128) with false by (symmetry; apply Z.ltb_ge; lia).
    replace (c <? 2048) with false by (symmetry; apply Z.ltb_ge; lia).
    replace (c <? 65536) with true by (symmetry; apply Z.ltb_lt; lia).
    repeat split; try (simpl; lia).
    cbn [app]. bounds.
    all: f_equal; [ | f_equal; [ | f_equal ] ]; subst c;
      Z.div_mod_to_equations; lia.
  - cbn [utf8_scalars].
    replace (b1 <? 128) with false by (symmetry; apply Z.ltb_ge; lia).
    replace (between 194 b1 223) with false
      by (symmetry; apply between_false; lia).
    replace (between 224 b1 239) with false
      by (symmetry; apply between_false; lia).
    replace (between 240 b1 244) with true
      by (symmetry; apply between_spec; lia).
    rewrite S, C3, C4. cbn [andb].
    set (c := (b1 - 240) * 262144 + (b2 - 128) * 4096 + (b3 - 128) * 64
              + (b4 - 128)).
    assert (Hc : 0x10000 <= c <= 0x10FFFF) by (subst c; bounds; lia).
    unfold scalar, utf8_of_scalar, utf16_of_scalar.
    replace (c <? 128) with false by (symmetry; apply Z.ltb_ge; lia).
    replace (c <? 2048) with false by (symmetry; apply Z.ltb_ge; lia).
    replace (c <? 65536) with false by (symmetry; apply Z.ltb_ge; lia).
    repeat split; try (simpl; lia).
    cbn [app]. bounds.
    all: f_equal; [ | f_equal; [ | f_equal; [ | f_equal ] ] ]; subst c;
      Z.div_mod_to_equations; lia.
Qed.

Lemma well_formed_decode (bs : list Z) :
  well_formed_utf8 bs = true ->
  Forall scalar (utf8_scalars bs)
  /\ flat_map utf8_of_scalar (utf8_scalars bs) = bs
  /\ (List.length (flat_map utf16_of_scalar (utf8_scalars bs))
      <= List.length bs)%nat.
Proof.
  assert (H : forall (n : nat) (l : list Z),
             (List.length l < n)%nat -> well_formed_utf8 l = true ->
             Forall scalar (utf8_scalars l)
             /\ flat_map utf8_of_scalar (utf8_scalars l) = l
             /\ (List.length (flat_map utf16_of_scalar (utf8_scalars l))
                 <= List.length l)%nat).
  { induction n as [ | n IH]; intros l Hn W; [ lia | ].
    destruct l as [ | b t]; [ repeat split; [ constructor | simpl; lia ] | ].
    destruct (well_formed_leading b t W) as (c & t' & L & W' & Len).
    destruct (leading_decode _ _ _ L) as (D & Sc & E8 & L16).
    destruct (IH t' ltac:(lia) W') as (F & R & Le).
    rewrite D. cbn [flat_map]. rewrite R, E8, length_app.
    repeat split; [ constructor; assumption | lia ]. }
  apply (H (S (List.length bs))). lia.
Qed.

(** UTF-8 to UTF-16 and back, on well-formed text. *)
Lemma transcode_roundtrip (bs : list Z) :
  well_formed_utf8 bs = true ->
  flat_map utf8_of_scalar
    (utf16_scalars (flat_map utf16_of_scalar (utf8_scalars bs))) = bs.
Proof.
  intros W. destruct (well_formed_decode bs W) as (F & R & _).
  rewrite utf16_roundtrip by assumption. exact R.
Qed.

(** ** Strings and buffers *)

Lemma bytes_of_string_length (s : string) :
  List.length (bytes_of_string s) = String.length s.
Proof.
  unfold bytes_of_string. rewrite length_map.
  induction s as [ | c s IH]; [ reflexivity | simpl; f_equal; exact IH ].
Qed.

Lemma string_of_bytes_of_string (s : string) :
  string_of_bytes (bytes_of_string s) = s.
Proof.
  unfold string_of_bytes, bytes_of_string. rewrite map_map.
  rewrite (map_ext _ (fun c => c)), map_id.
  - apply string_of_list_ascii_of_string.
  - intros c. unfold ascii_of_byte, byte_of_ascii.
    rewrite N2Z.id. apply ascii_N_embedding.
Qed.

Lemma wrap32_id (z : Z) : 0 <= z <= INT_MAX -> wrap32 z = z.
Proof.
  unfold INT_MAX, wrap32. intros H. rewrite Z.mod_small; lia.
Qed.

Lemma counted_all (l : list Z) :
  l <> [] -> counted l (Z.of_nat (List.length l)) = Some l.
Proof.
  intros Hl. unfold counted.
  destruct l as [ | x t]; [ congruence | ].
  replace (Z.of_nat (List.length (x :: t)) =? 0) with false
    by (symmetry; apply Z.eqb_neq; simpl; lia).
  replace (Z.of_nat (List.length (x :: t)) <? 0) with false
    by (symmetry; apply Z.ltb_ge; lia).
  rewrite Nat2Z.id, firstn_app, Nat.sub_diag, firstn_all. cbn [firstn].
  rewrite app_nil_r. reflexivity.
Qed.

(** The two calls of a conversion: the size, then the text. *)
Lemma filled_deliver (out : list Z) :
  filled (fst (deliver out 0)) (snd (deliver out (fst (deliver out 0)))) = out.
Proof.
  change (fst (deliver out 0)) with (Z.of_nat (List.length out)).
  unfold deliver, filled.
  destruct (Z.eqb_spec (Z.of_nat (List.length out)) 0) as [E | NE].
  - destruct out; [ reflexivity | simpl in E; lia ].
  - rewrite Z.leb_refl. cbn [snd].
    rewrite skipn_all2 by (rewrite repeat_length; lia).
    apply app_nil_r.
Qed.

Lemma UTF8_Decode_spec (str : string) :
  Z.of_nat (String.length str) <= INT_MAX ->
  UTF8_Decode str
  = flat_map utf16_of_scalar (utf8_scalars (bytes_of_string str)).
Proof.
  intros Hlen. unfold UTF8_Decode.
  rewrite wrap32_id by lia. rewrite <- bytes_of_string_length.
  unfold MultiByteToWideChar.
  destruct (bytes_of_string str) as [ | b t] eqn:E; [ reflexivity | ].
  rewrite counted_all by discriminate. apply filled_deliver.
Qed.

Lemma UTF8_Encode_spec (wstr : wstring) :
  Z.of_nat (List.length wstr) <= INT_MAX ->
  UTF8_Encode wstr
  = string_of_bytes (flat_map utf8_of_scalar (utf16_scalars wstr)).
Proof.
  intros Hlen. unfold UTF8_Encode.
  rewrite wrap32_id by lia.
  unfold WideCharToMultiByte.
  destruct wstr as [ | w t] eqn:E; [ reflexivity | ].
  rewrite counted_all by discriminate. f_equal. apply filled_deliver.
Qed.

End TextFacts.

Import Text TextFacts.

(** C9, amended.  For every well-formed UTF-8 string (so one without
    surrogate code points) of at most [INT_MAX] bytes, the length that
    the [int] count of the two conversions can express, [UTF8_Encode]
    of [UTF8_Decode] gives the string back. *)
Theorem UTF8_roundtrip (str : string) :
  well_formed_utf8 (bytes_of_string str) = true ->
  Z.of_nat (String.length str) <= INT_MAX ->
  UTF8_Encode (UTF8_Decode str) = str.
Proof.
  intros W Hlen.
  destruct (well_formed_decode _ W) as (_ & _ & L16).
  rewrite bytes_of_string_length in L16.
  rewrite UTF8_Decode_spec by assumption.
  rewrite UTF8_Encode_spec by lia.
  rewrite transcode_roundtrip by assumption.
  apply string_of_bytes_of_string.
Qed.

Lemma UTF8_roundtrip_witness :
  UTF8_Encode (UTF8_Decode sample_text) = sample_text.
Proof.
  apply UTF8_roundtrip.
  - reflexivity.
  - unfold INT_MAX. simpl. lia.
Defined.

Lemma letters_length (n : nat) : String.length (letters n) = n.
Proof.
  induction n as [ | n IH]; [ reflexivity | simpl; f_equal; exact IH ].
Qed.

Lemma letters_well_formed (n : nat) :
  well_formed_utf8 (bytes_of_string (letters n)) = true.
Proof. induction n as [ | n IH]; [ reflexivity | exact IH ]. Qed.

(** C9 as stated fails for a text of 2^32 bytes: its size is 0 as an
    [int], the conversion rejects a count of zero, and the result is
    the empty string. *)
Lemma UTF8_roundtrip_counterexample :
  well_formed_utf8 (bytes_of_string (letters (Z.to_nat (2 ^ 32)))) = true
  /\ Z.of_nat (String.length (letters (Z.to_nat (2 ^ 32)))) = 2 ^ 32
  /\ UTF8_Encode (UTF8_Decode (letters (Z.to_nat (2 ^ 32)))) = EmptyString.
Proof.
  split; [ apply letters_well_formed | ].
  assert (L : Z.of_nat (String.length (letters (Z.to_nat (2 ^ 32)))) = 2 ^ 32)
    by (rewrite letters_length; apply Z2Nat.id; lia).
  split; [ exact L | ].
  assert (D : UTF8_Decode (letters (Z.to_nat (2 ^ 32))) = []).
  { unfold UTF8_Decode. rewrite L. reflexivity. }
  rewrite D. reflexivity.
Qed.

(** Outside well-formed text the conversions substitute: a byte that
    starts no sequence comes back as the three bytes of U+FFFD. *)
Lemma UTF8_roundtrip_ill_formed :
  UTF8_Encode (UTF8_Decode (string_of_bytes [0xFF]))
  = string_of_bytes [0xEF; 0xBF; 0xBD].
Proof. reflexivity. Qed.

(* ================================================================== *)
(** * Dialogs: proofs *)

(** C4.  [SystemDialog] maps the code of the message box to the
    portable result: [IDOK] to OK, [IDCANCEL] to CANCEL, [IDYES] to YES,
    [IDNO] to NO, and every other code to OK. *)
Theorem SystemDialog_mapping (MessageBoxW : wstring -> wstring -> Z -> Z)
  (type : SystemDialogType) (title message : string) :
  let code :=
    MessageBoxW (UTF8_Decode message) (UTF8_Decode title) (windowsType type) in
  let result := SystemDialog MessageBoxW type title message in
  (code = WinUser.IDOK -> result = SDR_OK)
  /\ (code = WinUser.IDCANCEL -> result = SDR_CANCEL)
  /\ (code = WinUser.IDYES -> result = SDR_YES)
  /\ (code = WinUser.IDNO -> result = SDR_NO)
  /\ (~ In code [WinUser.IDOK; WinUser.IDCANCEL; WinUser.IDYES; WinUser.IDNO]
      -> result = SDR_OK).
Proof.
  intros code result. subst result. unfold SystemDialog. fold code.
  unfold dialogResult.
  repeat split; intros H; try (rewrite H; reflexivity).
  cbn [In] in H.
  destruct (Z.eqb_spec code WinUser.IDOK); [ reflexivity | ].
  destruct (Z.eqb_spec code WinUser.IDCANCEL); [ exfalso; auto | ].
  destruct (Z.eqb_spec code WinUser.IDYES); [ exfalso; auto | ].
  destruct (Z.eqb_spec code WinUser.IDNO); [ exfalso; auto 6 | ].
  reflexivity.
Qed.

(** C3 as stated fails: a YES_NO box that could not be shown returns
    0, and the dialog answers OK. *)
Lemma SystemDialog_yes_no_counterexample :
  SystemDialog (fun _ _ _ => 0) SDT_YES_NO "Quit" "Are you sure?" = SDR_OK.
Proof. reflexivity. Qed.

(** C3, amended.  For each of the five dialog types, whenever the
    message box returns the code of one of the buttons that the
    requested style shows, [SystemDialog] returns a result of the subset
    of that type; every code that is none of OK, CANCEL, YES and NO,
    such as the 0 of a box that could not be shown, gives OK whatever
    the type. *)
Theorem SystemDialog_button_results
  (MessageBoxW : wstring -> wstring -> Z -> Z)
  (type : SystemDialogType) (title message : string) :
  let code :=
    MessageBoxW (UTF8_Decode message) (UTF8_Decode title) (windowsType type) in
  let result := SystemDialog MessageBoxW type title message in
  (In code (WinUser.buttons (windowsType type)) ->
   In result (button_results type))
  /\ (~ In code [WinUser.IDOK; WinUser.IDCANCEL; WinUser.IDYES; WinUser.IDNO]
      -> result = SDR_OK).
Proof.
  intros code result. subst result. unfold SystemDialog. fold code.
  generalize code. clear code. intros code. split; intros H.
  - destruct type; cbn in H;
      repeat (destruct H as [<- | H]; [ cbn; auto | ]); contradiction.
  - unfold dialogResult. cbn [In] in H.
    destruct (Z.eqb_spec code WinUser.IDOK); [ reflexivity | ].
    destruct (Z.eqb_spec code WinUser.IDCANCEL); [ exfalso; auto | ].
    destruct (Z.eqb_spec code WinUser.IDYES); [ exfalso; auto | ].
    destruct (Z.eqb_spec code WinUser.IDNO); [ exfalso; auto 6 | ].
    reflexivity.
Qed.

Lemma SystemDialog_button_results_witness :
  In (SystemDialog (fun _ _ _ => WinUser.IDNO) SDT_YES_NO
        "Quit" "Are you sure?")
     (button_results SDT_YES_NO)
  /\ SystemDialog (fun _ _ _ => 0) SDT_INFO "Note" "Saved." = SDR_OK.
Proof.
  split.
  - apply (SystemDialog_button_results (fun _ _ _ => WinUser.IDNO)).
    cbn. auto.
  - apply (SystemDialog_button_results (fun _ _ _ => 0)).
    cbn. intros [H | [H | [H | [H | []]]]]; discriminate H.
Defined.

(* ================================================================== *)
(** * Save directory and shell: proofs *)

(** The UTF-8 form of the UTF-16 form of well-formed text is the
    text. *)
Lemma UTF8_Encode_Decode_spec (str : string) :
  well_formed_utf8 (bytes_of_string str) = true ->
  Z.of_nat (String.length str) <= INT_MAX ->
  UTF8_Encode (UTF8_Decode str) = str.
Proof.
  intros W Hlen.
  destruct (well_formed_decode _ W) as (_ & _ & L16).
  rewrite bytes_of_string_length in L16.
  rewrite UTF8_Decode_spec by assumption.
  rewrite UTF8_Encode_spec by lia.
  rewrite transcode_roundtrip by assumption.
  apply string_of_bytes_of_string.
Qed.

(** A variable that is set to a non-empty value has a non-empty UTF-8
    form, so the test of [GetSaveDir] is a test of the variable. *)
Lemma UTF8_Encode_nonempty (wstr : wstring) :
  wstr <> [] -> Z.of_nat (List.length wstr) <= INT_MAX ->
  String.eqb (UTF8_Encode wstr) "" = false.
Proof.
  intros Hne Hlen. rewrite UTF8_Encode_spec by assumption.
  destruct wstr as [ | w t]; [ congruence | ].
  assert (H : exists b l,
             flat_map Text.utf8_of_scalar (Text.utf16_scalars (w :: t))
             = b :: l).
  { assert (S : exists c cs, Text.utf16_scalars (w :: t) = c :: cs).
    { cbn [Text.utf16_scalars].
      destruct (Text.between 55296 w 56319).
      - destruct t as [ | w2 t2]; [ eauto | ].
        destruct (Text.between 56320 w2 57343); eauto.
      - destruct (Text.between 56320 w 57343); eauto. }
    destruct S as (c & cs & ->). cbn [flat_map]. unfold Text.utf8_of_scalar.
    destruct (c <? 128); [ cbn; eauto | ].
    destruct (c <? 2048); [ cbn; eauto | ].
    destruct (c <? 65536); cbn; eauto. }
  destruct H as (b & l & ->). reflexivity.
Qed.

(** What [GetEnvVar] answers when the environment holds the UTF-16 form
    of [value] under the name, read as a C string. *)
Lemma GetEnvVar_value (_wgetenv : wstring -> option wstring)
  (name value : string) (key : wstring) (log : Log) :
  c_str (widen name) = key ->
  well_formed_utf8 (bytes_of_string value) = true ->
  Z.of_nat (String.length value) <= INT_MAX ->
  _wgetenv key = Some (UTF8_Decode value) ->
  GetEnvVar _wgetenv name log = (value, log ++ [detected name value]).
Proof.
  intros K W Hlen E. unfold GetEnvVar. rewrite K, E.
  rewrite (UTF8_Encode_Decode_spec value W Hlen). reflexivity.
Qed.

(** [GetSaveDir] of an installed build, by the value of the variable. *)
Lemma GetSaveDir_by_value (CSystemUtils_GetSaveDir : string)
  (_wgetenv : wstring -> option wstring) (log : Log) :
  GetSaveDir false false CSystemUtils_GetSaveDir _wgetenv log
  = match _wgetenv USERPROFILE with
    | Some envVar =>
        let profile := UTF8_Encode envVar in
        if String.eqb profile ""
        then (CSystemUtils_GetSaveDir,
              log ++ [detected "USERPROFILE" profile; no_directory;
                      going_to CSystemUtils_GetSaveDir])
        else ((profile ++ backslash ++ "colobot")%string,
              log ++ [detected "USERPROFILE" profile;
                      going_to (profile ++ backslash ++ "colobot")%string])
    | None =>
        (CSystemUtils_GetSaveDir,
         log ++ [no_directory; going_to CSystemUtils_GetSaveDir])
    end.
Proof.
  cbv [GetSaveDir GetEnvVar bind Warn Trace write ret orb].
  change (c_str (widen "USERPROFILE")) with USERPROFILE.
  destruct (_wgetenv USERPROFILE) as [envVar | ].
  - cbv zeta. destruct (String.eqb (UTF8_Encode envVar) "");
      rewrite <- ?app_assoc; reflexivity.
  - cbn [String.eqb]. cbv beta iota. rewrite <- ?app_assoc. reflexivity.
Qed.

(** C6.  In a build that is neither portable nor a development build,
    [GetSaveDir] reads the variable [USERPROFILE].  When it holds a
    non-empty value, the result is that value, in UTF-8, followed by the
    application directory: for a value that is the UTF-16 form of a
    text [profile], the result is [profile\colobot].  When the variable
    is unset or empty, [GetSaveDir] logs the warning and returns the
    default directory of the base class.  Both ways it then traces the
    choice.  (Values are of a length that an [int] holds; Windows
    limits them to 32767 units.) *)
Theorem GetSaveDir_installed (CSystemUtils_GetSaveDir : string)
  (_wgetenv : wstring -> option wstring) (log : Log) :
  let result :=
    GetSaveDir false false CSystemUtils_GetSaveDir _wgetenv log in
  (forall profile : string,
     _wgetenv USERPROFILE = Some (UTF8_Decode profile) ->
     profile <> EmptyString ->
     well_formed_utf8 (bytes_of_string profile) = true ->
     Z.of_nat (String.length profile) <= INT_MAX ->
     result
     = ((profile ++ backslash ++ "colobot")%string,
        log ++ [detected "USERPROFILE" profile;
                going_to (profile ++ backslash ++ "colobot")%string]))
  /\ (forall envVar : wstring,
        _wgetenv USERPROFILE = Some envVar ->
        envVar <> [] ->
        Z.of_nat (List.length envVar) <= INT_MAX ->
        result
        = ((UTF8_Encode envVar ++ backslash ++ "colobot")%string,
           log ++ [detected "USERPROFILE" (UTF8_Encode envVar);
                   going_to (UTF8_Encode envVar ++ backslash
                             ++ "colobot")%string]))
  /\ (_wgetenv USERPROFILE = Some [] ->
      result
      = (CSystemUtils_GetSaveDir,
         log ++ [detected "USERPROFILE" EmptyString; no_directory;
                 going_to CSystemUtils_GetSaveDir]))
  /\ (_wgetenv USERPROFILE = None ->
      result
      = (CSystemUtils_GetSaveDir,
         log ++ [no_directory; going_to CSystemUtils_GetSaveDir])).
Proof.
  intros result. subst result. rewrite GetSaveDir_by_value.
  split; [ | split; [ | split ] ].
  - intros profile E Hne W Hlen. rewrite E. cbv zeta.
    rewrite (UTF8_Encode_Decode_spec profile W Hlen).
    destruct profile; [ congruence | reflexivity ].
  - intros envVar E Hne Hlen. rewrite E. cbv zeta.
    rewrite (UTF8_Encode_nonempty envVar Hne Hlen). reflexivity.
  - intros E. rewrite E. reflexivity.
  - intros E. rewrite E. reflexivity.
Qed.

Lemma GetSaveDir_installed_witness :
  GetSaveDir false false "./saves"
    (environment USERPROFILE (UTF8_Decode "C:\Users\player")) []
  = ("C:\Users\player\colobot"%string,
     [detected "USERPROFILE" "C:\Users\player";
      going_to "C:\Users\player\colobot"]).
Proof.
  apply (proj1 (GetSaveDir_installed "./saves"
                  (environment USERPROFILE (UTF8_Decode "C:\Users\player"))
                  []) "C:\Users\player"%string).
  - reflexivity.
  - discriminate.
  - reflexivity.
  - unfold INT_MAX. simpl. lia.
Defined.

(** C7.  For every path and every url, [OpenPath] and [OpenWebsite]
    return false exactly when the exit code of their command is not
    zero, having logged an error that carries that code, and true
    exactly when it is zero, having logged nothing. *)
Theorem Open_result (make_preferred : string -> string)
  (system : string -> Z) (path url : string) (log : Log) :
  let code1 :=
    system ("start explorer " ++ quote ++ make_preferred path
            ++ quote)%string in
  let code2 :=
    system ("rundll32 url.dll,FileProtocolHandler " ++ quote ++ url
            ++ quote)%string in
  let r1 := OpenPath make_preferred system path log in
  let r2 := OpenWebsite system url log in
  (fst r1 = false <-> code1 <> 0) /\ (fst r1 = true <-> code1 = 0)
  /\ (fst r2 = false <-> code2 <> 0) /\ (fst r2 = true <-> code2 = 0)
  /\ snd r1 = (if code1 =? 0 then log
               else log ++ [open_failed "path" path code1])
  /\ snd r2 = (if code2 =? 0 then log
               else log ++ [open_failed "website" url code2]).
Proof.
  intros code1 code2 r1 r2. subst r1 r2. unfold OpenPath, OpenWebsite.
  fold code1 code2.
  destruct (Z.eqb_spec code1 0) as [E1 | N1],
      (Z.eqb_spec code2 0) as [E2 | N2];
    cbn; repeat split; intros; congruence.
Qed.

(* ================================================================== *)
(** * Text encodings: further properties *)

Lemma bytes_of_string_range (s : string) : Forall is_byte (bytes_of_string s).
Proof.
  unfold bytes_of_string. apply Forall_map.
  apply Forall_forall. intros c _. unfold byte_of_ascii, is_byte.
  pose proof (N_ascii_bounded c). lia.
Qed.

Lemma bytes_of_string_of_bytes (l : list Z) :
  Forall is_byte l -> bytes_of_string (string_of_bytes l) = l.
Proof.
  unfold bytes_of_string, string_of_bytes.
  rewrite list_ascii_of_string_of_list_ascii, map_map.
  induction 1 as [ | b l Hb _ IH]; [ reflexivity | ].
  cbn [map]. rewrite IH. f_equal.
  unfold byte_of_ascii, ascii_of_byte, is_byte in *.
  rewrite N_ascii_embedding by lia. lia.
Qed.

Lemma string_of_bytes_length (l : list Z) :
  String.length (string_of_bytes l) = List.length l.
Proof.
  unfold string_of_bytes.
  induction l as [ | b l IH]; [ reflexivity | simpl; f_equal; exact IH ].
Qed.

Lemma scalar_REPLACEMENT : scalar REPLACEMENT.
Proof. unfold scalar, REPLACEMENT. lia. Qed.

(** The bytes of a scalar value start the text they are put before. *)
Lemma utf8_of_scalar_leading (c : Z) (rest : list Z) :
  scalar c -> leading (utf8_of_scalar c ++ rest) c rest.
Proof.
  intros [R NS]. unfold utf8_of_scalar.
  destruct (c <? 128) eqn:E1; bounds.
  { cbn [app]. constructor. lia. }
  destruct (c <? 2048) eqn:E2; bounds.
  { cbn [app].
    replace c with ((192 + c / 64 - 192) * 64 + (128 + c mod 64 - 128)) at 3
      by (Z.div_mod_to_equations; lia).
    constructor.
    - Z.div_mod_to_equations; lia.
    - apply between_spec. Z.div_mod_to_equations; lia. }
  destruct (c <? 65536) eqn:E3; bounds.
  { cbn [app].
    replace c with ((224 + c / 4096 - 224) * 4096
                    + (128 + (c / 64) mod 64 - 128) * 64
                    + (128 + c mod 64 - 128)) at 4
      by (Z.div_mod_to_equations; lia).
    constructor.
    - Z.div_mod_to_equations; lia.
    - unfold second_ok.
      destruct (Z.eqb_spec (224 + c / 4096) 224);
        [ apply between_spec; Z.div_mod_to_equations; lia | ].
      destruct (Z.eqb_spec (224 + c / 4096) 237);
        [ apply between_spec; Z.div_mod_to_equations; lia | ].
      destruct (Z.eqb_spec (224 + c / 4096) 240);
        [ exfalso; Z.div_mod_to_equations; lia | ].
      destruct (Z.eqb_spec (224 + c / 4096) 244);
        [ exfalso; Z.div_mod_to_equations; lia | ].
      apply between_spec. Z.div_mod_to_equations; lia.
    - apply between_spec. Z.div_mod_to_equations; lia. }
  cbn [app].
  replace c with ((240 + c / 262144 - 240) * 262144
                  + (128 + (c / 4096) mod 64 - 128) * 4096
                  + (128 + (c / 64) mod 64 - 128) * 64
                  + (128 + c mod 64 - 128)) at 5
    by (Z.div_mod_to_equations; lia).
  constructor.
  - Z.div_mod_to_equations; lia.
  - unfold second_ok.
    destruct (Z.eqb_spec (240 + c / 262144) 224);
      [ exfalso; Z.div_mod_to_equations; lia | ].
    destruct (Z.eqb_spec (240 + c / 262144) 237);
      [ exfalso; Z.div_mod_to_equations; lia | ].
    destruct (Z.eqb_spec (240 + c / 262144) 240);
      [ apply between_spec; Z.div_mod_to_equations; lia | ].
    destruct (Z.eqb_spec (240 + c / 262144) 244);
      [ apply between_spec; Z.div_mod_to_equations; lia | ].
    apply between_spec. Z.div_mod_to_equations; lia.
  - apply between_spec. Z.div_mod_to_equations; lia.
  - apply between_spec. Z.div_mod_to_equations; lia.
Qed.


(** One step of the UTF-8 decoder on any bytes: a scalar value, then
    the decoding of a shorter rest. *)
Lemma utf8_scalars_step (b : Z) (bs : list Z) :
  0 <= b ->
  exists c t,
    utf8_scalars (b :: bs) = c :: utf8_scalars t
    /\ scalar c
    /\ (List.length (utf16_of_scalar c) + List.length t
        <= List.length (b :: bs))%nat
    /\ (exists k, t = skipn k bs).
Proof.
  intros Hb.
  assert (Bad : exists c t,
             REPLACEMENT :: utf8_scalars bs = c :: utf8_scalars t
             /\ scalar c
             /\ (List.length (utf16_of_scalar c) + List.length t
                 <= List.length (b :: bs))%nat
             /\ (exists k, t = skipn k bs)).
  { exists REPLACEMENT, bs.
    split; [ reflexivity | ].
    split; [ apply scalar_REPLACEMENT | ].
    split; [ simpl; lia | now exists 0%nat ]. }
  assert (Good : forall c t k,
             leading (b :: bs) c t -> t = skipn k bs ->
             exists c t,
               utf8_scalars (b :: bs) = c :: utf8_scalars t
               /\ scalar c
               /\ (List.length (utf16_of_scalar c) + List.length t
                   <= List.length (b :: bs))%nat
               /\ (exists k, t = skipn k bs)).
  { intros c t k L Hk.
    destruct (leading_decode _ _ _ L) as (D & Sc & _ & Len).
    exists c, t.
    split; [ assumption | ]. split; [ assumption | ].
    split; [ assumption | now exists k ]. }
  destruct (b <? 128) eqn:E1.
  { apply (Good b bs 0%nat); [ constructor; bounds; lia | reflexivity ]. }
  cbn [utf8_scalars]. rewrite E1.
  destruct (between 194 b 223) eqn:E2.
  { destruct bs as [ | b2 t2]; [ exact Bad | ].
    destruct (is_cont b2) eqn:C2; [ | exact Bad ].
    cbn [utf8_scalars] in Good. rewrite E1, E2, C2 in Good.
    eapply (Good _ t2 1%nat); [ | reflexivity ].
    apply lead2; [ apply between_spec; assumption | assumption ]. }
  destruct (between 224 b 239) eqn:E3.
  { destruct bs as [ | b2 [ | b3 t3]]; try exact Bad.
    destruct (second_ok b b2 && is_cont b3) eqn:C; [ | exact Bad ].
    cbn [utf8_scalars] in Good. rewrite E1, E2, E3, C in Good.
    apply andb_prop in C as [C2 C3].
    eapply (Good _ t3 2%nat); [ | reflexivity ].
    apply lead3; [ apply between_spec; assumption | assumption .. ]. }
  destruct (between 240 b 244) eqn:E4; [ | exact Bad ].
  destruct bs as [ | b2 [ | b3 [ | b4 t4]]]; try exact Bad.
  destruct (second_ok b b2 && is_cont b3 && is_cont b4) eqn:C; [ | exact Bad ].
  cbn [utf8_scalars] in Good. rewrite E1, E2, E3, E4, C in Good.
  apply andb_prop in C as [C C4]. apply andb_prop in C as [C2 C3].
  eapply (Good _ t4 3%nat); [ | reflexivity ].
  apply lead4; [ apply between_spec; assumption | assumption .. ].
Qed.

Lemma Forall_skipn {A : Type} (P : A -> Prop) (k : nat) (l : list A) :
  Forall P l -> Forall P (skipn k l).
Proof.
  intros H. apply Forall_forall. intros x Hx.
  rewrite Forall_forall in H. apply H.
  rewrite <- (firstn_skipn k l). apply in_or_app. now right.
Qed.

(** Whatever the bytes, the decoder yields scalar values, and no more
    UTF-16 units than there are bytes. *)
Lemma utf8_scalars_scalar (bs : list Z) :
  Forall (fun b => 0 <= b) bs ->
  Forall scalar (utf8_scalars bs)
  /\ (List.length (flat_map utf16_of_scalar (utf8_scalars bs))
      <= List.length bs)%nat.
Proof.
  assert (H : forall (n : nat) (l : list Z),
             (List.length l < n)%nat -> Forall (fun b => 0 <= b) l ->
             Forall scalar (utf8_scalars l)
             /\ (List.length (flat_map utf16_of_scalar (utf8_scalars l))
                 <= List.length l)%nat).
  { induction n as [ | n IH]; intros l Hn F; [ lia | ].
    destruct l as [ | b t]; [ split; [ constructor | simpl; lia ] | ].
    inversion F as [ | ? ? Hb Ft]; subst.
    destruct (utf8_scalars_step b t Hb) as (c & t' & D & Sc & Len & k & Hk).
    assert (Lt : (List.length t' <= List.length t)%nat).
    { subst t'. rewrite length_skipn. lia. }
    destruct (IH t') as (F' & Len').
    - simpl in Hn. lia.
    - subst t'. apply Forall_skipn. assumption.
    - rewrite D. cbn [flat_map]. rewrite length_app.
      split; [ constructor; assumption | lia ]. }
  intros F. apply (H (S (List.length bs))); [ lia | assumption ].
Qed.

(** The units of a scalar value are well formed by themselves. *)
Lemma well_formed_utf16_scalar (c : Z) (rest : list Z) :
  scalar c ->
  well_formed_utf16 (utf16_of_scalar c ++ rest) = well_formed_utf16 rest.
Proof.
  intros [R NS]. unfold utf16_of_scalar.
  destruct (c <? 65536) eqn:E; bounds; cbn [app well_formed_utf16].
  - destruct (between 55296 c 56319) eqn:B1; [ bounds; lia | ].
    destruct (between 56320 c 57343) eqn:B2; [ bounds; lia | ].
    replace (between 0 c 65535) with true
      by (symmetry; apply between_spec; lia).
    reflexivity.
  - replace (between 55296 (55296 + (c - 65536) / 1024) 56319) with true
      by (symmetry; apply between_spec; Z.div_mod_to_equations; lia).
    replace (between 56320 (56320 + (c - 65536) mod 1024) 57343) with true
      by (symmetry; apply between_spec; Z.div_mod_to_equations; lia).
    reflexivity.
Qed.

Lemma well_formed_utf16_scalars (cs : list Z) :
  Forall scalar cs -> well_formed_utf16 (flat_map utf16_of_scalar cs) = true.
Proof.
  induction 1 as [ | c cs Hc _ IH]; [ reflexivity | ].
  cbn [flat_map]. rewrite well_formed_utf16_scalar by assumption. exact IH.
Qed.


Lemma utf8_roundtrip (cs : list Z) :
  Forall scalar cs -> utf8_scalars (flat_map utf8_of_scalar cs) = cs.
Proof.
  induction 1 as [ | c cs Hc _ IH]; [ reflexivity | ].
  cbn [flat_map].
  destruct (leading_decode _ _ _ (utf8_of_scalar_leading c
              (flat_map utf8_of_scalar cs) Hc)) as (D & _).
  rewrite D, IH. reflexivity.
Qed.

Lemma utf8_of_scalar_range (c : Z) :
  scalar c -> Forall is_byte (utf8_of_scalar c)
              /\ (1 <= List.length (utf8_of_scalar c) <= 4)%nat
              /\ (c <= 0xFFFF ->
                  (List.length (utf8_of_scalar c) <= 3)%nat).
Proof.
  intros [R NS]. unfold utf8_of_scalar, is_byte.
  destruct (c <? 128) eqn:E1; bounds.
  { repeat split; [ repeat constructor; lia | simpl; lia .. ]. }
  destruct (c <? 2048) eqn:E2; bounds.
  { repeat split; [ | simpl; lia .. ].
    repeat constructor; Z.div_mod_to_equations; lia. }
  destruct (c <? 65536) eqn:E3; bounds.
  { repeat split; [ | simpl; lia .. ].
    repeat constructor; Z.div_mod_to_equations; lia. }
  repeat split; [ | simpl; lia .. ].
  repeat constructor; Z.div_mod_to_equations; lia.
Qed.

(** One step of the UTF-16 decoder on any 16-bit units. *)
Lemma utf16_scalars_step (w : Z) (ws : list Z) :
  is_unit w ->
  exists c t,
    utf16_scalars (w :: ws) = c :: utf16_scalars t
    /\ scalar c
    /\ (List.length (utf8_of_scalar c) + 3 * List.length t
        <= 3 * List.length (w :: ws))%nat
    /\ (exists k, t = skipn k ws).
Proof.
  unfold is_unit. intros Hw. cbn [utf16_scalars].
  assert (R3 : (List.length (utf8_of_scalar REPLACEMENT) = 3)%nat)
    by reflexivity.
  destruct (between 55296 w 56319) eqn:B1.
  { destruct ws as [ | w2 t2].
    - exists REPLACEMENT, [].
      split; [ reflexivity | ]. split; [ apply scalar_REPLACEMENT | ].
      split; [ rewrite ?R3; cbn [List.length]; lia | now exists 0%nat ].
    - destruct (between 56320 w2 57343) eqn:B2.
      + eexists _, t2. split; [ reflexivity | ]. bounds.
        assert (Sc : scalar (65536 + (w - 55296) * 1024 + (w2 - 56320)))
          by (unfold scalar; lia).
        destruct (utf8_of_scalar_range _ Sc) as (_ & L & _).
        split; [ exact Sc | ].
        split; [ rewrite ?R3; cbn [List.length]; lia | now exists 1%nat ].
      + exists REPLACEMENT, (w2 :: t2).
        split; [ reflexivity | ]. split; [ apply scalar_REPLACEMENT | ].
        split; [ rewrite ?R3; cbn [List.length]; lia | now exists 0%nat ]. }
  destruct (between 56320 w 57343) eqn:B2.
  { exists REPLACEMENT, ws.
    split; [ reflexivity | ]. split; [ apply scalar_REPLACEMENT | ].
    split; [ rewrite ?R3; cbn [List.length]; lia | now exists 0%nat ]. }
  exists w, ws. bounds.
  all: assert (Sc : scalar w) by (unfold scalar; lia).
  all: destruct (utf8_of_scalar_range _ Sc) as (_ & _ & L).
  all: split; [ reflexivity | ]; split; [ exact Sc | ].
  all: split; [ rewrite ?R3; cbn [List.length]; lia | now exists 0%nat ].
Qed.

Lemma utf16_scalars_scalar (ws : list Z) :
  Forall is_unit ws ->
  Forall scalar (utf16_scalars ws)
  /\ (List.length (flat_map utf8_of_scalar (utf16_scalars ws))
      <= 3 * List.length ws)%nat.
Proof.
  assert (H : forall (n : nat) (l : list Z),
             (List.length l < n)%nat -> Forall is_unit l ->
             Forall scalar (utf16_scalars l)
             /\ (List.length (flat_map utf8_of_scalar (utf16_scalars l))
                 <= 3 * List.length l)%nat).
  { induction n as [ | n IH]; intros l Hn F; [ lia | ].
    destruct l as [ | w t]; [ split; [ constructor | simpl; lia ] | ].
    inversion F as [ | ? ? Hw Ft]; subst.
    destruct (utf16_scalars_step w t Hw) as (c & t' & D & Sc & Len & k & Hk).
    assert (Lt : (List.length t' <= List.length t)%nat).
    { subst t'. rewrite length_skipn. lia. }
    destruct (IH t') as (F' & Len').
    - simpl in Hn. lia.
    - subst t'. apply Forall_skipn. assumption.
    - rewrite D. cbn [flat_map]. rewrite length_app.
      split; [ constructor; assumption | lia ]. }
  intros F. apply (H (S (List.length ws))); [ lia | assumption ].
Qed.

(** Well-formed UTF-16 is the UTF-16 form of its scalar values. *)
Lemma well_formed_utf16_decode (ws : list Z) :
  well_formed_utf16 ws = true ->
  Forall is_unit ws
  /\ Forall scalar (utf16_scalars ws)
  /\ flat_map utf16_of_scalar (utf16_scalars ws) = ws.
Proof.
  assert (H : forall (n : nat) (l : list Z),
             (List.length l < n)%nat -> well_formed_utf16 l = true ->
             Forall is_unit l
             /\ Forall scalar (utf16_scalars l)
             /\ flat_map utf16_of_scalar (utf16_scalars l) = l).
  { induction n as [ | n IH]; intros l Hn W; [ lia | ].
    destruct l as [ | w t]; [ repeat split; constructor | ].
    cbn [well_formed_utf16 utf16_scalars] in *.
    destruct (between 55296 w 56319) eqn:B1.
    - destruct t as [ | w2 t2]; [ discriminate | ].
      apply andb_prop in W as [B2 W]. rewrite B2.
      destruct (IH t2 ltac:(simpl in Hn; lia) W) as (U & F & R).
      bounds. cbn [flat_map]. rewrite R. unfold utf16_of_scalar, is_unit.
      replace (65536 + (w - 55296) * 1024 + (w2 - 56320) <? 65536)
        with false by (symmetry; apply Z.ltb_ge; lia).
      split; [ | split ].
      + repeat (constructor; [ lia | ]). assumption.
      + constructor; [ unfold scalar; lia | assumption ].
      + cbn [app]. f_equal; [ | f_equal ]; Z.div_mod_to_equations; lia.
    - destruct (between 56320 w 57343) eqn:B2; [ discriminate | ].
      apply andb_prop in W as [B3 W].
      destruct (IH t ltac:(simpl in Hn; lia) W) as (U & F & R).
      bounds. all: cbn [flat_map]; rewrite R; unfold utf16_of_scalar, is_unit.
      all: replace (w <? 65536) with true by (symmetry; apply Z.ltb_lt; lia).
      all: split; [ constructor; [ lia | assumption ] | ].
      all: split; [ constructor; [ unfold scalar; lia | assumption ] | ].
      all: reflexivity. }
  apply (H (S (List.length ws))). lia.
Qed.






Lemma utf8_of_scalars_range (cs : list Z) :
  Forall scalar cs -> Forall is_byte (flat_map utf8_of_scalar cs).
Proof.
  induction 1 as [ | c cs Hc _ IH]; [ constructor | ].
  cbn [flat_map]. apply Forall_app. split; [ | exact IH ].
  apply utf8_of_scalar_range. exact Hc.
Qed.

(** UTF-16 to UTF-8 and back, on well-formed text of a length that the
    counts can express. *)
Lemma UTF8_Decode_Encode_spec (wstr : wstring) :
  well_formed_utf16 wstr = true ->
  3 * Z.of_nat (List.length wstr) <= INT_MAX ->
  UTF8_Decode (UTF8_Encode wstr) = wstr.
Proof.
  intros W Hlen.
  destruct (well_formed_utf16_decode wstr W) as (U & F & R).
  destruct (utf16_scalars_scalar wstr U) as (_ & L8).
  rewrite UTF8_Encode_spec by lia.
  rewrite UTF8_Decode_spec by (rewrite string_of_bytes_length; lia).
  rewrite bytes_of_string_of_bytes by (apply utf8_of_scalars_range; exact F).
  rewrite utf8_roundtrip by exact F. exact R.
Qed.




(** X3.  The round trip that starts from wide text: for well-formed
    UTF-16 of at most [INT_MAX / 3] units, [UTF8_Decode] of
    [UTF8_Encode] gives the text back. *)
Theorem UTF8_wide_roundtrip (wstr : wstring) :
  well_formed_utf16 wstr = true ->
  3 * Z.of_nat (List.length wstr) <= INT_MAX ->
  UTF8_Decode (UTF8_Encode wstr) = wstr.
Proof. exact (UTF8_Decode_Encode_spec wstr). Qed.

Lemma UTF8_wide_roundtrip_witness :
  UTF8_Decode (UTF8_Encode [0x68; 0x20AC; 0xD83D; 0xDE00])
  = [0x68; 0x20AC; 0xD83D; 0xDE00].
Proof.
  apply UTF8_wide_roundtrip.
  - reflexivity.
  - unfold INT_MAX. simpl. lia.
Defined.

(** X4.  A second pass changes nothing: for every string of at most
    [INT_MAX / 3] bytes, ill-formed ones included, [UTF8_Encode] of
    [UTF8_Decode] is a fixed point of [UTF8_Encode] of [UTF8_Decode]. *)
Theorem UTF8_sanitize_idempotent (str : string) :
  3 * Z.of_nat (String.length str) <= INT_MAX ->
  UTF8_Encode (UTF8_Decode (UTF8_Encode (UTF8_Decode str)))
  = UTF8_Encode (UTF8_Decode str).
Proof.
  intros Hlen. f_equal.
  assert (B : Forall (fun b => 0 <= b) (bytes_of_string str)).
  { eapply Forall_impl; [ | apply bytes_of_string_range ].
    unfold is_byte. intros b Hb. lia. }
  destruct (utf8_scalars_scalar _ B) as (F & L).
  rewrite bytes_of_string_length in L.
  apply UTF8_Decode_Encode_spec.
  - rewrite UTF8_Decode_spec by lia.
    apply well_formed_utf16_scalars. exact F.
  - rewrite UTF8_Decode_spec by lia. lia.
Qed.

Lemma UTF8_sanitize_idempotent_witness :
  UTF8_Encode (UTF8_Decode (UTF8_Encode (UTF8_Decode
    (string_of_bytes [0x68; 0xFF; 0xC3]))))
  = UTF8_Encode (UTF8_Decode (string_of_bytes [0x68; 0xFF; 0xC3])).
Proof.
  apply UTF8_sanitize_idempotent. unfold INT_MAX. simpl. lia.
Defined.

Lemma ascii_scalars (bs : list Z) :
  forallb (fun b => b <? 128) bs = true ->
  flat_map utf16_of_scalar (utf8_scalars bs) = bs
  /\ map (fun b => if b <? 128 then b else b + 0xFF00) bs = bs.
Proof.
  induction bs as [ | b bs IH]; [ split; reflexivity | ].
  cbn [forallb]. intros H. apply andb_prop in H as [Hb H].
  destruct (IH H) as (E1 & E2).
  cbn [utf8_scalars map]. rewrite Hb. cbn [flat_map]. rewrite E1, E2.
  unfold utf16_of_scalar.
  replace (b <? 65536) with true
    by (symmetry; apply Z.ltb_lt; apply Z.ltb_lt in Hb; lia).
  split; reflexivity.
Qed.

(** For a name of 7-bit characters, the wide name that [GetEnvVar]
    builds unit by unit is the UTF-16 form of the name. *)
Lemma widen_ascii (name : string) :
  ascii_text name = true ->
  Z.of_nat (String.length name) <= INT_MAX ->
  widen name = UTF8_Decode name.
Proof.
  intros A Hlen. rewrite UTF8_Decode_spec by assumption.
  unfold widen. destruct (ascii_scalars _ A) as (-> & ->). reflexivity.
Qed.

(* ================================================================== *)
(** * Environment, save directory, shell and dialogs: further properties *)

(** X5.  [GetEnvVar] hands the name to the environment as a wide C
    string; for a name of 7-bit characters that is the UTF-16 form of
    the name up to its first null.  When the environment holds under
    it the UTF-16 form of a well-formed text [value], [GetEnvVar]
    returns exactly [value] and traces name and value; when it holds
    nothing, [GetEnvVar] returns the empty string and logs nothing. *)
Theorem GetEnvVar_lookup (_wgetenv : wstring -> option wstring)
  (name value : string) (log : Log) :
  ascii_text name = true ->
  Z.of_nat (String.length name) <= INT_MAX ->
  well_formed_utf8 (bytes_of_string value) = true ->
  Z.of_nat (String.length value) <= INT_MAX ->
  (_wgetenv (c_str (UTF8_Decode name)) = Some (UTF8_Decode value) ->
   GetEnvVar _wgetenv name log = (value, log ++ [detected name value]))
  /\ (_wgetenv (c_str (UTF8_Decode name)) = None ->
      GetEnvVar _wgetenv name log = (EmptyString, log)).
Proof.
  intros A Hn W Hv. rewrite <- (widen_ascii name A Hn). split.
  - intros E. apply (GetEnvVar_value _wgetenv name value _ log eq_refl W Hv E).
  - intros E. unfold GetEnvVar. rewrite E. reflexivity.
Qed.

Lemma GetEnvVar_lookup_witness :
  GetEnvVar (environment USERPROFILE (UTF8_Decode sample_text))
    "USERPROFILE" []
  = (sample_text, [detected "USERPROFILE" sample_text]).
Proof.
  apply (GetEnvVar_lookup
           (environment USERPROFILE (UTF8_Decode sample_text))
           "USERPROFILE" sample_text []).
  - reflexivity.
  - unfold INT_MAX. simpl. lia.
  - reflexivity.
  - unfold INT_MAX. simpl. lia.
  - reflexivity.
Defined.

Lemma app_singleton_neq {A : Type} (l : list A) (x : A) : l ++ [x] <> l.
Proof.
  intros E. apply (f_equal (@List.length A)) in E.
  rewrite length_app in E. simpl in E. lia.
Qed.

(** X6.  [GetEnvVar] answers the empty string exactly when the
    variable is not set or is set to the empty value, so the answer
    alone does not tell the two apart; the log does: it is unchanged
    exactly when the variable is not set. *)
Theorem GetEnvVar_empty (_wgetenv : wstring -> option wstring)
  (name : string) (log : Log) :
  (forall envVar, _wgetenv (c_str (widen name)) = Some envVar ->
                  Z.of_nat (List.length envVar) <= INT_MAX) ->
  (fst (GetEnvVar _wgetenv name log) = EmptyString
   <-> _wgetenv (c_str (widen name)) = None
       \/ _wgetenv (c_str (widen name)) = Some [])
  /\ (snd (GetEnvVar _wgetenv name log) = log
      <-> _wgetenv (c_str (widen name)) = None).
Proof.
  intros Hlen. unfold GetEnvVar.
  destruct (_wgetenv (c_str (widen name))) as [envVar | ].
  - cbn [fst snd Trace write bind ret]. split; split.
    + intros E. right. destruct envVar as [ | w t]; [ reflexivity | exfalso ].
      assert (N := UTF8_Encode_nonempty (w :: t) ltac:(discriminate)
                     (Hlen _ eq_refl)).
      cbv [Trace write bind ret] in E. cbn [fst] in E.
      rewrite E in N. discriminate N.
    + intros [E | E]; [ discriminate | ]. injection E as ->. reflexivity.
    + intros E. cbv [Trace write bind ret] in E. cbn [snd] in E.
      exfalso. exact (app_singleton_neq _ _ E).
    + discriminate.
  - cbn. split; split; auto.
Qed.

Lemma GetEnvVar_empty_witness :
  (fst (GetEnvVar (fun _ => Some []) "HOME" []) = EmptyString
   <-> Some (@nil Z) = None \/ Some (@nil Z) = Some [])
  /\ (snd (GetEnvVar (fun _ => Some []) "HOME" []) = []
      <-> Some (@nil Z) = None).
Proof.
  apply (GetEnvVar_empty (fun _ => Some []) "HOME" []).
  intros envVar [= <-]. unfold INT_MAX. simpl. lia.
Defined.

Lemma append_nonempty (a b : string) :
  b <> EmptyString -> (a ++ b)%string <> EmptyString.
Proof.
  intros Hb. destruct a; [ exact Hb | discriminate ].
Qed.

(** X7.  In every build, [GetSaveDir] returns a non-empty directory
    whenever the default directory of the base class is not empty; in a
    portable or a development build it returns that default, reads no
    environment variable and logs nothing. *)
Theorem GetSaveDir_nonempty (PORTABLE_SAVES DEV_BUILD : bool)
  (CSystemUtils_GetSaveDir : string)
  (_wgetenv : wstring -> option wstring) (log : Log) :
  CSystemUtils_GetSaveDir <> EmptyString ->
  let result :=
    GetSaveDir PORTABLE_SAVES DEV_BUILD CSystemUtils_GetSaveDir _wgetenv log in
  fst result <> EmptyString
  /\ (PORTABLE_SAVES || DEV_BUILD = true ->
      result = (CSystemUtils_GetSaveDir, log)).
Proof.
  intros Hd result. subst result.
  cbv [GetSaveDir GetEnvVar bind Warn Trace write ret].
  destruct (PORTABLE_SAVES || DEV_BUILD).
  - split; [ exact Hd | reflexivity ].
  - split; [ | discriminate ].
    destruct (_wgetenv (c_str (widen "USERPROFILE"))) as [envVar | ].
    + cbv zeta. destruct (String.eqb (UTF8_Encode envVar) "");
        cbn [fst]; [ exact Hd | ].
      apply append_nonempty. discriminate.
    + cbn [String.eqb]. cbv beta iota. exact Hd.
Qed.

Lemma GetSaveDir_nonempty_witness :
  fst (GetSaveDir true false "./saves" (fun _ => None) []) <> EmptyString
  /\ (true || false = true ->
      GetSaveDir true false "./saves" (fun _ => None) [] = ("./saves"%string, [])).
Proof.
  apply (GetSaveDir_nonempty true false "./saves" (fun _ => None) []).
  discriminate.
Defined.

(** X9.  The log only grows: [GetEnvVar], [GetSaveDir], [OpenPath] and
    [OpenWebsite] each return a value and append entries that do not
    depend on what the log holds, at most one entry, three for
    [GetSaveDir]; no earlier entry is removed or changed. *)
Theorem log_append_only (PORTABLE_SAVES DEV_BUILD : bool)
  (CSystemUtils_GetSaveDir : string)
  (_wgetenv : wstring -> option wstring)
  (make_preferred : string -> string) (system : string -> Z)
  (name path url : string) :
  (exists x entries,
      appends (GetEnvVar _wgetenv name) x entries
      /\ (List.length entries <= 1)%nat)
  /\ (exists x entries,
         appends (GetSaveDir PORTABLE_SAVES DEV_BUILD CSystemUtils_GetSaveDir
                    _wgetenv) x entries
         /\ (List.length entries <= 3)%nat)
  /\ (exists x entries,
         appends (OpenPath make_preferred system path) x entries
         /\ (List.length entries <= 1)%nat)
  /\ (exists x entries,
         appends (OpenWebsite system url) x entries
         /\ (List.length entries <= 1)%nat).
Proof.
  unfold appends. repeat apply conj.
  - unfold GetEnvVar.
    destruct (_wgetenv (c_str (widen name))) as [envVar | ].
    + eexists _, [_]. split; [ intros log; reflexivity | simpl; lia ].
    + exists EmptyString, []. split; [ intros log | simpl; lia ].
      cbn. rewrite app_nil_r. reflexivity.
  - cbv [GetSaveDir GetEnvVar bind Warn Trace write ret].
    destruct (PORTABLE_SAVES || DEV_BUILD).
    { eexists _, []. split; [ intros log | simpl; lia ].
      rewrite app_nil_r. reflexivity. }
    destruct (_wgetenv (c_str (widen "USERPROFILE"))) as [envVar | ].
    + cbv zeta. destruct (String.eqb (UTF8_Encode envVar) "").
      * eexists _, [_; _; _]. split; [ intros log | simpl; lia ].
        rewrite <- !app_assoc. reflexivity.
      * eexists _, [_; _]. split; [ intros log | simpl; lia ].
        rewrite <- !app_assoc. reflexivity.
    + cbn [String.eqb]. cbv beta iota.
      eexists _, [_; _]. split; [ intros log | simpl; lia ].
      rewrite <- !app_assoc. reflexivity.
  - unfold OpenPath. destruct (negb _).
    + eexists _, [_]. split; [ intros log; reflexivity | simpl; lia ].
    + exists true, []. split; [ intros log | simpl; lia ].
      cbn. rewrite app_nil_r. reflexivity.
  - unfold OpenWebsite. destruct (negb _).
    + eexists _, [_]. split; [ intros log; reflexivity | simpl; lia ].
    + exists true, []. split; [ intros log | simpl; lia ].
      cbn. rewrite app_nil_r. reflexivity.
Qed.

(** X10.  Where a result comes from: [SystemDialog] returns CANCEL,
    YES or NO only when the message box returned [IDCANCEL], [IDYES] or
    [IDNO], and OK for every other code. *)
Theorem SystemDialog_result_origin
  (MessageBoxW : wstring -> wstring -> Z -> Z)
  (type : SystemDialogType) (title message : string) :
  let code :=
    MessageBoxW (UTF8_Decode message) (UTF8_Decode title) (windowsType type) in
  let result := SystemDialog MessageBoxW type title message in
  (result = SDR_CANCEL <-> code = WinUser.IDCANCEL)
  /\ (result = SDR_YES <-> code = WinUser.IDYES)
  /\ (result = SDR_NO <-> code = WinUser.IDNO)
  /\ (result = SDR_OK
      <-> ~ In code [WinUser.IDCANCEL; WinUser.IDYES; WinUser.IDNO]).
Proof.
  intros code result. subst result. unfold SystemDialog. fold code.
  generalize code. clear code. intros code.
  unfold dialogResult, WinUser.IDOK, WinUser.IDCANCEL, WinUser.IDYES,
    WinUser.IDNO. cbn [In].
  destruct (Z.eqb_spec code 1); [ repeat split; intros; try discriminate;
                                  try lia; intuition lia | ].
  destruct (Z.eqb_spec code 2); [ repeat split; intros; try discriminate;
                                  try lia; intuition lia | ].
  destruct (Z.eqb_spec code 6); [ repeat split; intros; try discriminate;
                                  try lia; intuition lia | ].
  destruct (Z.eqb_spec code 7); [ repeat split; intros; try discriminate;
                                  try lia; intuition lia | ].
  repeat split; intros; try discriminate; try lia; intuition lia.
Qed.

(** X11.  For each dialog type, the buttons of the box that
    [SystemDialog] requests lead, in their order, to exactly the results
    of the subset of that type: each of them can be returned. *)
Theorem SystemDialog_buttons_cover (type : SystemDialogType)
  (title message : string) :
  map (fun code => SystemDialog (fun _ _ _ => code) type title message)
      (WinUser.buttons (windowsType type))
  = button_results type.
Proof. destruct type; reflexivity. Qed.

(* ================================================================== *)
(** * Time stamps: the size of the rounding errors *)

Section RoundValue.
Variables prec emax : Z.

(** [binary_round_aux_normal] with the value of the result: the
    mantissa is the truncated one or its successor, on the grid of the
    truncated exponent. *)
Lemma binary_round_aux_value (s : bool) (M : positive) (e : Z)
  (l : location) :
  0 < prec ->
  prec <= Z.pos (digits2_pos M) ->
  emin prec emax <= e + (Z.pos (digits2_pos M) - prec) ->
  e + (Z.pos (digits2_pos M) - prec) + 1 <= emax - prec ->
  exists m' e',
    binary_round_aux prec emax s (Z.pos M) e l = S754_finite s m' e'
    /\ Z.pos (digits2_pos m') = prec
    /\ e + (Z.pos (digits2_pos M) - prec) <= e'
       <= e + (Z.pos (digits2_pos M) - prec) + 1
    /\ Z.pos M / 2 ^ (Z.pos (digits2_pos M) - prec)
         * 2 ^ (Z.pos (digits2_pos M) - prec)
       <= Z.pos m' * 2 ^ (e' - e)
       <= (Z.pos M / 2 ^ (Z.pos (digits2_pos M) - prec) + 1)
            * 2 ^ (Z.pos (digits2_pos M) - prec).
Proof.
  intros Hp Hd He Hmax.
  pose proof (digits2_pos_bounds M) as [Lo Hi].
  set (d := Z.pos (digits2_pos M)) in *.
  assert (F1 : fexp prec emax (Zdigits2 (Z.pos M) + e) = e + (d - prec)).
  { unfold fexp. cbn [Zdigits2]. fold d. lia. }
  unfold binary_round_aux.
  destruct (shr_fexp_spec prec emax (Z.pos M) e l) as [A B];
    [ lia | rewrite F1; lia | ].
  destruct (shr_fexp prec emax (Z.pos M) e l) as [mrs' e'].
  cbn [fst snd] in A, B. rewrite F1 in A, B.
  replace (e + (d - prec) - e) with (d - prec) in A by lia.
  assert (Pn : 0 < 2 ^ (d - prec)) by (apply Z.pow_pos_nonneg; lia).
  assert (M1 : 2 ^ (prec - 1) <= shr_m mrs' < 2 ^ prec).
  { rewrite A. split.
    - apply Z.div_le_lower_bound; [ exact Pn | ].
      rewrite <- Z.pow_add_r by lia.
      replace (d - prec + (prec - 1)) with (d - 1) by lia. exact Lo.
    - apply Z.div_lt_upper_bound; [ exact Pn | ].
      rewrite <- Z.pow_add_r by lia.
      replace (d - prec + prec) with d by lia. exact Hi. }
  pose proof (round_nearest_even_bounds (shr_m mrs')
                (loc_of_shr_record mrs')) as R.
  set (m2 := round_nearest_even (shr_m mrs') (loc_of_shr_record mrs')) in *.
  assert (P1 : 0 < 2 ^ (prec - 1)) by (apply Z.pow_pos_nonneg; lia).
  assert (P2 : 2 ^ prec = 2 * 2 ^ (prec - 1)).
  { rewrite <- Z.pow_succ_r by lia. f_equal. lia. }
  rewrite <- A.
  destruct m2 as [ | p2 | p2] eqn:E2; [ lia | | lia ].
  destruct (Z.ltb_spec (Z.pos p2) (2 ^ prec)) as [Lt | Ge].
  - (* the rounded mantissa still has [prec] digits *)
    assert (D2 : Z.pos (digits2_pos p2) = prec)
      by (apply digits2_pos_unique; lia).
    unfold shr_fexp. cbn [Zdigits2 shr_record_of_loc]. rewrite D2.
    replace (fexp prec emax (prec + e') - e') with 0
      by (unfold fexp; lia).
    cbn [shr shr_m].
    replace (e' <=? emax - prec) with true
      by (symmetry; apply Z.leb_le; lia).
    exists p2, e'.
    split; [ reflexivity | ]. split; [ exact D2 | ]. split; [ lia | ].
    replace (e' - e) with (d - prec) by lia. nia.
  - (* rounding carried into a new digit *)
    assert (Ep : Z.pos p2 = 2 ^ prec) by lia.
    assert (D2 : Z.pos (digits2_pos p2) = prec + 1).
    { apply digits2_pos_unique. replace (prec + 1 - 1) with prec by lia.
      rewrite Z.pow_add_r by lia. lia. }
    destruct (shr_fexp_spec prec emax (Z.pos p2) e' loc_Exact) as [A' B'];
      [ lia | cbn [Zdigits2]; rewrite D2; unfold fexp; lia | ].
    destruct (shr_fexp prec emax (Z.pos p2) e' loc_Exact) as [mrs'' e''].
    cbn [fst snd Zdigits2] in A', B'. rewrite D2 in A', B'.
    replace (fexp prec emax (prec + 1 + e')) with (e' + 1) in A', B'
      by (unfold fexp; lia).
    replace (e' + 1 - e') with 1 in A' by lia.
    rewrite Ep, P2 in A'. change (2 ^ 1) with 2 in A'.
    rewrite Z.mul_comm, Z.div_mul in A' by lia.
    destruct (shr_m mrs'') as [ | q | q] eqn:Eq; [ lia | | lia ].
    replace (e'' <=? emax - prec) with true
      by (symmetry; apply Z.leb_le; lia).
    exists q, e''.
    split; [ reflexivity | ].
    split; [ apply digits2_pos_unique; rewrite A'; lia | ].
    split; [ lia | ].
    replace (e'' - e) with (d - prec + 1) by lia.
    rewrite Z.pow_add_r by lia. change (2 ^ 1) with 2. rewrite A'. nia.
Qed.

End RoundValue.

Module FloatError.
Import Reals Lra.
Import Float FloatFacts Real.
Local Open Scope R_scope.

Lemma bpow_pos (e : Z) : 0 < bpow e.
Proof. apply powerRZ_lt. lra. Qed.

Lemma bpow_add (a b : Z) : bpow (a + b) = bpow a * bpow b.
Proof. apply powerRZ_add. lra. Qed.

Lemma bpow_IZR (k : Z) : (0 <= k)%Z -> IZR (2 ^ k) = bpow k.
Proof.
  intros Hk. unfold bpow. destruct k as [ | p | p]; [ reflexivity | | lia ].
  cbn [powerRZ]. rewrite <- (positive_nat_Z p) at 1.
  rewrite <- pow_IZR. reflexivity.
Qed.

Lemma bpow_0 : bpow 0 = 1.
Proof. reflexivity. Qed.

Lemma bpow_opp (e : Z) : bpow (- e) = / bpow e.
Proof.
  pose proof (bpow_pos e) as P.
  assert (I : bpow e * bpow (- e) = 1).
  { rewrite <- bpow_add. replace (e + - e)%Z with 0%Z by lia. reflexivity. }
  apply (Rmult_eq_reg_l (bpow e)); [ | lra ].
  rewrite I. field. lra.
Qed.

(** Rounding on the grid of the truncated exponent, as a relative
    error: one unit in the last place at most. *)
Lemma grid_round (prec n e e' : Z) (M m' : positive) (u : R) :
  (0 < prec)%Z -> (0 <= n)%Z -> (e + n <= e')%Z ->
  (2 ^ (prec - 1) <= Z.pos M / 2 ^ n)%Z ->
  (Z.pos M / 2 ^ n * 2 ^ n <= Z.pos m' * 2 ^ (e' - e)
   <= (Z.pos M / 2 ^ n + 1) * 2 ^ n)%Z ->
  IZR (Z.pos M) * bpow e <= u < IZR (Z.pos M + 1) * bpow e ->
  u * (1 - bpow (1 - prec)) <= IZR (Z.pos m') * bpow e'
  <= u * (1 + bpow (1 - prec)).
Proof.
  intros Hp Hn He Hlo [G1 G2] [U1 U2].
  set (mlo := (Z.pos M / 2 ^ n)%Z) in *.
  assert (Pn : (0 < 2 ^ n)%Z) by (apply Z.pow_pos_nonneg; lia).
  assert (Dm : (mlo * 2 ^ n <= Z.pos M < (mlo + 1) * 2 ^ n)%Z).
  { subst mlo. pose proof (Z.div_mod (Z.pos M) (2 ^ n) ltac:(lia)).
    pose proof (Z.mod_pos_bound (Z.pos M) (2 ^ n) Pn). lia. }
  pose proof (bpow_pos e) as Be.
  set (g := IZR (2 ^ n) * bpow e).
  assert (Pg : 0 < g).
  { unfold g. apply Rmult_lt_0_compat; [ apply IZR_lt; lia | exact Be ]. }
  assert (Er : IZR (Z.pos m') * bpow e'
               = IZR (Z.pos m' * 2 ^ (e' - e)) * bpow e).
  { rewrite mult_IZR, bpow_IZR by lia.
    replace e' with ((e' - e) + e)%Z at 1 by lia. rewrite bpow_add. ring. }
  assert (R1 : IZR mlo * g <= IZR (Z.pos m') * bpow e').
  { rewrite Er. unfold g. rewrite <- Rmult_assoc, <- mult_IZR.
    apply Rmult_le_compat_r; [ lra | apply IZR_le; exact G1 ]. }
  assert (R2 : IZR (Z.pos m') * bpow e' <= (IZR mlo + 1) * g).
  { rewrite Er. unfold g. rewrite <- Rmult_assoc.
    replace ((IZR mlo + 1) * IZR (2 ^ n)) with (IZR ((mlo + 1) * 2 ^ n))
      by (rewrite mult_IZR, plus_IZR; reflexivity).
    apply Rmult_le_compat_r; [ lra | apply IZR_le; exact G2 ]. }
  assert (V1 : IZR mlo * g <= u).
  { apply Rle_trans with (2 := U1). unfold g.
    rewrite <- Rmult_assoc, <- mult_IZR.
    apply Rmult_le_compat_r; [ lra | apply IZR_le; lia ]. }
  assert (V2 : u <= (IZR mlo + 1) * g).
  { apply Rlt_le. apply Rlt_le_trans with (1 := U2). unfold g.
    rewrite <- Rmult_assoc.
    replace ((IZR mlo + 1) * IZR (2 ^ n)) with (IZR ((mlo + 1) * 2 ^ n))
      by (rewrite mult_IZR, plus_IZR; reflexivity).
    apply Rmult_le_compat_r; [ lra | apply IZR_le; lia ]. }
  assert (Eg : g <= u * bpow (1 - prec)).
  { assert (T : bpow (prec - 1) * g <= u).
    { apply Rle_trans with (2 := V1).
      apply Rmult_le_compat_r; [ lra | ].
      rewrite <- bpow_IZR by lia. apply IZR_le. exact Hlo. }
    assert (I : bpow (1 - prec) * bpow (prec - 1) = 1).
    { rewrite <- bpow_add. replace (1 - prec + (prec - 1))%Z with 0%Z by lia.
      reflexivity. }
    pose proof (bpow_pos (1 - prec)) as B1.
    replace g with (bpow (1 - prec) * (bpow (prec - 1) * g))
      by (rewrite <- Rmult_assoc, I; ring).
    rewrite (Rmult_comm u). apply Rmult_le_compat_l; lra. }
  split; lra.
Qed.

Section Within.
Variables prec emax : Z.
Hypothesis prec_pos : (0 < prec)%Z.

Lemma eps_bounds : 0 < bpow (1 - prec) <= 1.
Proof using prec_pos.
  split; [ apply bpow_pos | ].
  assert (I : bpow (1 - prec) * bpow (prec - 1) = 1).
  { rewrite <- bpow_add. replace (1 - prec + (prec - 1))%Z with 0%Z by lia.
    reflexivity. }
  assert (L : 1 <= bpow (prec - 1)).
  { rewrite <- bpow_IZR by lia. apply IZR_le.
    assert (0 < 2 ^ (prec - 1))%Z by (apply Z.pow_pos_nonneg; lia). lia. }
  pose proof (bpow_pos (1 - prec)). nra.
Qed.

Lemma binary_round_aux_within (s : bool) (M : positive) (e : Z)
  (l : location) (u : R) :
  (prec <= Z.pos (digits2_pos M))%Z ->
  (emin prec emax <= e + (Z.pos (digits2_pos M) - prec))%Z ->
  (e + (Z.pos (digits2_pos M) - prec) + 1 <= emax - prec)%Z ->
  IZR (Z.pos M) * bpow e <= u < IZR (Z.pos M + 1) * bpow e ->
  within prec (binary_round_aux prec emax s (Z.pos M) e l) s
    (e + (Z.pos (digits2_pos M) - prec))
    (e + (Z.pos (digits2_pos M) - prec) + 1)
    u (1 - bpow (1 - prec)) (1 + bpow (1 - prec)).
Proof using prec_pos.
  intros Hd He Hmax Hu.
  destruct (binary_round_aux_value prec emax s M e l prec_pos Hd He Hmax)
    as (m' & e' & E & D & B & G).
  exists m', e'.
  split; [ exact E | ]. split; [ exact D | ]. split; [ exact B | ].
  apply (grid_round prec (Z.pos (digits2_pos M) - prec) e e' M m' u);
    try assumption; try lia.
  pose proof (digits2_pos_bounds M) as [Lo _].
  apply Z.div_le_lower_bound; [ apply Z.pow_pos_nonneg; lia | ].
  rewrite <- Z.pow_add_r by lia.
  replace (Z.pos (digits2_pos M) - prec + (prec - 1))%Z
    with (Z.pos (digits2_pos M) - 1)%Z by lia.
  exact Lo.
Qed.

Lemma exact_between (M : positive) (e : Z) :
  IZR (Z.pos M) * bpow e <= IZR (Z.pos M) * bpow e
  < IZR (Z.pos M + 1) * bpow e.
Proof using Type.
  split; [ lra | ]. apply Rmult_lt_compat_r; [ apply bpow_pos | ].
  apply IZR_lt. lia.
Qed.

Lemma binary_round_within (s : bool) (M : positive) (e : Z) :
  (emin prec emax <= Z.pos (digits2_pos M) + e - prec)%Z ->
  (Z.pos (digits2_pos M) + e + 1 <= emax)%Z ->
  within prec (binary_round prec emax s M e) s
    (Z.pos (digits2_pos M) + e - prec)
    (Z.pos (digits2_pos M) + e - prec + 1)
    (IZR (Z.pos M) * bpow e) (1 - bpow (1 - prec)) (1 + bpow (1 - prec)).
Proof using prec_pos.
  intros Lo Hi. unfold binary_round, shl_align.
  set (d := Z.pos (digits2_pos M)) in *.
  replace (fexp prec emax (d + e)) with (d + e - prec)%Z
    by (unfold fexp; lia).
  destruct (d + e - prec - e)%Z as [ | k | k] eqn:Ek.
  - replace (d + e - prec)%Z with (e + (d - prec))%Z by lia.
    apply binary_round_aux_within; fold d; try lia. apply exact_between.
  - replace (d + e - prec)%Z with (e + (d - prec))%Z by lia.
    apply binary_round_aux_within; fold d; try lia. apply exact_between.
  - assert (D : Z.pos (digits2_pos (Pos.iter xO M k)) = (d + Z.pos k)%Z).
    { apply digits2_pos_shift; [ lia | apply pos_iter_xO_spec ]. }
    replace (d + e - prec + 1)%Z
      with (d + e - prec + (d + Z.pos k - prec) + 1)%Z by lia.
    replace (d + e - prec)%Z
      with (d + e - prec + (d + Z.pos k - prec))%Z at 2 by lia.
    rewrite <- D.
    assert (V : IZR (Z.pos M) * bpow e
                = IZR (Z.pos (Pos.iter xO M k)) * bpow (d + e - prec)).
    { rewrite pos_iter_xO_spec, mult_IZR, bpow_IZR by lia.
      rewrite Rmult_assoc, <- bpow_add. f_equal. f_equal. lia. }
    rewrite V.
    apply binary_round_aux_within; rewrite ?D; try lia.
    apply exact_between.
Qed.

(** The product of two numbers known within factors. *)
Lemma SFmul_within (x y : spec_float) (sx sy : bool) (lx hx ly hy : Z)
  (vx Lx Ux vy Ly Uy : R) :
  within prec x sx lx hx vx Lx Ux -> within prec y sy ly hy vy Ly Uy ->
  0 < vx -> 0 < vy -> 0 <= Lx -> 0 <= Ly ->
  (emin prec emax <= lx + ly + prec - 1)%Z ->
  (hx + hy + prec + 1 <= emax - prec)%Z ->
  within prec (SFmul prec emax x y) (xorb sx sy)
    (lx + ly + prec - 1) (hx + hy + prec + 1)
    (vx * vy) (Lx * Ly * (1 - bpow (1 - prec)))
    (Ux * Uy * (1 + bpow (1 - prec))).
Proof using prec_pos.
  intros (mx & ex & -> & Dx & Ex & Vx) (my & ey & -> & Dy & Ey & Vy)
    Px Py PLx PLy Lo Hi.
  cbn [SFmul].
  pose proof (digits2_pos_mul mx my) as D. rewrite Dx, Dy in D.
  destruct (binary_round_aux_within (xorb sx sy) (mx * my) (ex + ey)
              loc_Exact (IZR (Z.pos (mx * my)) * bpow (ex + ey)))
    as (m & e & E & Dm & Em & Vm); try lia; [ apply exact_between | ].
  exists m, e.
  split; [ exact E | ]. split; [ exact Dm | ]. split; [ lia | ].
  pose proof eps_bounds as [E0 E1].
  set (eps := bpow (1 - prec)) in *.
  set (a := IZR (Z.pos mx) * bpow ex) in *.
  set (b := IZR (Z.pos my) * bpow ey) in *.
  assert (Eab : IZR (Z.pos (mx * my)) * bpow (ex + ey) = a * b).
  { subst a b. rewrite Pos2Z.inj_mul, mult_IZR, bpow_add. ring. }
  rewrite Eab in Vm.
  assert (A1 : vx * Lx * (vy * Ly) <= a * b)
    by (apply Rmult_le_compat; nra).
  assert (A2 : a * b <= vx * Ux * (vy * Uy))
    by (apply Rmult_le_compat; nra).
  assert (A0 : 0 <= a * b) by nra.
  split.
  - apply Rle_trans with (2 := proj1 Vm).
    replace (vx * vy * (Lx * Ly * (1 - eps)))
      with (vx * Lx * (vy * Ly) * (1 - eps)) by ring.
    apply Rmult_le_compat_r; lra.
  - apply Rle_trans with (1 := proj2 Vm).
    replace (vx * vy * (Ux * Uy * (1 + eps)))
      with (vx * Ux * (vy * Uy) * (1 + eps)) by ring.
    apply Rmult_le_compat_r; lra.
Qed.

(** The quotient of two numbers known within factors. *)
Lemma SFdiv_within (x y : spec_float) (sx sy : bool) (lx hx ly hy : Z)
  (vx Lx Ux vy Ly Uy : R) :
  within prec x sx lx hx vx Lx Ux -> within prec y sy ly hy vy Ly Uy ->
  0 < vx -> 0 < vy -> 0 <= Lx -> 0 < Ly ->
  (emin prec emax <= lx - hy - prec)%Z ->
  (hx - ly - prec + 2 <= emax - prec)%Z ->
  within prec (SFdiv prec emax x y) (xorb sx sy)
    (lx - hy - prec) (hx - ly - prec + 2)
    (vx / vy) (Lx / Uy * (1 - bpow (1 - prec)))
    (Ux / Ly * (1 + bpow (1 - prec))).
Proof using prec_pos.
  intros (mx & ex & -> & Dx & Ex & Vx) (my & ey & -> & Dy & Ey & Vy)
    Px Py PLx PLy Lo Hi.
  cbn [SFdiv]. unfold SFdiv_core_binary. cbn [Zdigits2]. rewrite Dx, Dy.
  replace (Z.min (fexp prec emax (prec + ex - (prec + ey))) (ex - ey))
    with (ex - ey - prec)%Z by (unfold fexp; lia).
  replace (ex - ey - (ex - ey - prec))%Z with prec by lia.
  replace (match prec with
           | 0%Z => Z.pos mx
           | Z.pos _ => Z.shiftl (Z.pos mx) prec
           | Z.neg _ => 0%Z
           end) with (Z.pos mx * 2 ^ prec)%Z
    by (rewrite <- Z.shiftl_mul_pow2 by lia;
        destruct prec; [ lia | reflexivity | lia ]).
  pose proof (digits2_pos_bounds mx) as [Lx' Ux']. rewrite Dx in Lx', Ux'.
  pose proof (digits2_pos_bounds my) as [Ly' Uy']. rewrite Dy in Ly', Uy'.
  assert (P1 : (0 < 2 ^ (prec - 1))%Z) by (apply Z.pow_pos_nonneg; lia).
  assert (P2 : (2 ^ prec = 2 * 2 ^ (prec - 1))%Z).
  { rewrite <- Z.pow_succ_r by lia. f_equal. lia. }
  pose proof (Z.div_eucl_eq (Z.pos mx * 2 ^ prec) (Z.pos my) ltac:(lia)) as DE.
  pose proof (Z.mod_pos_bound (Z.pos mx * 2 ^ prec) (Z.pos my) ltac:(lia)) as MB.
  unfold Z.modulo in MB.
  destruct (Z.div_eucl (Z.pos mx * 2 ^ prec) (Z.pos my)) as [q r].
  assert (Q : (2 ^ (prec - 1) <= q < 2 * 2 ^ prec)%Z) by nia.
  destruct q as [ | q | q]; [ lia | | lia ].
  assert (Dq : (prec <= Z.pos (digits2_pos q) <= prec + 1)%Z).
  { pose proof (digits2_pos_bounds q) as [Lq Uq]. split.
    - destruct (Z.le_gt_cases prec (Z.pos (digits2_pos q))) as [ | G];
        [ assumption | exfalso ].
      assert (2 ^ Z.pos (digits2_pos q) <= 2 ^ (prec - 1))%Z
        by (apply Z.pow_le_mono_r; lia).
      lia.
    - apply (Zdigits2_le (Z.pos q)); [ lia | lia | ].
      rewrite Z.pow_add_r by lia. cbn [Z.abs]. change (2 ^ 1)%Z with 2%Z.
      lia. }
  set (a := IZR (Z.pos mx) * bpow ex) in *.
  set (b := IZR (Z.pos my) * bpow ey) in *.
  assert (Pa : 0 < a).
  { subst a. apply Rmult_lt_0_compat; [ apply IZR_lt; lia | apply bpow_pos ]. }
  assert (Pb : 0 < b).
  { subst b. apply Rmult_lt_0_compat; [ apply IZR_lt; lia | apply bpow_pos ]. }
  assert (Hu : IZR (Z.pos q) * bpow (ex - ey - prec) <= a / b
               < IZR (Z.pos q + 1) * bpow (ex - ey - prec)).
  { assert (Eab : a / b = IZR (Z.pos mx * 2 ^ prec) / IZR (Z.pos my)
                          * bpow (ex - ey - prec)).
    { subst a b. rewrite mult_IZR, bpow_IZR by lia.
      replace (ex - ey - prec)%Z with (ex + (- ey + - prec))%Z by lia.
      rewrite !bpow_add.
      rewrite !bpow_opp.
      pose proof (bpow_pos ey). pose proof (bpow_pos prec).
      assert (Pm : 0 < IZR (Z.pos my)) by (apply IZR_lt; lia).
      field. repeat split; lra. }
    rewrite Eab.
    pose proof (bpow_pos (ex - ey - prec)) as Pe.
    assert (Pm : 0 < IZR (Z.pos my)) by (apply IZR_lt; lia).
    rewrite DE. split.
    - apply Rmult_le_compat_r; [ lra | ].
      apply (Rmult_le_reg_r (IZR (Z.pos my))); [ exact Pm | ].
      unfold Rdiv. rewrite Rmult_assoc, Rinv_l, Rmult_1_r by lra.
      rewrite <- mult_IZR. apply IZR_le. lia.
    - apply Rmult_lt_compat_r; [ lra | ].
      apply (Rmult_lt_reg_r (IZR (Z.pos my))); [ exact Pm | ].
      unfold Rdiv. rewrite Rmult_assoc, Rinv_l, Rmult_1_r by lra.
      rewrite <- mult_IZR. apply IZR_lt. lia. }
  destruct (binary_round_aux_within (xorb sx sy) q (ex - ey - prec)
              (new_location (Z.pos my) r) (a / b))
    as (m & e & E & Dm & Em & Vm); try lia; [ exact Hu | ].
  exists m, e.
  split; [ exact E | ]. split; [ exact Dm | ]. split; [ lia | ].
  pose proof eps_bounds as [E0 E1].
  set (eps := bpow (1 - prec)) in *.
  assert (PUy : 0 < Uy) by nra.
  assert (A1 : vx / vy * (Lx / Uy) <= a / b).
  { replace (vx / vy * (Lx / Uy)) with (vx * Lx / (vy * Uy))
      by (field; split; lra).
    apply (Rmult_le_reg_r (vy * Uy)); [ nra | ].
    unfold Rdiv at 1. rewrite Rmult_assoc, Rinv_l, Rmult_1_r by nra.
    apply Rle_trans with a; [ lra | ].
    replace a with (a / b * b) at 1 by (field; lra).
    apply Rmult_le_compat_l; [ | lra ].
    apply Rlt_le, Rdiv_lt_0_compat; assumption. }
  assert (A2 : a / b <= vx / vy * (Ux / Ly)).
  { replace (vx / vy * (Ux / Ly)) with (vx * Ux / (vy * Ly))
      by (field; split; lra).
    apply (Rmult_le_reg_r (vy * Ly)); [ nra | ].
    unfold Rdiv at 2. rewrite Rmult_assoc, Rinv_l, Rmult_1_r by nra.
    apply Rle_trans with a; [ | lra ].
    replace a with (a / b * b) at 2 by (field; lra).
    apply Rmult_le_compat_l; [ | lra ].
    apply Rlt_le, Rdiv_lt_0_compat; assumption. }
  assert (A0 : 0 < a / b) by (apply Rdiv_lt_0_compat; assumption).
  split.
  - apply Rle_trans with (2 := proj1 Vm).
    rewrite <- Rmult_assoc. apply Rmult_le_compat_r; lra.
  - apply Rle_trans with (1 := proj2 Vm).
    rewrite <- Rmult_assoc. apply Rmult_le_compat_r; lra.
Qed.

End Within.

End FloatError.

Module TimeError.
Import Reals Lra.
Import Float FloatFacts Real FloatError.
Local Open Scope R_scope.

Lemma eps64 : bpow (1 - prec64) = / 4503599627370496.
Proof.
  change (1 - prec64)%Z with (Z.opp 52). rewrite bpow_opp, <- bpow_IZR by lia.
  reflexivity.
Qed.

Lemma eps32 : bpow (1 - prec32) = / 8388608.
Proof.
  change (1 - prec32)%Z with (Z.opp 23). rewrite bpow_opp, <- bpow_IZR by lia.
  reflexivity.
Qed.

Lemma double_of_ll_within (z : Z) :
  z <> 0%Z -> in_int64 z ->
  within prec64 (double_of_ll z) (z <? 0)%Z
    (Zdigits2 z - 53) (Zdigits2 z - 52)
    (IZR (Z.abs z)) (1 - bpow (1 - prec64)) (1 + bpow (1 - prec64)).
Proof.
  intros Hz Hr.
  assert (D : (Zdigits2 z <= 64)%Z).
  { apply Zdigits2_le; [ exact Hz | lia | ].
    unfold in_int64, INT64_MIN, INT64_MAX in Hr. lia. }
  pose proof (Zdigits2_pos z Hz) as P.
  destruct format64 as [Hp _].
  unfold double_of_ll.
  destruct z as [ | p | p]; [ congruence | | ];
    cbn [binary_normalize Z.ltb Z.compare Z.abs];
    cbn [Zdigits2] in D, P |- *;
    replace (Z.pos (digits2_pos p) - 52)%Z
      with (Z.pos (digits2_pos p) + 0 - prec64 + 1)%Z
      by (unfold prec64; lia);
    replace (Z.pos (digits2_pos p) - 53)%Z
      with (Z.pos (digits2_pos p) + 0 - prec64)%Z by (unfold prec64; lia);
    replace (IZR (Z.pos p)) with (IZR (Z.pos p) * bpow 0)
      by (rewrite bpow_0; ring);
    apply (binary_round_within prec64 emax64 Hp);
    unfold emin, prec64, emax64; lia.
Qed.

Lemma lit_1e9_within :
  within prec64 lit_1e9 false (-23) (-23) 1000000000 1 1.
Proof.
  exists 8388608000000000%positive, (-23)%Z.
  split; [ reflexivity | ]. split; [ reflexivity | ]. split; [ lia | ].
  assert (E : IZR (Z.pos 8388608000000000) * bpow (-23) = 1000000000).
  { change (Z.pos 8388608000000000) with (1000000000 * 2 ^ 23)%Z.
    rewrite mult_IZR, bpow_IZR, Rmult_assoc, <- bpow_add by lia.
    change (23 + -23)%Z with 0%Z. rewrite bpow_0. ring. }
  rewrite E. lra.
Qed.

Lemma float_of_double_within (x : spec_float) (s : bool) (lo hi : Z)
  (v L U : R) :
  within prec64 x s lo hi v L U -> (-178 <= lo)%Z -> (hi <= 74)%Z ->
  0 < v -> 0 <= L ->
  within prec32 (float_of_double x) s (lo + 29) (hi + 30) v
    (L * (1 - bpow (1 - prec32))) (U * (1 + bpow (1 - prec32))).
Proof.
  intros (m & e & -> & Dm & Ee & Vm) Lo Hi Pv PL. cbn [float_of_double].
  destruct format32 as [Hp _].
  destruct (binary_round_within prec32 emax32 Hp s m e)
    as (m' & e' & E & D & B & V);
    rewrite ?Dm; unfold emin, prec32, prec64, emax32 in *; try lia.
  exists m', e'.
  split; [ exact E | ]. split; [ exact D | ]. split; [ lia | ].
  pose proof (eps_bounds 24 ltac:(lia)) as [E0 E1].
  set (eps := bpow (1 - 24)) in *.
  set (a := IZR (Z.pos m) * bpow e) in *.
  split.
  - apply Rle_trans with (2 := proj1 V).
    rewrite <- Rmult_assoc. apply Rmult_le_compat_r; lra.
  - apply Rle_trans with (1 := proj2 V).
    rewrite <- Rmult_assoc. apply Rmult_le_compat_r; lra.
Qed.

(** The integer part of a finite number and its magnitude. *)
Lemma trunc_value (s : bool) (m : positive) (e : Z) :
  exists v,
    trunc (S754_finite s m e) = Some (cond_Zopp s v)
    /\ (0 <= v)%Z
    /\ IZR v <= IZR (Z.pos m) * bpow e < IZR v + 1.
Proof.
  cbn [trunc].
  exists (if (0 <=? e)%Z then (Z.pos m * 2 ^ e)%Z
          else (Z.pos m / 2 ^ (- e))%Z).
  split; [ reflexivity | ].
  destruct (Z.leb_spec 0 e) as [Pe | Ne].
  - assert (0 < 2 ^ e)%Z by (apply Z.pow_pos_nonneg; lia).
    split; [ lia | ]. rewrite mult_IZR, bpow_IZR by lia. lra.
  - assert (P : (0 < 2 ^ (- e))%Z) by (apply Z.pow_pos_nonneg; lia).
    pose proof (Z.div_mod (Z.pos m) (2 ^ (- e)) ltac:(lia)) as DM.
    pose proof (Z.mod_pos_bound (Z.pos m) (2 ^ (- e)) P) as MB.
    set (k := (Z.pos m / 2 ^ (- e))%Z) in *.
    split; [ apply Z.div_pos; lia | ].
    pose proof (bpow_pos e) as Be.
    assert (I : IZR (2 ^ (- e)) * bpow e = 1).
    { rewrite bpow_IZR, <- bpow_add by lia.
      replace (- e + e)%Z with 0%Z by lia. reflexivity. }
    assert (L1 : IZR (k * 2 ^ (- e)) <= IZR (Z.pos m))
      by (apply IZR_le; lia).
    assert (L2 : IZR (Z.pos m) < IZR ((k + 1) * 2 ^ (- e)))
      by (apply IZR_lt; lia).
    rewrite mult_IZR in L1, L2. rewrite plus_IZR in L2.
    split.
    + replace (IZR k) with (IZR k * IZR (2 ^ (- e)) * bpow e)
        by (rewrite Rmult_assoc, I; ring).
      apply Rmult_le_compat_r; lra.
    + replace (IZR k + 1) with ((IZR k + 1) * IZR (2 ^ (- e)) * bpow e)
        by (rewrite Rmult_assoc, I; ring).
      apply Rmult_lt_compat_r; lra.
Qed.

Lemma ll_of_float_value (s : bool) (m : positive) (e t : Z) :
  ll_of_float (S754_finite s m e) = Some t ->
  t = cond_Zopp s (Z.abs t)
  /\ IZR (Z.abs t) <= IZR (Z.pos m) * bpow e < IZR (Z.abs t) + 1.
Proof.
  unfold ll_of_float.
  destruct (trunc_value s m e) as (v & -> & V0 & V).
  destruct ((INT64_MIN <=? cond_Zopp s v)%Z && (cond_Zopp s v <=? INT64_MAX)%Z);
    [ | discriminate ].
  intros [= <-].
  assert (A : Z.abs (cond_Zopp s v) = v) by (destruct s; cbn; lia).
  rewrite A. split; [ reflexivity | exact V ].
Qed.

(** The local [floatValue] and the exact quotient. *)
Lemma floatValue_within (self : CSystemUtilsWindows)
  (before after : SystemTimeStamp) :
  let d := (counterValue after - counterValue before)%Z in
  let q := m_counterFrequency self in
  in_int64 d -> d <> 0%Z -> in_int64 q -> q <> 0%Z ->
  within prec32 (floatValue self before after) (xorb (d <? 0) (q <? 0))%Z
    (Zdigits2 d - Zdigits2 q + 4) (Zdigits2 d - Zdigits2 q + 11)
    (IZR (Z.abs d) * (1000000000 / IZR (Z.abs q)))
    (1 - / 4194304) (1 + / 4194304).
Proof.
  intros d q Hd Hd0 Hq Hq0. unfold floatValue. fold d q.
  rewrite (wrap64_id d Hd).
  pose proof (double_of_ll_within d Hd0 Hd) as X.
  pose proof (double_of_ll_within q Hq0 Hq) as Y.
  assert (Dd : (0 < Zdigits2 d <= 64)%Z).
  { split; [ apply Zdigits2_pos; exact Hd0 | ].
    apply Zdigits2_le; [ exact Hd0 | lia | ].
    unfold in_int64, INT64_MIN, INT64_MAX in Hd. lia. }
  assert (Dq : (0 < Zdigits2 q <= 64)%Z).
  { split; [ apply Zdigits2_pos; exact Hq0 | ].
    apply Zdigits2_le; [ exact Hq0 | lia | ].
    unfold in_int64, INT64_MIN, INT64_MAX in Hq. lia. }
  assert (Pd : 0 < IZR (Z.abs d)) by (apply IZR_lt; lia).
  assert (Pq : 0 < IZR (Z.abs q)) by (apply IZR_lt; lia).
  destruct format64 as [Hp He].
  rewrite eps64 in X, Y.
  pose proof (SFdiv_within prec64 emax64 Hp _ _ _ _ _ _ _ _ _ _ _ _ _ _
                lit_1e9_within Y) as K.
  unfold emin, prec64, emax64 in K. cbn [xorb] in K.
  specialize (K ltac:(lra) Pq ltac:(lra) ltac:(lra) ltac:(lia) ltac:(lia)).
  pose proof (SFmul_within prec64 emax64 Hp _ _ _ _ _ _ _ _ _ _ _ _ _ _ X K)
    as P.
  unfold emin, prec64, emax64 in P.
  assert (Pk : 0 < 1000000000 / IZR (Z.abs q))
    by (apply Rdiv_lt_0_compat; lra).
  specialize (P Pd Pk ltac:(lra)).
  change (bpow (1 - 53)) with (bpow (1 - prec64)) in P. rewrite eps64 in P.
  specialize (P ltac:(lra) ltac:(lia) ltac:(lia)).
  pose proof (float_of_double_within _ _ _ _ _ _ _ P ltac:(lia) ltac:(lia))
    as F.
  rewrite eps32 in F.
  specialize (F ltac:(apply Rmult_lt_0_compat; lra) ltac:(lra)).
  destruct F as (m & e & E & D & B & V).
  exists m, e.
  split; [ exact E | ]. split; [ exact D | ]. split; [ lia | ].
  set (v := IZR (Z.abs d) * (1000000000 / IZR (Z.abs q))) in *.
  assert (Pv : 0 < v) by (apply Rmult_lt_0_compat; lra).
  split.
  - apply Rle_trans with (2 := proj1 V).
    apply Rmult_le_compat_l; lra.
  - apply Rle_trans with (1 := proj2 V).
    apply Rmult_le_compat_l; lra.
Qed.

(** Equal stamps: the difference is a zero of [float]. *)
Lemma floatValue_equal (self : CSystemUtilsWindows)
  (before after : SystemTimeStamp) :
  let q := m_counterFrequency self in
  counterValue after = counterValue before -> in_int64 q -> q <> 0%Z ->
  exists s, floatValue self before after = S754_zero s.
Proof.
  intros q E Hq Hq0. unfold floatValue. fold q. rewrite E, Z.sub_diag.
  change (wrap64 0) with 0%Z. change (double_of_ll 0) with (S754_zero false).
  destruct format64 as [Hp He].
  pose proof (SFdiv_normal prec64 emax64 Hp _ _ _ _ _ _ _ _ lit_1e9_normal
                (double_of_ll_normal q Hq0 Hq)) as K.
  assert (Dq : (0 < Zdigits2 q <= 64)%Z).
  { split; [ apply Zdigits2_pos; exact Hq0 | ].
    apply Zdigits2_le; [ exact Hq0 | lia | ].
    unfold in_int64, INT64_MIN, INT64_MAX in Hq. lia. }
  unfold ddiv. unfold emin, prec64, emax64 in *.
  destruct (K ltac:(lia) ltac:(lia)) as (m & e & -> & _).
  cbn. eauto.
Qed.

(** From the bounds on the [float] to the integers of the result. *)
Lemma accuracy_bound (T D Q : Z) (F : R) :
  (0 < D)%Z -> (0 < Q)%Z -> (0 <= T)%Z ->
  IZR T <= F < IZR T + 1 ->
  IZR D * (1000000000 / IZR Q) * (1 - / 4194304) <= F
  <= IZR D * (1000000000 / IZR Q) * (1 + / 4194304) ->
  (2 ^ 22 * Z.abs (T * Q - D * 10 ^ 9) <= D * 10 ^ 9 + 2 ^ 22 * Q)%Z.
Proof.
  intros PD PQ PT [T1 T2] [F1 F2].
  assert (RD : 0 < IZR D) by (apply IZR_lt; lia).
  assert (RQ : 0 < IZR Q) by (apply IZR_lt; lia).
  set (v := IZR D * (1000000000 / IZR Q)) in *.
  assert (Ev : v * IZR Q = IZR D * 1000000000)
    by (subst v; field; lra).
  assert (Up : (2 ^ 22 * (T * Q) <= 2 ^ 22 * (D * 10 ^ 9) + D * 10 ^ 9)%Z).
  { apply le_IZR. rewrite plus_IZR, !mult_IZR.
    change (IZR (2 ^ 22)) with 4194304. change (IZR (10 ^ 9)) with 1000000000.
    assert (H : IZR T * IZR Q <= v * (1 + / 4194304) * IZR Q)
      by (apply Rmult_le_compat_r; lra).
    replace (v * (1 + / 4194304) * IZR Q)
      with (v * IZR Q * (1 + / 4194304)) in H by ring.
    rewrite Ev in H. lra. }
  assert (Lo : (2 ^ 22 * (D * 10 ^ 9) - D * 10 ^ 9
                < 2 ^ 22 * ((T + 1) * Q))%Z).
  { apply lt_IZR. rewrite minus_IZR, !mult_IZR, plus_IZR.
    change (IZR (2 ^ 22)) with 4194304. change (IZR (10 ^ 9)) with 1000000000.
    assert (H : v * (1 - / 4194304) * IZR Q < (IZR T + 1) * IZR Q)
      by (apply Rmult_lt_compat_r; lra).
    replace (v * (1 - / 4194304) * IZR Q)
      with (v * IZR Q * (1 - / 4194304)) in H by ring.
    rewrite Ev in H. lra. }
  lia.
Qed.

End TimeError.


(** X12.  Accuracy.  Given the non-zero frequency [q] stored by [Init]
    and valid ticks less than 2^28 seconds apart, [TimeStampExactDiff]
    returns a value [t] within one nanosecond plus a 2^-22 part of the
    exact quotient [(after - before) * 10^9 / q]; multiplied out:
    [2^22 * |t * q - d * 10^9| <= |d| * 10^9 + 2^22 * |q|]. *)
Theorem TimeStampExactDiff_accuracy (q : Z) (self : CSystemUtilsWindows)
  (before after : SystemTimeStamp) :
  let d := counterValue after - counterValue before in
  Init q = Some self -> in_int64 q -> valid_tick before -> valid_tick after ->
  Z.abs d < 2 ^ 28 * Z.abs q ->
  exists t,
    TimeStampExactDiff self before after = Some t
    /\ 2 ^ 22 * Z.abs (t * q - d * 10 ^ 9)
       <= Z.abs d * 10 ^ 9 + 2 ^ 22 * Z.abs q.
Proof.
  intros d HI Hq Hb Ha Hlt. apply Init_Some in HI as [Hq0 Hf].
  assert (Hd : in_int64 d).
  { unfold valid_tick, in_int64, INT64_MIN, INT64_MAX in *. subst d. lia. }
  destruct (Z.eq_dec d 0) as [E0 | Hd0].
  - destruct (TimeError.floatValue_equal self before after) as [s Es];
      [ subst d; lia | rewrite Hf; exact Hq | rewrite Hf; exact Hq0 | ].
    exists 0. unfold TimeStampExactDiff. rewrite Es. split; [ reflexivity | ].
    rewrite E0. simpl (0 * q - 0 * 10 ^ 9). lia.
  - destruct (TimeStampExactDiff_defined self before after) as (t & Ht & _);
      try (rewrite Hf); try assumption.
    exists t. split; [ exact Ht | ].
    pose proof (TimeError.floatValue_within self before after) as W.
    cbv zeta in W. fold d in W. rewrite Hf in W.
    specialize (W Hd Hd0 Hq Hq0).
    destruct W as (m & e & E & _ & _ & V).
    unfold TimeStampExactDiff in Ht. rewrite E in Ht.
    destruct (TimeError.ll_of_float_value _ _ _ _ Ht) as (St & Vt).
    pose proof (TimeError.accuracy_bound (Z.abs t) (Z.abs d) (Z.abs q) _
                  ltac:(lia) ltac:(lia) ltac:(lia) Vt V) as B.
    replace (Z.abs (t * q - d * 10 ^ 9))
      with (Z.abs (Z.abs t * Z.abs q - Z.abs d * 10 ^ 9)); [ exact B | ].
    rewrite St.
    destruct (Z.ltb_spec d 0), (Z.ltb_spec q 0); cbn [xorb cond_Zopp]; nia.
Qed.

Lemma TimeStampExactDiff_accuracy_witness :
  exists t,
    TimeStampExactDiff {| m_counterFrequency := 3000000000 |}
      {| counterValue := 0 |} {| counterValue := 29999999 |} = Some t
    /\ 2 ^ 22 * Z.abs (t * 3000000000 - (29999999 - 0) * 10 ^ 9)
       <= Z.abs (29999999 - 0) * 10 ^ 9 + 2 ^ 22 * Z.abs 3000000000.
Proof.
  apply (TimeStampExactDiff_accuracy 3000000000
           {| m_counterFrequency := 3000000000 |}
           {| counterValue := 0 |} {| counterValue := 29999999 |}).
  - reflexivity.
  - unfold in_int64, INT64_MIN, INT64_MAX. lia.
  - unfold valid_tick, INT64_MAX. simpl. lia.
  - unfold valid_tick, INT64_MAX. simpl. lia.
  - simpl. lia.
Defined.

(* ================================================================== *)
(** * Time stamps: interpolation *)

Module InterpolateFacts.
Import Reals Lra.
Import Float FloatFacts Real FloatError.
Local Open Scope R_scope.

(** A [float] converts to [double] without rounding. *)
Lemma double_of_float_exact (s : bool) (m : positive) (e : Z) :
  valid_binary prec32 emax32 (S754_finite s m e) = true ->
  exists mY eY,
    double_of_float (S754_finite s m e) = S754_finite s mY eY
    /\ Z.pos (digits2_pos mY) = 53%Z
    /\ (-201 <= eY <= e)%Z
    /\ IZR (Z.pos mY) * bpow eY = IZR (Z.pos m) * bpow e.
Proof.
  intros V. cbn [valid_binary] in V.
  unfold SpecFloat.bounded, canonical_mantissa in V.
  apply andb_prop in V as [C E]. apply Z.eqb_eq in C. apply Z.leb_le in E.
  unfold fexp, emin, prec32, emax32 in C, E.
  set (d := Z.pos (digits2_pos m)) in *.
  assert (Hd : (0 < d <= 24)%Z) by (subst d; lia).
  set (k := (53 - d)%Z).
  assert (Pk : (0 < Z.pos m * 2 ^ k)%Z).
  { apply Z.mul_pos_pos; [ lia | apply Z.pow_pos_nonneg; lia ]. }
  assert (EM : Z.pos (Z.to_pos (Z.pos m * 2 ^ k)) = (Z.pos m * 2 ^ k)%Z)
    by (apply Z2Pos.id; exact Pk).
  assert (DM : Z.pos (digits2_pos (Z.to_pos (Z.pos m * 2 ^ k))) = 53%Z).
  { rewrite (digits2_pos_shift m (Z.to_pos (Z.pos m * 2 ^ k)) k
               ltac:(lia) EM).
    fold d. lia. }
  exists (Z.to_pos (Z.pos m * 2 ^ k)), (e - k)%Z.
  split; [ | split; [ exact DM | split; [ lia | ] ] ].
  - cbn [double_of_float]. apply binary_round_exact.
    + unfold SpecFloat.bounded, canonical_mantissa. rewrite DM.
      apply andb_true_intro; split.
      * apply Z.eqb_eq. unfold fexp, emin, prec64, emax64. lia.
      * apply Z.leb_le. unfold prec64, emax64. lia.
    + left. split; [ lia | ]. rewrite EM. f_equal. f_equal. lia.
  - rewrite EM, mult_IZR, bpow_IZR by lia.
    rewrite Rmult_assoc, <- bpow_add. f_equal. f_equal. lia.
Qed.

(** A difference of at most 2^53 converts to [double] without
    rounding. *)
Lemma double_of_ll_exact_value (d : Z) :
  d <> 0%Z -> (Z.abs d <= 2 ^ 53)%Z ->
  exists mX eX,
    double_of_ll d = S754_finite (d <? 0)%Z mX eX
    /\ Z.pos (digits2_pos mX) = 53%Z
    /\ (-52 <= eX <= 1)%Z
    /\ IZR (Z.pos mX) * bpow eX = IZR (Z.abs d).
Proof.
  intros Hd Hle.
  destruct (Z.eq_dec (Z.abs d) (2 ^ 53)) as [E | NE].
  - assert (V : IZR (Z.pos 4503599627370496) * bpow 1 = IZR (2 ^ 53)).
    { rewrite <- bpow_IZR by lia. rewrite <- mult_IZR. reflexivity. }
    destruct (Z.abs_spec d) as [[_ A] | [_ A]]; rewrite A in E.
    + rewrite E. exists 4503599627370496%positive, 1%Z.
      split; [ vm_compute; reflexivity | ].
      split; [ reflexivity | ]. split; [ lia | exact V ].
    + replace d with (- 2 ^ 53)%Z by lia.
      exists 4503599627370496%positive, 1%Z.
      split; [ vm_compute; reflexivity | ].
      split; [ reflexivity | ]. split; [ lia | exact V ].
  - assert (Hlt : (Z.abs d < 2 ^ 53)%Z) by lia.
    rewrite (double_of_ll_exact d Hlt).
    rewrite (canon_finite prec64 d Hd).
    pose proof (canon_mantissa prec64 ltac:(unfold prec64; lia) d Hd Hlt) as M.
    pose proof (canon_digits prec64 ltac:(unfold prec64; lia) d Hd Hlt) as D.
    pose proof (Zdigits2_le d 53 Hd ltac:(lia) Hlt) as Le.
    pose proof (Zdigits2_pos d Hd) as P.
    unfold prec64 in *.
    eexists _, _. split; [ reflexivity | ]. split; [ exact D | ].
    split; [ lia | ].
    rewrite M, mult_IZR, bpow_IZR by lia.
    rewrite Rmult_assoc, <- bpow_add.
    replace (53 - Zdigits2 d + (Zdigits2 d - 53))%Z with 0%Z by lia.
    rewrite bpow_0. ring.
Qed.

Section Below.
Variables prec emax : Z.
Hypothesis prec_pos : (0 < prec)%Z.

(** Rounding never passes a bound that lies on the grid of the
    truncated exponent. *)
Lemma binary_round_aux_below (s : bool) (M : positive) (e : Z)
  (l : location) (g : Z) :
  (prec <= Z.pos (digits2_pos M))%Z ->
  (emin prec emax <= e + (Z.pos (digits2_pos M) - prec))%Z ->
  (e + (Z.pos (digits2_pos M) - prec) + 1 <= emax - prec)%Z ->
  (Z.pos M < g * 2 ^ (Z.pos (digits2_pos M) - prec))%Z ->
  exists m' e',
    binary_round_aux prec emax s (Z.pos M) e l = S754_finite s m' e'
    /\ IZR (Z.pos m') * bpow e'
       <= IZR g * bpow (e + (Z.pos (digits2_pos M) - prec)).
Proof using prec_pos.
  intros Hd He Hmax Hg.
  destruct (binary_round_aux_value prec emax s M e l prec_pos Hd He Hmax)
    as (m' & e' & E & _ & B & _ & G).
  exists m', e'. split; [ exact E | ].
  set (n := (Z.pos (digits2_pos M) - prec)%Z) in *.
  assert (Hn : (0 <= n)%Z) by (unfold n; lia).
  assert (Pn : (0 < 2 ^ n)%Z) by (apply Z.pow_pos_nonneg; lia).
  assert (Q : (Z.pos M / 2 ^ n + 1 <= g)%Z).
  { assert (Z.pos M / 2 ^ n < g)%Z; [ | lia ].
    apply Z.div_lt_upper_bound; [ exact Pn | lia ]. }
  assert (G' : (Z.pos m' * 2 ^ (e' - e) <= g * 2 ^ n)%Z) by nia.
  replace e' with ((e' - e) + e)%Z at 1 by lia.
  replace (e + n)%Z with (n + e)%Z by lia.
  rewrite !bpow_add, <- (bpow_IZR (e' - e)), <- (bpow_IZR n) by lia.
  rewrite <- !Rmult_assoc, <- !mult_IZR.
  apply Rmult_le_compat_r; [ apply Rlt_le, bpow_pos | ].
  apply IZR_le. lia.
Qed.

End Below.

(** The product of a difference and a fraction below one does not
    exceed the difference. *)
Lemma dmul_below (d : Z) (m : positive) (e : Z) :
  d <> 0%Z -> (Z.abs d <= 2 ^ 53)%Z ->
  valid_binary prec32 emax32 (S754_finite false m e) = true ->
  IZR (Z.pos m) * bpow e < 1 ->
  exists m' e',
    dmul (double_of_ll d) (double_of_float (S754_finite false m e))
    = S754_finite (d <? 0)%Z m' e'
    /\ IZR (Z.pos m') * bpow e' <= IZR (Z.abs d).
Proof.
  intros Hd Hle V Hlt.
  destruct (double_of_ll_exact_value d Hd Hle) as (mX & eX & -> & DX & EX & VX).
  destruct (double_of_float_exact false m e V) as (mY & eY & -> & DY & EY & VY).
  rewrite <- VY in Hlt. rewrite <- VX.
  pose proof (digits2_pos_bounds mY) as [LY UY]. rewrite DY in LY, UY.
  change (53 - 1)%Z with 52%Z in LY.
  (* the fraction is below one: its exponent is below -52 *)
  assert (HeY : (eY <= -53)%Z).
  { destruct (Z.le_gt_cases eY (-53)) as [ | G]; [ assumption | exfalso ].
    assert (B : bpow (-52) <= bpow eY).
    { replace eY with ((eY + 52) + -52)%Z by lia. rewrite bpow_add.
      rewrite <- (bpow_IZR (eY + 52)) by lia. pose proof (bpow_pos (-52)).
      assert (1 <= IZR (2 ^ (eY + 52))).
      { apply IZR_le.
        assert (0 < 2 ^ (eY + 52))%Z by (apply Z.pow_pos_nonneg; lia). lia. }
      nra. }
    assert (I : IZR (2 ^ 52) * bpow (-52) = 1).
    { rewrite bpow_IZR, <- bpow_add by lia. reflexivity. }
    assert (T : IZR (2 ^ 52) <= IZR (Z.pos mY)) by (apply IZR_le; exact LY).
    pose proof (bpow_pos (-52)). pose proof (bpow_pos eY).
    assert (0 < IZR (2 ^ 52)) by (apply IZR_lt; lia).
    nra. }
  assert (HmY : (Z.pos mY < 2 ^ (- eY))%Z).
  { apply lt_IZR. rewrite bpow_IZR by lia.
    assert (I : bpow (- eY) * bpow eY = 1).
    { rewrite <- bpow_add. replace (- eY + eY)%Z with 0%Z by lia.
      reflexivity. }
    pose proof (bpow_pos eY). pose proof (bpow_pos (- eY)). nra. }
  unfold dmul. cbn [SFmul xorb].
  replace (xorb (d <? 0)%Z false) with (d <? 0)%Z by (destruct (d <? 0)%Z; reflexivity).
  pose proof (digits2_pos_mul mX mY) as D. rewrite DX, DY in D.
  set (n := (Z.pos (digits2_pos (mX * mY)) - prec64)%Z).
  assert (Hn : (52 <= n <= 53)%Z) by (unfold n, prec64; lia).
  destruct format64 as [Hp _].
  destruct (binary_round_aux_below prec64 emax64 Hp (d <? 0)%Z (mX * mY)
              (eX + eY) loc_Exact (Z.pos mX * 2 ^ (- n - eY)))
    as (m' & e' & E & B).
  - fold n. unfold prec64 in *. lia.
  - fold n. unfold emin, prec64, emax64. lia.
  - fold n. unfold prec64, emax64. lia.
  - fold n. rewrite Pos2Z.inj_mul, <- Z.mul_assoc, <- Z.pow_add_r by lia.
    replace (- n - eY + n)%Z with (- eY)%Z by lia.
    apply Z.mul_lt_mono_pos_l; lia.
  - exists m', e'. split; [ exact E | ].
    apply Rle_trans with (1 := B). fold n.
    rewrite mult_IZR, bpow_IZR, Rmult_assoc, <- bpow_add by lia.
    replace (- n - eY + (eX + eY + n))%Z with eX by lia. lra.
Qed.

(** What [InterpolateTimeStamp] adds to [a], for a fraction between 0
    and 1: a value between 0 and the difference. *)
Lemma interpolate_step (d : Z) (i : spec_float) :
  (Z.abs d <= 2 ^ 53)%Z ->
  valid_binary prec32 emax32 i = true ->
  SFleb lit_0 i = true -> SFleb i lit_1 = true ->
  exists x,
    ll_of_float (dmul (double_of_ll d) (double_of_float i)) = Some x
    /\ ((0 <= x <= d)%Z \/ (d <= x <= 0)%Z).
Proof.
  intros Hle V H0 H1.
  assert (Hr : in_int64 d) by (unfold in_int64, INT64_MIN, INT64_MAX; lia).
  destruct i as [s | s | | s m e]; try discriminate.
  - (* a zero *)
    destruct (dmul_zero_r (double_of_ll d) s) as [s' E];
      [ apply double_of_ll_is_finite; exact Hr | ].
    cbn [double_of_float]. rewrite E. exists 0%Z.
    split; [ reflexivity | lia ].
  - destruct s; [ discriminate H0 | discriminate H1 ].
  - destruct s; [ discriminate H0 | ].
    destruct (Z.eq_dec d 0) as [-> | Hd].
    { destruct (double_of_float_exact false m e V) as (mY & eY & -> & _).
      exists 0%Z. split; [ reflexivity | lia ]. }
    assert (Hi : S754_finite false m e = lit_1
                 \/ IZR (Z.pos m) * bpow e < 1).
    { cbn [valid_binary] in V.
      unfold SpecFloat.bounded, canonical_mantissa in V.
      apply andb_prop in V as [C E]. apply Z.eqb_eq in C.
      unfold fexp, emin, prec32, emax32 in C.
      pose proof (digits2_pos_bounds m) as [Lm Um].
      unfold SFleb, SFcompare, lit_1 in H1.
      destruct (Z.compare_spec e (-23)) as [Ee | Le | Ge];
        [ | | discriminate ].
      - left. subst e.
        assert (D : Z.pos (digits2_pos m) = 24%Z) by lia.
        rewrite D in Lm. change (2 ^ (24 - 1))%Z with 8388608%Z in Lm.
        change (Pos.compare_cont Eq m 8388608) with (Pos.compare m 8388608)
          in H1.
        destruct (Pos.compare_spec m 8388608) as [-> | Hlo | Hhi];
          [ reflexivity | lia | discriminate H1 ].
      - right.
        assert (D : (Z.pos (digits2_pos m) <= 24)%Z) by lia.
        assert (U : (Z.pos m < 2 ^ 24)%Z).
        { apply Z.lt_le_trans with (1 := Um). apply Z.pow_le_mono_r; lia. }
        assert (B : bpow e <= bpow (-24)).
        { replace (-24)%Z with ((-24 - e) + e)%Z by lia. rewrite bpow_add.
          rewrite <- (bpow_IZR (-24 - e)) by lia. pose proof (bpow_pos e).
          assert (1 <= IZR (2 ^ (-24 - e))).
          { apply IZR_le.
            assert (0 < 2 ^ (-24 - e))%Z by (apply Z.pow_pos_nonneg; lia).
            lia. }
          nra. }
        assert (I : IZR (2 ^ 24) * bpow (-24) = 1).
        { rewrite bpow_IZR, <- bpow_add by lia. reflexivity. }
        assert (T : IZR (Z.pos m) < IZR (2 ^ 24)) by (apply IZR_lt; exact U).
        assert (0 < IZR (Z.pos m)) by (apply IZR_lt; lia).
        pose proof (bpow_pos (-24)). pose proof (bpow_pos e). nra. }
    destruct Hi as [-> | Hlt].
    + (* the fraction is one: the product is the difference *)
      exists d. split; [ | lia ].
      destruct (Z.eq_dec (Z.abs d) (2 ^ 53)) as [E | NE].
      * destruct (Z.abs_spec d) as [[_ A] | [_ A]]; rewrite A in E.
        -- rewrite E. vm_compute. reflexivity.
        -- replace d with (- 2 ^ 53)%Z by lia. vm_compute. reflexivity.
      * assert (Hlt : (Z.abs d < 2 ^ 53)%Z) by lia.
        rewrite (double_of_ll_exact d Hlt).
        change (double_of_float lit_1) with (canon prec64 1).
        destruct format64 as [Hp He]. unfold dmul.
        rewrite (SFmul_canon prec64 emax64 Hp He d 1 Hd)
          by (unfold prec64; lia).
        rewrite Z.mul_1_r. apply ll_of_float_canon; assumption || exact Hp.
    + destruct (dmul_below d m e Hd Hle V Hlt) as (m' & e' & -> & B).
      unfold ll_of_float.
      destruct (TimeError.trunc_value (d <? 0)%Z m' e') as (v & -> & V0 & Vv).
      assert (Hv : (v <= Z.abs d)%Z) by (apply le_IZR; lra).
      exists (cond_Zopp (d <? 0)%Z v).
      assert (R : (INT64_MIN <= cond_Zopp (d <? 0)%Z v <= INT64_MAX)%Z
                  /\ ((0 <= cond_Zopp (d <? 0)%Z v <= d)%Z
                      \/ (d <= cond_Zopp (d <? 0)%Z v <= 0)%Z)).
      { unfold INT64_MIN, INT64_MAX.
        destruct (Z.ltb_spec d 0); cbn [cond_Zopp]; lia. }
      destruct R as [[R1 R2] R3].
      apply Z.leb_le in R1, R2. rewrite R1, R2. split; [ reflexivity | exact R3 ].
Qed.

End InterpolateFacts.

(** X13.  For a fraction between 0 and 1 (a binary32 value [i] with
    [0 <= i] and [i <= 1]) and stamps at most 2^53 ticks apart,
    [InterpolateTimeStamp] returns a stamp that lies between [a] and
    [b], both included. *)
Theorem InterpolateTimeStamp_between (a b : SystemTimeStamp)
  (i : spec_float) :
  in_int64 (counterValue a) -> in_int64 (counterValue b) ->
  Z.abs (counterValue b - counterValue a) <= 2 ^ 53 ->
  valid_binary prec32 emax32 i = true ->
  SFleb lit_0 i = true -> SFleb i lit_1 = true ->
  exists r,
    InterpolateTimeStamp a b i = Some r
    /\ Z.min (counterValue a) (counterValue b) <= counterValue r
       <= Z.max (counterValue a) (counterValue b).
Proof.
  intros Ha Hb Hd V H0 H1. unfold InterpolateTimeStamp.
  set (d := counterValue b - counterValue a) in *.
  assert (Hr : in_int64 d) by (unfold in_int64, INT64_MIN, INT64_MAX; lia).
  rewrite (wrap64_id d Hr).
  destruct (InterpolateFacts.interpolate_step d i Hd V H0 H1) as (x & -> & Hx).
  eexists. split; [ reflexivity | ]. cbn [counterValue].
  unfold in_int64 in Ha, Hb.
  rewrite wrap64_id by (unfold in_int64; lia). lia.
Qed.

Lemma InterpolateTimeStamp_between_witness :
  exists r,
    InterpolateTimeStamp {| counterValue := 100 |} {| counterValue := 350 |}
      (S754_finite false 11184811 (-25)) = Some r
    /\ Z.min 100 350 <= counterValue r <= Z.max 100 350.
Proof.
  apply (InterpolateTimeStamp_between
           {| counterValue := 100 |} {| counterValue := 350 |}
           (S754_finite false 11184811 (-25))).
  - unfold in_int64, INT64_MIN, INT64_MAX. simpl. lia.
  - unfold in_int64, INT64_MIN, INT64_MAX. simpl. lia.
  - simpl. lia.
  - reflexivity.
  - reflexivity.
  - reflexivity.
Defined.

(** X14.  For the fraction 2^-k (1, 0.5, 0.25, ...) and stamps less
    than 2^53 ticks apart, [InterpolateTimeStamp] is exact: it returns
    [a + (b - a) / 2^k], the quotient truncated toward zero; with
    [k = 1], the midpoint. *)
Theorem InterpolateTimeStamp_pow2 (a b : SystemTimeStamp) (k : Z) :
  in_int64 (counterValue a) -> in_int64 (counterValue b) ->
  Z.abs (counterValue b - counterValue a) < 2 ^ 53 ->
  0 <= k <= 126 ->
  InterpolateTimeStamp a b (float_pow2 k)
  = Some {| counterValue :=
              counterValue a
              + Z.quot (counterValue b - counterValue a) (2 ^ k) |}.
Proof.
  intros Ha Hb Hlt Hk. unfold InterpolateTimeStamp.
  set (d := counterValue b - counterValue a) in *.
  assert (Hr : in_int64 d) by (unfold in_int64, INT64_MIN, INT64_MAX; lia).
  rewrite (wrap64_id d Hr).
  assert (P2 : 0 < 2 ^ k) by (apply Z.pow_pos_nonneg; lia).
  set (v := Z.abs d / 2 ^ k).
  assert (Hv : 0 <= v <= Z.abs d).
  { split; [ apply Z.div_pos; lia | ].
    apply Z.div_le_upper_bound; [ lia | nia ]. }
  assert (S : Z.quot d (2 ^ k) = cond_Zopp (d <? 0) v).
  { unfold v. destruct (Z.ltb_spec d 0); cbn [cond_Zopp].
    - rewrite <- Z.quot_div_nonneg by lia.
      replace (Z.abs d) with (- d) by lia.
      rewrite Z.quot_opp_l by lia. lia.
    - rewrite <- Z.quot_div_nonneg by lia.
      replace (Z.abs d) with d by lia. reflexivity. }
  rewrite S.
  assert (Rg : INT64_MIN <= cond_Zopp (d <? 0) v <= INT64_MAX
               /\ in_int64 (counterValue a + cond_Zopp (d <? 0) v)).
  { unfold in_int64, INT64_MIN, INT64_MAX in *.
    destruct (Z.ltb_spec d 0); cbn [cond_Zopp]; lia. }
  destruct Rg as [[R1 R2] R3]. apply Z.leb_le in R1, R2.
  assert (R : ll_of_float (dmul (double_of_ll d) (double_of_float (float_pow2 k)))
              = Some (cond_Zopp (d <? 0) v)).
  { assert (Y : double_of_float (float_pow2 k)
                = S754_finite false 4503599627370496 (- 52 - k)).
    { unfold float_pow2. cbn [double_of_float]. apply binary_round_exact.
      - unfold bounded, canonical_mantissa.
        change (Z.pos (digits2_pos 4503599627370496)) with 53.
        apply andb_true_intro; split.
        + apply Z.eqb_eq. unfold fexp, emin, prec64, emax64. lia.
        + apply Z.leb_le. unfold prec64, emax64. lia.
      - left. split; [ lia | ].
        replace (- 23 - k - (- 52 - k)) with 29 by lia. reflexivity. }
    rewrite Y.
    destruct (Z.eq_dec d 0) as [E0 | Hd].
    { unfold v. rewrite E0. reflexivity. }
    rewrite (double_of_ll_exact d Hlt), (canon_finite prec64 d Hd).
    pose proof (canon_mantissa prec64 ltac:(unfold prec64; lia) d Hd Hlt) as M.
    pose proof (canon_digits prec64 ltac:(unfold prec64; lia) d Hd Hlt) as D.
    pose proof (Zdigits2_le d 53 Hd ltac:(lia) Hlt) as Le.
    pose proof (Zdigits2_pos d Hd) as Pd.
    unfold prec64 in M, D |- *.
    set (mX := Z.to_pos (Z.abs d * 2 ^ (53 - Zdigits2 d))) in *.
    set (dd := Zdigits2 d) in *.
    unfold dmul. cbn [SFmul]. rewrite xorb_false_r.
    replace (dd - 53 + (- 52 - k)) with ((dd - 53 - k) - 52) by lia.
    rewrite (binary_round_aux_exact prec64 emax64 (d <? 0) mX
               (mX * 4503599627370496) (dd - 53 - k) 52).
    - unfold ll_of_float. cbn [trunc].
      assert (T : (if 0 <=? dd - 53 - k
                   then Z.pos mX * 2 ^ (dd - 53 - k)
                   else Z.pos mX / 2 ^ (- (dd - 53 - k)))
                  = v).
      { unfold v. rewrite M. destruct (Z.leb_spec 0 (dd - 53 - k)).
        - replace (53 - dd) with 0 by lia. replace k with 0 by lia.
          replace (dd - 53 - 0) with 0 by lia.
          simpl (2 ^ 0). rewrite Z.div_1_r. lia.
        - replace (- (dd - 53 - k)) with (k + (53 - dd)) by lia.
          rewrite Z.pow_add_r by lia.
          apply Z.div_mul_cancel_r; [ lia | ].
          apply Z.pow_nonzero; lia. }
      rewrite T, R1, R2. reflexivity.
    - unfold bounded, canonical_mantissa. rewrite D.
      apply andb_true_intro; split.
      + apply Z.eqb_eq. unfold fexp, emin, prec64, emax64. lia.
      + apply Z.leb_le. unfold prec64, emax64. lia.
    - lia.
    - rewrite Pos2Z.inj_mul. reflexivity. }
  rewrite R, (wrap64_id _ R3). reflexivity.
Qed.

Lemma InterpolateTimeStamp_pow2_witness :
  InterpolateTimeStamp {| counterValue := 100 |} {| counterValue := 351 |}
    (float_pow2 1)
  = Some {| counterValue := 100 + Z.quot (351 - 100) (2 ^ 1) |}.
Proof.
  apply (InterpolateTimeStamp_pow2
           {| counterValue := 100 |} {| counterValue := 351 |} 1).
  - unfold in_int64, INT64_MIN, INT64_MAX. simpl. lia.
  - unfold in_int64, INT64_MIN, INT64_MAX. simpl. lia.
  - simpl. lia.
  - lia.
Defined.

(* ================================================================== *)
(** * Time stamps and sleeping: edge cases *)

(** X15.  Given the non-zero frequency stored by [Init], the
    difference of two stamps with the same counter value is 0. *)
Theorem TimeStampExactDiff_same_stamp (q : Z) (self : CSystemUtilsWindows)
  (before after : SystemTimeStamp) :
  Init q = Some self -> in_int64 q ->
  counterValue after = counterValue before ->
  TimeStampExactDiff self before after = Some 0.
Proof.
  intros HI Hq E. apply Init_Some in HI as [Hq0 Hf].
  destruct (TimeError.floatValue_equal self before after E) as [s Es];
    [ rewrite Hf; exact Hq | rewrite Hf; exact Hq0 | ].
  unfold TimeStampExactDiff. rewrite Es. reflexivity.
Qed.

Lemma TimeStampExactDiff_same_stamp_witness :
  TimeStampExactDiff {| m_counterFrequency := 10000000 |}
    {| counterValue := 350 |} {| counterValue := 350 |} = Some 0.
Proof.
  apply (TimeStampExactDiff_same_stamp 10000000).
  - reflexivity.
  - unfold in_int64, INT64_MIN, INT64_MAX. lia.
  - reflexivity.
Defined.

(** X16.  With a zero frequency, the case that the assertion of
    [Init] excludes, [TimeStampExactDiff] has no defined result for any
    pair of stamps: the quotient is an infinity, the product an infinity
    or NaN. *)
Theorem TimeStampExactDiff_zero_frequency (self : CSystemUtilsWindows)
  (before after : SystemTimeStamp) :
  m_counterFrequency self = 0 ->
  TimeStampExactDiff self before after = None.
Proof.
  intros H0. unfold TimeStampExactDiff, floatValue. rewrite H0.
  change (ddiv lit_1e9 (double_of_ll 0)) with (S754_infinity false).
  pose proof (double_of_ll_is_finite _
                (wrap64_range (counterValue after - counterValue before))) as F.
  destruct (double_of_ll (wrap64 (counterValue after - counterValue before)))
    as [s | s | | s m e]; try discriminate F; reflexivity.
Qed.

Lemma TimeStampExactDiff_zero_frequency_witness :
  TimeStampExactDiff {| m_counterFrequency := 0 |}
    {| counterValue := 100 |} {| counterValue := 350 |} = None.
Proof.
  apply (TimeStampExactDiff_zero_frequency {| m_counterFrequency := 0 |}).
  reflexivity.
Defined.

(** X17.  Given a positive frequency stored by [Init] and two readings
    of the counter taken by [GetCurrentTimeStamp], a result of
    [TimeStampExactDiff] is never negative when the first reading is the
    earlier one, and never positive when it is the later one. *)
Theorem TimeStampExactDiff_chronological (q : Z)
  (self : CSystemUtilsWindows) (value1 value2 t : Z) :
  Init q = Some self -> 0 < q <= INT64_MAX ->
  0 <= value1 <= INT64_MAX -> 0 <= value2 <= INT64_MAX ->
  TimeStampExactDiff self (GetCurrentTimeStamp value1)
    (GetCurrentTimeStamp value2) = Some t ->
  (value1 <= value2 -> 0 <= t) /\ (value2 <= value1 -> t <= 0).
Proof.
  intros HI Hq H1 H2 Ht. apply Init_Some in HI as [Hq0 Hf].
  assert (Hq' : in_int64 q)
    by (unfold in_int64, INT64_MIN, INT64_MAX in *; lia).
  destruct (Z.eq_dec value2 value1) as [E | NE].
  - destruct (TimeError.floatValue_equal self (GetCurrentTimeStamp value1)
                (GetCurrentTimeStamp value2)) as [s Es];
      [ exact E | rewrite Hf; exact Hq' | rewrite Hf; exact Hq0 | ].
    unfold TimeStampExactDiff in Ht. rewrite Es in Ht.
    injection Ht as <-. lia.
  - pose proof (floatValue_normal self (GetCurrentTimeStamp value1)
                  (GetCurrentTimeStamp value2)) as N.
    cbn [GetCurrentTimeStamp counterValue] in N. rewrite Hf in N.
    destruct N as (m & e & E & _);
      [ unfold in_int64, INT64_MIN, INT64_MAX in *; lia | lia
      | exact Hq' | exact Hq0 | ].
    unfold TimeStampExactDiff in Ht. rewrite E in Ht.
    unfold ll_of_float in Ht. cbn [trunc] in Ht.
    set (v := if 0 <=? e then Z.pos m * 2 ^ e else Z.pos m / 2 ^ (- e)) in Ht.
    assert (V : 0 <= v).
    { subst v. destruct (Z.leb_spec 0 e).
      - assert (0 < 2 ^ e) by (apply Z.pow_pos_nonneg; lia). lia.
      - apply Z.div_pos; [ lia | apply Z.pow_pos_nonneg; lia ]. }
    destruct (_ && _) in Ht; [ | discriminate ]. injection Ht as <-.
    replace (q <? 0) with false by (symmetry; apply Z.ltb_ge; lia).
    rewrite xorb_false_r.
    destruct (Z.ltb_spec (value2 - value1) 0); cbn [cond_Zopp]; lia.
Qed.

Lemma TimeStampExactDiff_chronological_witness :
  (100 <= 350 -> 0 <= 25000) /\ (350 <= 100 -> 25000 <= 0).
Proof.
  apply (TimeStampExactDiff_chronological 10000000
           {| m_counterFrequency := 10000000 |} 100 350 25000).
  - reflexivity.
  - unfold INT64_MAX. lia.
  - unfold INT64_MAX. lia.
  - unfold INT64_MAX. lia.
  - vm_compute. reflexivity.
Defined.

(** X18.  The due time that [Usleep] computes is [-(10 * usec)], the
    relative time of [usec] microseconds in units of 100 ns, exactly
    for the [usec] between -214748364 and 214748364; for every other
    [int] the product or its negation overflows.  For a positive
    [usec] up to that bound the due time is negative, the form in
    which a due time is relative. *)
Theorem Usleep_interval (usec : Z) :
  INT_MIN <= usec <= INT_MAX ->
  (Usleep_QuadPart usec = - (10 * usec)
   <-> -214748364 <= usec <= 214748364)
  /\ (0 < usec <= 214748364 -> Usleep_QuadPart usec < 0).
Proof.
  unfold INT_MIN, INT_MAX, Usleep_QuadPart. intros H.
  assert (R : forall z, - 2 ^ 31 <= wrap32 z < 2 ^ 31).
  { intros z. unfold wrap32.
    pose proof (Z.mod_pos_bound (z + 2 ^ 31) (2 ^ 32) ltac:(lia)). lia. }
  assert (I : -214748364 <= usec <= 214748364 ->
              wrap32 (- wrap32 (10 * usec)) = - (10 * usec)).
  { intros Hs.
    assert (E1 : wrap32 (10 * usec) = 10 * usec)
      by (unfold wrap32; rewrite Z.mod_small; lia).
    rewrite E1. unfold wrap32. rewrite Z.mod_small; lia. }
  split; [ split | ].
  - intros E. pose proof (R (- wrap32 (10 * usec))) as B.
    rewrite E in B. lia.
  - exact I.
  - intros Hs. rewrite I by lia. lia.
Qed.

Lemma Usleep_interval_witness :
  (Usleep_QuadPart 1000 = - (10 * 1000)
   <-> -214748364 <= 1000 <= 214748364)
  /\ (0 < 1000 <= 214748364 -> Usleep_QuadPart 1000 < 0).
Proof.
  apply (Usleep_interval 1000). unfold INT_MIN, INT_MAX. lia.
Defined.
